(** * libctf: the in-memory CTF type container (libctf/ctf-impl.h)

    A shallow embedding of the implementation header of libctf.

    From the header: the container structure [ctf_file], the dynamic
    definition records, the declaration-printing state, the macros that
    encode and decode type identifiers ([LCTF_TYPE_ISPARENT],
    [LCTF_TYPE_ISCHILD], [LCTF_TYPE_TO_INDEX], [LCTF_INDEX_TO_TYPE]) and
    the macros that round an offset up to an alignment boundary
    ([P2ROUNDUP], [LCTF_ALIGN_OFFS]).

    The functions that the header only declares (overlay insertion and
    lookup, name and identifier lookup, snapshot, rollback, commit, the
    declaration renderer) are defined in other files of the library; they
    are modelled here from the specification of the container, each under
    a comment that says so. *)

From Stdlib Require Import ZArith Lia Bool List.
From stdpp Require Import gmap strings list fin_maps pretty.

Local Open Scope Z_scope.

(** ** Machine integers

    C integers of width [w] are values of [Z] reduced modulo [2 ^ w];
    every operation that can leave the range is wrapped explicitly. *)

Definition wrap (w x : Z) : Z := x mod 2 ^ w.

(** [uint32_t] arithmetic, the type of [ctf_parmax]. *)
Definition u32 (x : Z) : Z := wrap 32 x.

(** Unary minus and bitwise complement on a [w]-bit operand. *)
Definition negw (w x : Z) : Z := wrap w (- x).
Definition notw (w x : Z) : Z := wrap w (Z.lnot x).

(** ** Alignment macros *)

(** [#define P2ROUNDUP(x, align) (-(-(x) & -(align)))] *)
Definition P2ROUNDUP (w x align : Z) : Z :=
  negw w (Z.land (negw w x) (negw w align)).

(** [#define LCTF_ALIGN_OFFS(offs, align) ((offs + (align - 1)) & ~(align - 1))] *)
Definition LCTF_ALIGN_OFFS (w offs align : Z) : Z :=
  Z.land (wrap w (offs + wrap w (align - 1))) (notw w (wrap w (align - 1))).

(** ** Data model of the header *)

(** Modelled from the spec: the type kinds of <ctf.h>, which is not part of
    the sources at hand: base types (integer, float), pointers, arrays,
    functions, structures, unions, enums, forward declarations, typedefs,
    qualifiers and bit-field slices. *)
Inductive ctf_kind :=
  | CTF_K_UNKNOWN | CTF_K_INTEGER | CTF_K_FLOAT | CTF_K_POINTER | CTF_K_ARRAY
  | CTF_K_FUNCTION | CTF_K_STRUCT | CTF_K_UNION | CTF_K_ENUM | CTF_K_FORWARD
  | CTF_K_TYPEDEF | CTF_K_VOLATILE | CTF_K_CONST | CTF_K_RESTRICT | CTF_K_SLICE.

#[global] Instance ctf_kind_eq_dec : EqDecision ctf_kind.
Proof. solve_decision. Defined.

(** The four name tables of a container ([ctf_structs], [ctf_unions],
    [ctf_enums], [ctf_names]) partition the names by kind: struct tags,
    union tags, enum tags and the remaining type names. *)
Inductive ctf_nspace := NS_STRUCTS | NS_UNIONS | NS_ENUMS | NS_NAMES.

#[global] Instance ctf_nspace_eq_dec : EqDecision ctf_nspace.
Proof. solve_decision. Defined.

#[global] Instance ctf_nspace_countable : Countable ctf_nspace.
Proof.
  refine (inj_countable'
    (fun ns => match ns with
               | NS_STRUCTS => 0%nat | NS_UNIONS => 1%nat
               | NS_ENUMS => 2%nat | NS_NAMES => 3%nat end)
    (fun n => match n with
              | 0%nat => NS_STRUCTS | 1%nat => NS_UNIONS
              | 2%nat => NS_ENUMS | _ => NS_NAMES end) _).
  intros []; reflexivity.
Defined.

Definition kind_nspace (k : ctf_kind) : ctf_nspace :=
  match k with
  | CTF_K_STRUCT => NS_STRUCTS
  | CTF_K_UNION => NS_UNIONS
  | CTF_K_ENUM => NS_ENUMS
  | _ => NS_NAMES
  end.

(** [typedef struct ctf_dmodel] (the name is left out). *)
Record ctf_dmodel_t := Build_ctf_dmodel {
  ctd_code : Z;
  ctd_pointer : Z;
  ctd_char : Z;
  ctd_short : Z;
  ctd_int : Z;
  ctd_long : Z;
}.

(** [typedef enum ctf_decl_prec_t]; [CTF_PREC_MAX] is the number of levels. *)
Inductive ctf_decl_prec_t :=
  | CTF_PREC_BASE | CTF_PREC_POINTER | CTF_PREC_ARRAY | CTF_PREC_FUNCTION.

#[global] Instance ctf_decl_prec_eq_dec : EqDecision ctf_decl_prec_t.
Proof. solve_decision. Defined.

(** The enumerators' values. *)
Definition prec_val (p : ctf_decl_prec_t) : Z :=
  match p with
  | CTF_PREC_BASE => 0
  | CTF_PREC_POINTER => 1
  | CTF_PREC_ARRAY => 2
  | CTF_PREC_FUNCTION => 3
  end.

Definition CTF_PREC_MAX : Z := 4.

(** [typedef struct ctf_decl_node]: the list pointers are the list itself. *)
Record ctf_decl_node_t := Build_ctf_decl_node {
  cd_type : Z;
  cd_kind : ctf_kind;
  cd_n : Z;
}.

(** [typedef struct ctf_dmdef] *)
Record ctf_dmdef_t := Build_ctf_dmdef {
  dmd_name : string;
  dmd_type : Z;
  dmd_offset : Z;
  dmd_value : Z;
}.

(** Modelled from the spec: the array payload [ctf_arinfo_t] of
    <ctf-api.h>: element type, index type and bound. *)
Record ctf_arinfo_t := Build_ctf_arinfo {
  ctr_contents : Z;
  ctr_index : Z;
  ctr_nelems : Z;
}.

(** Modelled from the spec: the integer or float encoding descriptor
    [ctf_encoding_t] of <ctf-api.h>. *)
Record ctf_encoding_t := Build_ctf_encoding {
  cte_format : Z;
  cte_offset : Z;
  cte_bits : Z;
}.

(** Modelled from the spec: the bit-field slice descriptor [ctf_slice_t]
    of <ctf.h>. *)
Record ctf_slice_t := Build_ctf_slice {
  cts_type : Z;
  cts_offset : Z;
  cts_bits : Z;
}.

#[global] Instance ctf_dmdef_eq_dec : EqDecision ctf_dmdef_t.
Proof. solve_decision. Defined.
#[global] Instance ctf_arinfo_eq_dec : EqDecision ctf_arinfo_t.
Proof. solve_decision. Defined.
#[global] Instance ctf_encoding_eq_dec : EqDecision ctf_encoding_t.
Proof. solve_decision. Defined.
#[global] Instance ctf_slice_eq_dec : EqDecision ctf_slice_t.
Proof. solve_decision. Defined.

(** The union [dtd_u] of a dynamic type definition, as a tagged variant. *)
Inductive ctf_dtd_u :=
  | dtu_members (l : list ctf_dmdef_t)
  | dtu_arr (a : ctf_arinfo_t)
  | dtu_enc (e : ctf_encoding_t)
  | dtu_argv (l : list Z)
  | dtu_slice (s : ctf_slice_t)
  | dtu_unused.

(** Modelled from the spec: the type node [ctf_type_t] of <ctf.h>: the
    string-table offset of the name, the kind, the is-root flag and the
    member count of the info word, and the referenced type (or size). *)
Record ctf_type_t := Build_ctf_type {
  ctt_name : Z;
  ctt_kind : ctf_kind;
  ctt_isroot : bool;
  ctt_vlen : Z;
  ctt_type : Z;
}.

(** [typedef struct ctf_dtdef]; an absent name is [None]. *)
Record ctf_dtdef_t := Build_ctf_dtdef {
  dtd_name : option string;
  dtd_type : Z;
  dtd_data : ctf_type_t;
  dtd_u : ctf_dtd_u;
}.

#[global] Instance ctf_dtd_u_eq_dec : EqDecision ctf_dtd_u.
Proof. solve_decision. Defined.
#[global] Instance ctf_type_eq_dec : EqDecision ctf_type_t.
Proof. solve_decision. Defined.
#[global] Instance ctf_dtdef_eq_dec : EqDecision ctf_dtdef_t.
Proof. solve_decision. Defined.

(** [typedef struct ctf_dvdef] *)
Record ctf_dvdef_t := Build_ctf_dvdef {
  dvd_name : string;
  dvd_type : Z;
  dvd_snapshots : Z;
}.

#[global] Instance ctf_dvdef_eq_dec : EqDecision ctf_dvdef_t.
Proof. solve_decision. Defined.

(** Modelled from the spec: the snapshot identifier that [snapshot]
    returns and [rollback] takes ([ctf_snapshot_id_t] of <ctf-api.h>): the
    epoch that the snapshot starts, and the last type index assigned
    before it.  [struct ctf_dtdef] records no epoch: a dynamic type is
    dated by its identifier, a dynamic variable by [dvd_snapshots]. *)
Record ctf_snapshot_id_t := Build_ctf_snapshot_id {
  dtd_id : Z;
  snapshot_id : Z;
}.

(** *** The immutable buffer

    The on-disk layout of <ctf.h> is not part of the sources at hand; the
    buffer is modelled from the spec as a header (version, data-model
    code, section lengths), densely packed type records (name offset,
    kind, is-root flag, member count, kind-specific payload), the variable
    entries, and an offset-addressed string table.  Padding is not
    represented. *)

(** Modelled from the spec: a member or enumerator record of <ctf.h>: name
    offset, type and bit offset, or name offset and value. *)
Record ctf_member_t := Build_ctf_member {
  ctm_name : Z;
  ctm_type : Z;
  ctm_offset : Z;
  ctm_value : Z;
}.

(** Modelled from the spec: the variable-length payload of a type record,
    one case per shape of [dtd_u], with names as string-table offsets. *)
Inductive ctf_vdata :=
  | vd_members (l : list ctf_member_t)
  | vd_arr (a : ctf_arinfo_t)
  | vd_enc (e : ctf_encoding_t)
  | vd_argv (l : list Z)
  | vd_slice (s : ctf_slice_t)
  | vd_unused.

(** Modelled from the spec: a type record of the buffer: the type node
    and its payload. *)
Record ctf_trec := Build_ctf_trec {
  tr_data : ctf_type_t;
  tr_vdata : ctf_vdata;
}.

(** Modelled from the spec: a variable entry ([struct ctf_varent] of
    <ctf.h>): name offset and type. *)
Record ctf_varent_t := Build_ctf_varent {
  ctv_name : Z;
  ctv_type : Z;
}.

(** Modelled from the spec: the fixed header: version, data-model code
    and the lengths of the type and string sections. *)
Record ctf_header_t := Build_ctf_header {
  cth_version : Z;
  cth_model : Z;
  cth_typelen : Z;   (* number of type records *)
  cth_strlen : Z;    (* bytes of the string table *)
}.

(** Modelled from the spec: the buffer behind [ctf_base], [ctf_buf] and
    [ctf_str]: header, type records in identifier order, variable
    entries, and the strings of the string table in offset order. *)
Record ctf_buffer := Build_ctf_buffer {
  ctb_hdr : ctf_header_t;
  ctb_types : list ctf_trec;
  ctb_vars : list ctf_varent_t;
  ctb_strs : list string;
}.

(** *** [struct ctf_file]

    The fields that the operations below read or write.  The hash tables
    are finite maps; [ctf_base] is the parsed immutable buffer (none for a
    purely dynamic container); [ctf_dtbyname] is keyed by name table and
    name. *)

#[local] Set Warnings "-register-all".

Inductive ctf_file := Build_ctf_file {
  ctf_structs : gmap string Z;
  ctf_unions : gmap string Z;
  ctf_enums : gmap string Z;
  ctf_names : gmap string Z;
  ctf_base : option ctf_buffer;
  ctf_txlate : list Z;
  ctf_typemax : Z;
  ctf_dmodel : ctf_dmodel_t;
  ctf_parent : option ctf_file;
  ctf_parmax : Z;   (* uint32_t: highest type ID of a parent type *)
  ctf_flags : Z;
  ctf_version : Z;
  ctf_dthash : gmap Z ctf_dtdef_t;
  ctf_dtbyname : gmap (ctf_nspace * string) ctf_dtdef_t;
  ctf_dtdefs : list ctf_dtdef_t;
  ctf_dvhash : gmap string ctf_dvdef_t;
  ctf_dvdefs : list ctf_dvdef_t;
  ctf_dtnextid : Z;
  ctf_dtoldid : Z;
  ctf_snapshots : Z;
  ctf_snapshot_lu : Z;
}.

#[local] Set Warnings "register-all".

(** [#define LCTF_CHILD 0x0001], [LCTF_RDWR 0x0002], [LCTF_DIRTY 0x0004] *)
Definition LCTF_CHILD : Z := 0x0001.
Definition LCTF_RDWR : Z := 0x0002.
Definition LCTF_DIRTY : Z := 0x0004.

(** ** Identifier namespace macros

    [ctf_id_t] is declared in ctf-api.h; identifiers are taken here as
    non-negative integers.  [fp->ctf_parmax+1] is computed in [uint32_t]. *)

(** [#define LCTF_TYPE_ISPARENT(fp, id) ((id) <= fp->ctf_parmax)] *)
Definition LCTF_TYPE_ISPARENT (fp : ctf_file) (id : Z) : bool :=
  id <=? ctf_parmax fp.

(** [#define LCTF_TYPE_ISCHILD(fp, id) ((id) > fp->ctf_parmax)] *)
Definition LCTF_TYPE_ISCHILD (fp : ctf_file) (id : Z) : bool :=
  id >? ctf_parmax fp.

(** [#define LCTF_TYPE_TO_INDEX(fp, id) ((id) & (fp->ctf_parmax))] *)
Definition LCTF_TYPE_TO_INDEX (fp : ctf_file) (id : Z) : Z :=
  Z.land id (ctf_parmax fp).

(** [#define LCTF_INDEX_TO_TYPE(fp, id, child)
       (child ? ((id) | (fp->ctf_parmax+1)) : (id))] *)
Definition LCTF_INDEX_TO_TYPE (fp : ctf_file) (id : Z) (child : bool) : Z :=
  if child then Z.lor id (u32 (ctf_parmax fp + 1)) else id.

(** [#define LCTF_INDEX_TO_TYPEPTR(fp, i)]: the type record found at
    [(fp)->ctf_buf + (fp)->ctf_txlate[(i)]], that is the record of the
    buffer at the translated position; an index outside the table or a
    position outside the buffer designates nothing. *)
Definition LCTF_INDEX_TO_TYPEPTR (fp : ctf_file) (i : Z) : option ctf_trec :=
  if i <? 0 then None else
  match ctf_base fp, ctf_txlate fp !! Z.to_nat i with
  | Some buf, Some off => if off <? 0 then None else ctb_types buf !! Z.to_nat off
  | _, _ => None
  end.

(** ** Results *)

(** Modelled from the spec: the error taxonomy of the container (the error
    codes of <ctf-api.h>); [OutOfSpace] is the commit failure of that
    name. *)
Inductive ctf_error :=
  | ParseError | InvalidId | DuplicateName | InvalidPayload | InvalidEpoch
  | OutOfMemory | OutOfSpace.

(** Every operation returns a typed result, next to the resulting
    container when it mutates. *)
Inductive result (A : Type) :=
  | Ok (a : A)
  | Err (e : ctf_error).

Arguments Ok {A} a.
Arguments Err {A} e.

Definition is_ok {A} (r : result A) : bool :=
  match r with Ok _ => true | Err _ => false end.

(** ** Field updates of [struct ctf_file] *)

Definition ctf_set_dtdefs (h : gmap Z ctf_dtdef_t)
    (n : gmap (ctf_nspace * string) ctf_dtdef_t) (l : list ctf_dtdef_t)
    (fp : ctf_file) : ctf_file :=
  let 'Build_ctf_file st un en na ba tx tm dm pa pm fl ve _ _ _ vh vl ni oi sn lu := fp in
  Build_ctf_file st un en na ba tx tm dm pa pm fl ve h n l vh vl ni oi sn lu.

Definition ctf_set_dvdefs (h : gmap string ctf_dvdef_t) (l : list ctf_dvdef_t)
    (fp : ctf_file) : ctf_file :=
  let 'Build_ctf_file st un en na ba tx tm dm pa pm fl ve dh dn dl _ _ ni oi sn lu := fp in
  Build_ctf_file st un en na ba tx tm dm pa pm fl ve dh dn dl h l ni oi sn lu.

Definition ctf_set_dtnextid (v : Z) (fp : ctf_file) : ctf_file :=
  let 'Build_ctf_file st un en na ba tx tm dm pa pm fl ve dh dn dl vh vl _ oi sn lu := fp in
  Build_ctf_file st un en na ba tx tm dm pa pm fl ve dh dn dl vh vl v oi sn lu.

Definition ctf_set_snapshots (v : Z) (fp : ctf_file) : ctf_file :=
  let 'Build_ctf_file st un en na ba tx tm dm pa pm fl ve dh dn dl vh vl ni oi _ lu := fp in
  Build_ctf_file st un en na ba tx tm dm pa pm fl ve dh dn dl vh vl ni oi v lu.

Definition ctf_set_dtoldid (v : Z) (fp : ctf_file) : ctf_file :=
  let 'Build_ctf_file st un en na ba tx tm dm pa pm fl ve dh dn dl vh vl ni _ sn lu := fp in
  Build_ctf_file st un en na ba tx tm dm pa pm fl ve dh dn dl vh vl ni v sn lu.

Definition ctf_set_snapshot_lu (v : Z) (fp : ctf_file) : ctf_file :=
  let 'Build_ctf_file st un en na ba tx tm dm pa pm fl ve dh dn dl vh vl ni oi sn _ := fp in
  Build_ctf_file st un en na ba tx tm dm pa pm fl ve dh dn dl vh vl ni oi sn v.

Definition ctf_set_static (st un en na : gmap string Z) (ba : option ctf_buffer)
    (tx : list Z) (tm : Z) (fp : ctf_file) : ctf_file :=
  let 'Build_ctf_file _ _ _ _ _ _ _ dm pa pm fl ve dh dn dl vh vl ni oi sn lu := fp in
  Build_ctf_file st un en na ba tx tm dm pa pm fl ve dh dn dl vh vl ni oi sn lu.

Definition ctf_set_parent (p : ctf_file) (pmax flags : Z) (fp : ctf_file) : ctf_file :=
  let 'Build_ctf_file st un en na ba tx tm dm _ _ _ ve dh dn dl vh vl ni oi sn lu := fp in
  Build_ctf_file st un en na ba tx tm dm (Some p) pmax flags ve dh dn dl vh vl ni oi sn lu.

(** ** The dynamic overlay

    Modelled from the spec: [ctf_dtd_insert], [ctf_dtd_delete],
    [ctf_dvd_insert], [ctf_dvd_delete] and the lookups are declared in the
    header and defined in a file that is not at hand.  The overlay keeps
    three views of the dynamic type definitions: the insertion-ordered list
    [ctf_dtdefs], the name index [ctf_dtbyname] and the id index
    [ctf_dthash]; the variables have a list and a name index.  Each
    operation updates the views one by one, as the header's three fields
    are. *)

(** An index over a list of records: [key] gives the key under which a
    record is entered, if any; entering a record replaces an earlier one
    with the same key. *)
Definition index_insert {A K : Type} `{Countable K} (key : A -> option K)
    (m : gmap K A) (x : A) : gmap K A :=
  match key x with
  | Some k => <[k := x]> m
  | None => m
  end.

(** The index derived from a list, oldest record first. *)
Definition index_of {A K : Type} `{Countable K} (key : A -> option K)
    (l : list A) : gmap K A :=
  foldl (index_insert key) ∅ l.

(** The newest record of a list (the last one) entered under [k]. *)
Definition newest {A K : Type} `{EqDecision K} (key : A -> option K) (k : K)
    (l : list A) : option A :=
  last (filter (fun x => key x = Some k) l).

(** Taking a record out of an index, given the list that remains: the key
    of the record goes to the newest remaining record entered under it, or
    leaves the index when there is none. *)
Definition index_remove {A K : Type} `{Countable K} (key : A -> option K)
    (rest : list A) (m : gmap K A) (x : A) : gmap K A :=
  match key x with
  | Some k =>
    match newest key k rest with
    | Some y => <[k := y]> m
    | None => delete k m
    end
  | None => m
  end.

(** The key of a definition in the name index; anonymous types have none. *)
Definition dtd_key (dtd : ctf_dtdef_t) : option (ctf_nspace * string) :=
  match dtd_name dtd with
  | Some n => Some (kind_nspace (ctt_kind (dtd_data dtd)), n)
  | None => None
  end.

(** The keys of the id index and of the variables' name index. *)
Definition dtd_hkey (dtd : ctf_dtdef_t) : option Z := Some (dtd_type dtd).
Definition dvd_key (dvd : ctf_dvdef_t) : option string := Some (dvd_name dvd).

(** Modelled from the spec: [ctf_dtd_insert] (declared in the header):
    the definition is appended to the list, entered in the id index under
    its identifier and in the name index under its name. *)
Definition ctf_dtd_insert (fp : ctf_file) (dtd : ctf_dtdef_t) : ctf_file :=
  ctf_set_dtdefs (<[dtd_type dtd := dtd]> (ctf_dthash fp))
                 (index_insert dtd_key (ctf_dtbyname fp) dtd)
                 (ctf_dtdefs fp ++ [dtd]) fp.

(** Modelled from the spec: [ctf_dtd_delete] (declared in the header):
    the definition is unlinked from the list, its identifier leaves the id
    index, and its name, if it has one, goes to the newest remaining
    definition of that name or leaves the name index. *)
Definition ctf_dtd_delete (fp : ctf_file) (dtd : ctf_dtdef_t) : ctf_file :=
  let rest := filter (fun d => d <> dtd) (ctf_dtdefs fp) in
  ctf_set_dtdefs (delete (dtd_type dtd) (ctf_dthash fp))
                 (index_remove dtd_key rest (ctf_dtbyname fp) dtd)
                 rest fp.

(** Modelled from the spec: [ctf_dvd_insert] (declared in the header): a
    variable goes to the list and to the name index. *)
Definition ctf_dvd_insert (fp : ctf_file) (dvd : ctf_dvdef_t) : ctf_file :=
  ctf_set_dvdefs (index_insert dvd_key (ctf_dvhash fp) dvd)
                 (ctf_dvdefs fp ++ [dvd]) fp.

(** Modelled from the spec: [ctf_dvd_delete] (declared in the header): the
    variable is unlinked from the list and its name goes to the newest
    remaining variable of that name or leaves the name index. *)
Definition ctf_dvd_delete (fp : ctf_file) (dvd : ctf_dvdef_t) : ctf_file :=
  let rest := filter (fun d => d <> dvd) (ctf_dvdefs fp) in
  ctf_set_dvdefs (index_remove dvd_key rest (ctf_dvhash fp) dvd) rest fp.

(** Modelled from the spec: [ctf_dtd_lookup] and [ctf_dvd_lookup]
    (declared in the header) read the id index and the variables' name
    index. *)
Definition ctf_dtd_lookup (fp : ctf_file) (type : Z) : option ctf_dtdef_t :=
  ctf_dthash fp !! type.

Definition ctf_dvd_lookup (fp : ctf_file) (name : string) : option ctf_dvdef_t :=
  ctf_dvhash fp !! name.

(** The three views agree when the id index and the name indices are the
    indices of the lists and no two dynamic types share an identifier. *)
Definition overlay_ok (fp : ctf_file) : Prop :=
  ctf_dthash fp = index_of dtd_hkey (ctf_dtdefs fp) /\
  ctf_dtbyname fp = index_of dtd_key (ctf_dtdefs fp) /\
  ctf_dvhash fp = index_of dvd_key (ctf_dvdefs fp) /\
  NoDup (dtd_type <$> ctf_dtdefs fp).

(** ** Creation, parent attachment *)

(** Modelled from the spec: the format version written by this library, a
    constant of <ctf.h>; its value plays no role below. *)
Definition CTF_VERSION : Z := 4.

(** Modelled from the spec: [ctf_create], a container created empty
    (writable): no buffer, no parent, boundary 0, empty overlay, first id
    1, epoch 0. *)
Definition ctf_create (model : ctf_dmodel_t) : ctf_file :=
  {| ctf_structs := ∅; ctf_unions := ∅; ctf_enums := ∅; ctf_names := ∅;
     ctf_base := None; ctf_txlate := []; ctf_typemax := 0;
     ctf_dmodel := model; ctf_parent := None; ctf_parmax := 0;
     ctf_flags := LCTF_RDWR; ctf_version := CTF_VERSION;
     ctf_dthash := ∅; ctf_dtbyname := ∅; ctf_dtdefs := [];
     ctf_dvhash := ∅; ctf_dvdefs := [];
     ctf_dtnextid := 1; ctf_dtoldid := 0;
     ctf_snapshots := 0; ctf_snapshot_lu := 0 |}.

(** The least value of the form [2^k - 1] that is at least [n]. *)
Definition ctf_parmax_round (n : Z) : Z := 2 ^ Z.log2_up (n + 1) - 1.

(** Modelled from the spec: [attach_parent] ([ctf_import]): fails if the
    parent already
    has a parent or if the data models differ; otherwise the
    boundary becomes the parent's highest assigned id, rounded up to one
    less than a power of two, and the container becomes a child. *)
Definition ctf_import (fp parent : ctf_file) : option ctf_file :=
  match ctf_parent parent with
  | Some _ => None
  | None =>
    if negb (ctd_code (ctf_dmodel fp) =? ctd_code (ctf_dmodel parent)) then None
    else Some (ctf_set_parent parent
                 (u32 (ctf_parmax_round (ctf_dtnextid parent - 1)))
                 (Z.lor (ctf_flags fp) LCTF_CHILD) fp)
  end.

(** [fp->ctf_flags & LCTF_CHILD] *)
Definition ctf_is_child (fp : ctf_file) : bool :=
  negb (Z.land (ctf_flags fp) LCTF_CHILD =? 0).

(** ** Lookups *)

(** The static name table of a kind. *)
Definition ctf_lookup_table (fp : ctf_file) (ns : ctf_nspace) : gmap string Z :=
  match ns with
  | NS_STRUCTS => ctf_structs fp
  | NS_UNIONS => ctf_unions fp
  | NS_ENUMS => ctf_enums fp
  | NS_NAMES => ctf_names fp
  end.

(** Modelled from the spec: [lookup_by_name(name, kind_filter)]: the
    dynamic overlay first, then the static table of the kind, then the
    parent by the same call, its id translated into the caller's namespace
    (a parent id is encoded with the child flag off).  [None] is NotFound. *)
Fixpoint ctf_lookup_by_name (fp : ctf_file) (ns : ctf_nspace) (name : string)
    : option Z :=
  match ctf_dtbyname fp !! (ns, name) with
  | Some dtd => Some (dtd_type dtd)
  | None =>
    match ctf_lookup_table fp ns !! name with
    | Some id => Some id
    | None =>
      match ctf_parent fp with
      | Some p =>
        match ctf_lookup_by_name p ns name with
        | Some id => Some (LCTF_INDEX_TO_TYPE fp id false)
        | None => None
        end
      | None => None
      end
    end
  end.

(** ** The string table *)

(** Modelled from the spec: the string table is offset-addressed; its
    strings follow each other, each one closed by a NUL byte, which makes
    the length of the table in bytes. *)
Definition strtab_len (l : list string) : Z :=
  foldr (fun s n => Z.of_nat (String.length s) + 1 + n) 0 l.

Fixpoint string_drop (n : nat) (s : string) : string :=
  match n, s with
  | O, _ => s
  | S n', String _ s' => string_drop n' s'
  | S _, EmptyString => EmptyString
  end.

(** The string that starts at an offset of the table, if the offset lies
    inside the table. *)
Fixpoint strtab_get (l : list string) (off : Z) : option string :=
  match l with
  | [] => None
  | s :: l' =>
    let n := Z.of_nat (String.length s) + 1 in
    if off <? 0 then None
    else if off <? n then Some (string_drop (Z.to_nat off) s)
    else strtab_get l' (off - n)
  end.

(** The offset of the first entry equal to [s], searching from byte [off]. *)
Fixpoint strtab_find (l : list string) (s : string) (off : Z) : option Z :=
  match l with
  | [] => None
  | x :: l' =>
    if decide (x = s) then Some off
    else strtab_find l' s (off + Z.of_nat (String.length x) + 1)
  end.

(** Serialization threads the string table being built. *)
Definition ser (A : Type) : Type := list string -> list string * A.

Definition ser_ret {A} (a : A) : ser A := fun strs => (strs, a).

Definition ser_bind {A B} (m : ser A) (k : A -> ser B) : ser B :=
  fun strs => let (strs', a) := m strs in k a strs'.

Notation "'do' x <- m ; k" := (ser_bind m (fun x => k))
  (at level 10, x name, m at level 100, k at level 200).

Fixpoint ser_list {A B} (f : A -> ser B) (l : list A) : ser (list B) :=
  match l with
  | [] => ser_ret []
  | x :: l' => do y <- f x; do ys <- ser_list f l'; ser_ret (y :: ys)
  end.

(** Modelled from the spec: string table entries are de-duplicated and
    appended in first-use order: a string already in the table keeps its
    offset, a new one goes to the end. *)
Definition strtab_add (s : string) : ser Z :=
  fun strs =>
    match strtab_find strs s 0 with
    | Some off => (strs, off)
    | None => (strs ++ [s], strtab_len strs)
    end.

(** Modelled from the spec: [ctf_strraw] (declared in the header): the
    name at an offset of the container's string table. *)
Definition ctf_strraw (fp : ctf_file) (off : Z) : option string :=
  match ctf_base fp with
  | Some buf => strtab_get (ctb_strs buf) off
  | None => None
  end.

(** ** Lookup by identifier *)

(** Modelled from the spec: the type descriptor that [lookup_by_id]
    returns: the name (empty for an anonymous type), the type node and the
    payload. *)
Record ctf_tdesc := Build_ctf_tdesc {
  td_name : string;
  td_data : ctf_type_t;
  td_u : ctf_dtd_u;
}.

Definition dtd_desc (dtd : ctf_dtdef_t) : ctf_tdesc :=
  {| td_name := default EmptyString (dtd_name dtd);
     td_data := dtd_data dtd;
     td_u := dtd_u dtd |}.

Definition member_desc (fp : ctf_file) (m : ctf_member_t) : ctf_dmdef_t :=
  {| dmd_name := default EmptyString (ctf_strraw fp (ctm_name m));
     dmd_type := ctm_type m;
     dmd_offset := ctm_offset m;
     dmd_value := ctm_value m |}.

Definition vdata_desc (fp : ctf_file) (v : ctf_vdata) : ctf_dtd_u :=
  match v with
  | vd_members l => dtu_members (member_desc fp <$> l)
  | vd_arr a => dtu_arr a
  | vd_enc e => dtu_enc e
  | vd_argv l => dtu_argv l
  | vd_slice s => dtu_slice s
  | vd_unused => dtu_unused
  end.

Definition trec_desc (fp : ctf_file) (r : ctf_trec) : ctf_tdesc :=
  {| td_name := default EmptyString (ctf_strraw fp (ctt_name (tr_data r)));
     td_data := tr_data r;
     td_u := vdata_desc fp (tr_vdata r) |}.

(** Modelled from the spec: the definition of an identifier of the
    container's own side: the dynamic definition with that identifier, or
    else the static record at the decoded index, which must lie between 1
    and [ctf_typemax]. *)
Definition ctf_lookup_local (fp : ctf_file) (type : Z) : result ctf_tdesc :=
  match ctf_dtd_lookup fp type with
  | Some dtd => Ok (dtd_desc dtd)
  | None =>
    let idx := LCTF_TYPE_TO_INDEX fp type in
    if (0 <? idx) && (idx <=? ctf_typemax fp) then
      match LCTF_INDEX_TO_TYPEPTR fp idx with
      | Some r => Ok (trec_desc fp r)
      | None => Err InvalidId
      end
    else Err InvalidId
  end.

(** Modelled from the spec: [lookup_by_id(id)]: an identifier of the parent
    range is delegated to the parent; any other one is read from the
    dynamic or the static definitions of the container. *)
Fixpoint ctf_lookup_by_id (fp : ctf_file) (type : Z) : result ctf_tdesc :=
  if LCTF_TYPE_ISPARENT fp type then
    match ctf_parent fp with
    | Some p => ctf_lookup_by_id p type
    | None => Err InvalidId
    end
  else ctf_lookup_local fp type.

(** ** Mutations *)

(** Modelled from the spec: the payload that goes with each kind. *)
Definition payload_ok (kind : ctf_kind) (u : ctf_dtd_u) : bool :=
  match kind, u with
  | CTF_K_INTEGER, dtu_enc _ | CTF_K_FLOAT, dtu_enc _ => true
  | CTF_K_ARRAY, dtu_arr _ => true
  | CTF_K_FUNCTION, dtu_argv _ => true
  | CTF_K_STRUCT, dtu_members _ | CTF_K_UNION, dtu_members _
  | CTF_K_ENUM, dtu_members _ => true
  | CTF_K_SLICE, dtu_slice _ => true
  | CTF_K_POINTER, dtu_unused | CTF_K_TYPEDEF, dtu_unused
  | CTF_K_FORWARD, dtu_unused | CTF_K_VOLATILE, dtu_unused
  | CTF_K_CONST, dtu_unused | CTF_K_RESTRICT, dtu_unused => true
  | _, _ => false
  end.

Definition payload_vlen (u : ctf_dtd_u) : Z :=
  match u with
  | dtu_members l => Z.of_nat (length l)
  | dtu_argv l => Z.of_nat (length l)
  | _ => 0
  end.

(** The identifier of the [i]-th type of the container's own side of the
    namespace. *)
Definition ctf_index_to_type (fp : ctf_file) (i : Z) : Z :=
  LCTF_INDEX_TO_TYPE fp i (ctf_is_child fp).

(** Modelled from the spec: [add_type(kind, name, payload)]: the next
    index of the per-container counter [ctf_dtnextid], encoded for the
    container's side of the namespace, is given to a new definition, which
    is inserted into the overlay.  [ref] is the referenced type (or the
    size) of the type node.  A payload that does not go with the kind is
    rejected.  In a child the indices end at the boundary (an index above
    it has no encoding that [LCTF_TYPE_TO_INDEX] decodes): when they are
    used up the addition is rejected with OutOfSpace.  A rejected addition
    leaves the container untouched.  A repeated name is not rejected: the
    later definition shadows the earlier one. *)
Definition ctf_add_type (fp : ctf_file) (kind : ctf_kind) (name : option string)
    (ref : Z) (u : ctf_dtd_u) : ctf_file * result Z :=
  if negb (payload_ok kind u) then (fp, Err InvalidPayload)
  else if ctf_is_child fp && (ctf_parmax fp <? ctf_dtnextid fp)
  then (fp, Err OutOfSpace)
  else
    let type := ctf_index_to_type fp (ctf_dtnextid fp) in
    let dtd := {| dtd_name := name; dtd_type := type;
                  dtd_data := {| ctt_name := 0; ctt_kind := kind;
                                 ctt_isroot := true;
                                 ctt_vlen := payload_vlen u;
                                 ctt_type := ref |};
                  dtd_u := u |} in
    (ctf_set_dtnextid (ctf_dtnextid fp + 1) (ctf_dtd_insert fp dtd), Ok type).

(** Modelled from the spec: a dynamic variable definition binds a name to
    a type and records the epoch that created it ([dvd_snapshots]).  A
    name that a dynamic variable already has is rejected with
    DuplicateName and leaves the container untouched. *)
Definition ctf_add_variable (fp : ctf_file) (name : string) (type : Z)
    : ctf_file * result unit :=
  match ctf_dvd_lookup fp name with
  | Some _ => (fp, Err DuplicateName)
  | None =>
    (ctf_dvd_insert fp {| dvd_name := name; dvd_type := type;
                          dvd_snapshots := ctf_snapshots fp |}, Ok tt)
  end.

(** Modelled from the spec: [snapshot]: the epoch counter [ctf_snapshots]
    is incremented and the identifier of the epoch that starts is
    returned; nothing is serialized. *)
Definition ctf_snapshot (fp : ctf_file) : ctf_file * ctf_snapshot_id_t :=
  (ctf_set_snapshots (ctf_snapshots fp + 1) fp,
   {| dtd_id := ctf_dtnextid fp - 1; snapshot_id := ctf_snapshots fp + 1 |}).

(** Modelled from the spec: [rollback(target_epoch)].  The target is
    refused with InvalidEpoch, and the container left untouched, when it
    lies at or before the last commit, whose definitions are folded into
    the buffer ([ctf_snapshot_lu] is the epoch that the last commit
    started, [ctf_dtoldid] the last index committed), and also when it lies
    ahead of the container's counters.  Otherwise every dynamic type
    created since the target (its identifier is above the last one assigned
    before the target) and every dynamic variable created since (by
    [dvd_snapshots]) is deleted, one by one, in list order, and the
    counters return to their values at the target. *)
Definition ctf_rollback (fp : ctf_file) (id : ctf_snapshot_id_t)
    : ctf_file * result unit :=
  if (snapshot_id id <=? ctf_snapshot_lu fp) || (dtd_id id <? ctf_dtoldid fp)
     || (ctf_snapshots fp <? snapshot_id id) || (ctf_dtnextid fp <=? dtd_id id)
  then (fp, Err InvalidEpoch)
  else
    let last := ctf_index_to_type fp (dtd_id id) in
    let fp1 := foldl (fun fp' dtd => if dtd_type dtd <=? last then fp'
                                     else ctf_dtd_delete fp' dtd)
                     fp (ctf_dtdefs fp) in
    let fp2 := foldl (fun fp' dvd => if dvd_snapshots dvd <? snapshot_id id then fp'
                                     else ctf_dvd_delete fp' dvd)
                     fp1 (ctf_dvdefs fp) in
    (ctf_set_snapshots (snapshot_id id) (ctf_set_dtnextid (dtd_id id + 1) fp2),
     Ok tt).

(** ** Commit

    Modelled from the spec: [commit] ([ctf_update]) is declared by the
    library's interface and defined in a file that is not at hand. *)

(** Modelled from the spec: a member is written with its name as a
    string-table offset. *)
Definition ser_member (m : ctf_dmdef_t) : ser ctf_member_t :=
  do off <- strtab_add (dmd_name m);
  ser_ret {| ctm_name := off; ctm_type := dmd_type m;
             ctm_offset := dmd_offset m; ctm_value := dmd_value m |}.

(** Modelled from the spec: the payload of a definition; members are
    written in declaration (insertion) order. *)
Definition ser_dtd_u (u : ctf_dtd_u) : ser ctf_vdata :=
  match u with
  | dtu_members l => do ms <- ser_list ser_member l; ser_ret (vd_members ms)
  | dtu_arr a => ser_ret (vd_arr a)
  | dtu_enc e => ser_ret (vd_enc e)
  | dtu_argv l => ser_ret (vd_argv l)
  | dtu_slice s => ser_ret (vd_slice s)
  | dtu_unused => ser_ret vd_unused
  end.

(** Modelled from the spec: the type record of a definition: the name
    goes to the string table (the empty name for an anonymous type), the
    rest of the type node and the payload are copied. *)
Definition ser_tdesc (td : ctf_tdesc) : ser ctf_trec :=
  do off <- strtab_add (td_name td);
  do v <- ser_dtd_u (td_u td);
  ser_ret {| tr_data := {| ctt_name := off;
                           ctt_kind := ctt_kind (td_data td);
                           ctt_isroot := ctt_isroot (td_data td);
                           ctt_vlen := ctt_vlen (td_data td);
                           ctt_type := ctt_type (td_data td) |};
             tr_vdata := v |}.

(** Modelled from the spec: the entry of a variable, given as its name and
    its type. *)
Definition ser_var (v : string * Z) : ser ctf_varent_t :=
  do off <- strtab_add (fst v);
  ser_ret {| ctv_name := off; ctv_type := snd v |}.

(** The static definitions of a container, read back from its buffer, and
    its static variables. *)
Definition ctf_static_types (fp : ctf_file) : list ctf_tdesc :=
  match ctf_base fp with
  | Some buf => trec_desc fp <$> ctb_types buf
  | None => []
  end.

Definition ctf_static_vars (fp : ctf_file) : list (string * Z) :=
  match ctf_base fp with
  | Some buf =>
    (fun v => (default EmptyString (ctf_strraw fp (ctv_name v)), ctv_type v))
      <$> ctb_vars buf
  | None => []
  end.

(** The variable entries of a buffer are sorted by name (the header's
    [ctf_vars] is the "sorted variable->type mapping"): insertion into a
    sorted list, and the sort that it gives. *)
Fixpoint var_insert (v : string * Z) (l : list (string * Z)) : list (string * Z) :=
  match l with
  | [] => [v]
  | w :: l' => if String.leb (fst v) (fst w) then v :: l
               else w :: var_insert v l'
  end.

Definition var_sort (l : list (string * Z)) : list (string * Z) :=
  foldr var_insert [] l.

(** Modelled from the spec: the updated buffer, static and dynamic
    definitions in one, in the canonical order: the static definitions,
    then the dynamic ones in insertion order, each with its members in
    declaration order; the variables sorted by name; the string table
    holds the empty string at offset 0 and every name once, in first-use
    order. *)
Definition ctf_serialize (fp : ctf_file) : ctf_buffer :=
  let tds := ctf_static_types fp ++ (dtd_desc <$> ctf_dtdefs fp) in
  let vs := var_sort (ctf_static_vars fp
                      ++ ((fun d => (dvd_name d, dvd_type d)) <$> ctf_dvdefs fp)) in
  let '(strs1, types) := ser_list ser_tdesc tds [EmptyString] in
  let '(strs2, vars) := ser_list ser_var vs strs1 in
  {| ctb_hdr := {| cth_version := ctf_version fp;
                   cth_model := ctd_code (ctf_dmodel fp);
                   cth_typelen := Z.of_nat (length types);
                   cth_strlen := strtab_len strs2 |};
     ctb_types := types;
     ctb_vars := vars;
     ctb_strs := strs2 |}.

(** Modelled from the spec: the structural references of a dynamic
    definition, that is the type identifiers it refers to. *)
Definition dtd_refs (dtd : ctf_dtdef_t) : list Z :=
  match ctt_kind (dtd_data dtd), dtd_u dtd with
  | CTF_K_POINTER, _ | CTF_K_TYPEDEF, _ | CTF_K_VOLATILE, _
  | CTF_K_CONST, _ | CTF_K_RESTRICT, _ => [ctt_type (dtd_data dtd)]
  | CTF_K_FUNCTION, dtu_argv l => ctt_type (dtd_data dtd) :: l
  | CTF_K_ARRAY, dtu_arr a => [ctr_contents a; ctr_index a]
  | CTF_K_STRUCT, dtu_members l | CTF_K_UNION, dtu_members l => dmd_type <$> l
  | CTF_K_SLICE, dtu_slice sl => [cts_type sl]
  | _, _ => []
  end.

(** Modelled from the spec: every structural reference of the overlay
    resolves in the container (a reference to a type id that no longer
    exists makes the commit fail). *)
Definition ctf_refs_ok (fp : ctf_file) : bool :=
  forallb (fun type => is_ok (ctf_lookup_by_id fp type))
          (mjoin (dtd_refs <$> ctf_dtdefs fp) ++ (dvd_type <$> ctf_dvdefs fp)).

(** Modelled from the spec: a commit can run out of space.  Record
    positions ([ctf_txlate] is [uint32_t *]) and string offsets
    ([ctf_strraw] takes a [uint32_t]) are 32-bit: a buffer fits when its
    sections stay below that limit. *)
Definition ctf_buffer_fits (buf : ctf_buffer) : bool :=
  (Z.of_nat (length (ctb_types buf)) <? 2 ^ 32) &&
  (strtab_len (ctb_strs buf) <? 2 ^ 32).

(** Modelled from the spec: the name table of one kind, built by scanning
    the type records once: every named record is entered under the
    identifier of its position. *)
Definition ctf_scan_names (fp : ctf_file) (buf : ctf_buffer) (ns : ctf_nspace)
    : gmap string Z :=
  foldl (fun m '(i, r) =>
           if decide (kind_nspace (ctt_kind (tr_data r)) = ns) then
             match strtab_get (ctb_strs buf) (ctt_name (tr_data r)) with
             | Some (String c n) =>
               <[String c n := ctf_index_to_type fp (Z.of_nat i + 1)]> m
             | _ => m
             end
           else m)
        ∅ (imap pair (ctb_types buf)).

(** *** Operations in place

    A mutating operation works on the container it is given: it takes the
    container before the call to the container after it and a typed
    result.  In a sequence of steps the container is handed from step to
    step; the sequence stops at the first step that fails, in the state
    reached by then. *)
Definition ctf_op (A : Type) : Type := ctf_file -> ctf_file * result A.

Definition op_ret {A} (a : A) : ctf_op A := fun fp => (fp, Ok a).

Definition op_bind {A B} (m : ctf_op A) (k : A -> ctf_op B) : ctf_op B :=
  fun fp =>
    match m fp with
    | (fp', Ok a) => k a fp'
    | (fp', Err e) => (fp', Err e)
    end.

(** Reading the container, writing it, and a step that fails with [e]
    unless [b] holds. *)
Definition op_read {A} (f : ctf_file -> A) : ctf_op A := fun fp => (fp, Ok (f fp)).
Definition op_write (f : ctf_file -> ctf_file) : ctf_op unit :=
  fun fp => (f fp, Ok tt).
Definition op_guard (b : bool) (e : ctf_error) : ctf_op unit :=
  fun fp => (fp, if b then Ok tt else Err e).

Notation "'step' x <- m ; k" := (op_bind m (fun x => k))
  (at level 10, x name, m at level 100, k at level 200).

(** Modelled from the spec: the three writes of a commit.  The new buffer
    takes the place of the old one and the static index is derived again
    from it (name tables, translation table, highest static index); the
    overlay is cleared, the indices committed so far ending at the last
    one assigned ([ctf_dtoldid]); the epoch advances, and the epoch that
    starts is recorded as the one of the last commit
    ([ctf_snapshot_lu]). *)
Definition ctf_install (buf : ctf_buffer) (fp : ctf_file) : ctf_file :=
  ctf_set_static (ctf_scan_names fp buf NS_STRUCTS) (ctf_scan_names fp buf NS_UNIONS)
                 (ctf_scan_names fp buf NS_ENUMS) (ctf_scan_names fp buf NS_NAMES)
                 (Some buf)
                 (0 :: (Z.of_nat <$> seq 0 (length (ctb_types buf))))
                 (Z.of_nat (length (ctb_types buf))) fp.

Definition ctf_clear_overlay (fp : ctf_file) : ctf_file :=
  ctf_set_dtoldid (ctf_dtnextid fp - 1)
    (ctf_set_dvdefs ∅ [] (ctf_set_dtdefs ∅ ∅ [] fp)).

Definition ctf_advance_epoch (fp : ctf_file) : ctf_file :=
  ctf_set_snapshot_lu (ctf_snapshots fp + 1)
    (ctf_set_snapshots (ctf_snapshots fp + 1) fp).

(** Modelled from the spec: [commit] ([ctf_update]), in place.  The steps
    that can fail come first: the structural references of the overlay are
    checked (InvalidId), the new buffer is laid out and must fit
    (OutOfSpace), and the buffer, the translation table and the name tables
    are allocated (OutOfMemory; [heap n] tells whether the [n]-th
    allocation of the call succeeds).  Then the container is written. *)
Definition ctf_update (heap : nat -> bool) : ctf_op ctf_buffer :=
  step refs <- op_read ctf_refs_ok ;
  step _ <- op_guard refs InvalidId ;
  step buf <- op_read ctf_serialize ;
  step _ <- op_guard (ctf_buffer_fits buf) OutOfSpace ;
  step _ <- op_guard (heap 0%nat) OutOfMemory ;
  step _ <- op_guard (heap 1%nat) OutOfMemory ;
  step _ <- op_guard (heap 2%nat) OutOfMemory ;
  step _ <- op_write (ctf_install buf) ;
  step _ <- op_write ctf_clear_overlay ;
  step _ <- op_write ctf_advance_epoch ;
  op_ret buf.

(** *** Well-formed containers *)

(** In a child the boundary is one less than a power of two that
    [uint32_t] holds, and the indices assigned stay at or below it. *)
Definition boundary_ok (fp : ctf_file) : Prop :=
  ctf_is_child fp = true ->
  exists k, 0 <= k /\ 0 <= ctf_parmax fp < 2 ^ 32 /\
            u32 (ctf_parmax fp + 1) = 2 ^ k /\
            ctf_dtnextid fp <= ctf_parmax fp + 1.

(** A container is well formed when the views of its overlay agree, the
    identifiers of its dynamic types are the encodings of indices between
    the last one committed and the next one to assign, and no dynamic
    variable is newer than the current epoch, which is not older than the
    last commit. *)
Definition ctf_wf (fp : ctf_file) : Prop :=
  overlay_ok fp /\
  0 <= ctf_dtoldid fp < ctf_dtnextid fp /\
  Forall (fun d => exists i, ctf_dtoldid fp < i < ctf_dtnextid fp /\
                             dtd_type d = ctf_index_to_type fp i)
         (ctf_dtdefs fp) /\
  boundary_ok fp /\
  ctf_snapshot_lu fp <= ctf_snapshots fp /\
  Forall (fun d => dvd_snapshots d <= ctf_snapshots fp) (ctf_dvdefs fp).

(** The container [fp] with the overlay and the counters of [src]. *)
Definition ctf_with_overlay (src fp : ctf_file) : ctf_file :=
  ctf_set_snapshots (ctf_snapshots src)
    (ctf_set_dtnextid (ctf_dtnextid src)
       (ctf_set_dvdefs (ctf_dvhash src) (ctf_dvdefs src)
          (ctf_set_dtdefs (ctf_dthash src) (ctf_dtbyname src) (ctf_dtdefs src) fp))).

(** A mutation of the overlay that succeeds: a type or a variable is
    added, or a snapshot is taken. *)
Inductive ctf_mutation : ctf_file -> ctf_file -> Prop :=
  | mut_add_type fp kind name ref u fp' id :
      ctf_add_type fp kind name ref u = (fp', Ok id) -> ctf_mutation fp fp'
  | mut_add_variable fp name type fp' :
      ctf_add_variable fp name type = (fp', Ok tt) -> ctf_mutation fp fp'
  | mut_snapshot fp : ctf_mutation fp (fst (ctf_snapshot fp)).

(** ** Declaration rendering

    Modelled from the spec: [ctf_decl_init], [ctf_decl_push],
    [ctf_decl_sprintf], [ctf_decl_buf] and the printing loop are declared in
    the header or called through it and defined in files that are not at
    hand.  The state is the header's [ctf_decl_t]. *)

(** [typedef struct ctf_decl]: one stack of nodes per precedence level,
    the order in which the levels were first used, the level qualifiers go
    to, the next order number, the output buffer (a null [cd_buf] is
    [None]), the saved error and the out-of-memory flag. *)
Record ctf_decl_t := Build_ctf_decl {
  cd_nodes : ctf_decl_prec_t -> list ctf_decl_node_t;
  cd_order : ctf_decl_prec_t -> Z;
  cd_qualp : ctf_decl_prec_t;
  cd_ordp : Z;
  cd_buf : option string;
  cd_err : option ctf_error;
  cd_enomem : bool;
}.

Definition decl_upd {A} (f : ctf_decl_prec_t -> A) (p : ctf_decl_prec_t) (v : A)
    : ctf_decl_prec_t -> A :=
  fun q => if decide (q = p) then v else f q.

(** Modelled from the spec: [ctf_decl_init]: no node, no level used yet,
    qualifiers at the base level, an empty output buffer, no error. *)
Definition ctf_decl_init : ctf_decl_t :=
  {| cd_nodes := fun _ => [];
     cd_order := fun _ => prec_val CTF_PREC_BASE - 1;
     cd_qualp := CTF_PREC_BASE;
     cd_ordp := prec_val CTF_PREC_BASE;
     cd_buf := Some EmptyString;
     cd_err := None;
     cd_enomem := false |}.

Definition ctf_decl_set_err (e : ctf_error) (cd : ctf_decl_t) : ctf_decl_t :=
  {| cd_nodes := cd_nodes cd; cd_order := cd_order cd; cd_qualp := cd_qualp cd;
     cd_ordp := cd_ordp cd; cd_buf := cd_buf cd; cd_err := Some e;
     cd_enomem := cd_enomem cd |}.

(** Modelled from the spec: entering a node at a level: the first node of
    a level records the order number of the level ([cd_order], [cd_ordp]);
    a pointer level raises the level that qualifiers go to ([cd_qualp]);
    array nodes and qualifiers of a base type are prepended, the others
    appended. *)
Definition ctf_decl_enter (cd : ctf_decl_t) (prec : ctf_decl_prec_t)
    (node : ctf_decl_node_t) (is_qual : bool) : ctf_decl_t :=
  let first := match cd_nodes cd prec with [] => true | _ => false end in
  let front := bool_decide (cd_kind node = CTF_K_ARRAY)
               || (is_qual && bool_decide (prec = CTF_PREC_BASE)) in
  {| cd_nodes := decl_upd (cd_nodes cd) prec
                   (if front then node :: cd_nodes cd prec
                    else cd_nodes cd prec ++ [node]);
     cd_order := if first then decl_upd (cd_order cd) prec (cd_ordp cd)
                 else cd_order cd;
     cd_qualp := if (prec_val (cd_qualp cd) <? prec_val prec)
                    && (prec_val prec <? prec_val CTF_PREC_ARRAY)
                 then prec else cd_qualp cd;
     cd_ordp := if first then cd_ordp cd + 1 else cd_ordp cd;
     cd_buf := cd_buf cd; cd_err := cd_err cd; cd_enomem := cd_enomem cd |}.

(** Modelled from the spec: [ctf_decl_push] walks the type chain from the
    given type to the base type, entering one node per type at the level
    of its kind: the referenced type is pushed first, so the base type is
    entered first.  A type that does not resolve saves the error.  [fuel]
    bounds the length of the chain. *)
Fixpoint ctf_decl_push (fuel : nat) (cd : ctf_decl_t) (fp : ctf_file) (type : Z)
    : ctf_decl_t :=
  match fuel with
  | O => ctf_decl_set_err InvalidId cd
  | S fuel' =>
    match ctf_lookup_by_id fp type with
    | Err e => ctf_decl_set_err e cd
    | Ok tp =>
      let kind := ctt_kind (td_data tp) in
      let node n := {| cd_type := type; cd_kind := kind; cd_n := n |} in
      match kind, td_u tp with
      | CTF_K_ARRAY, dtu_arr ar =>
        ctf_decl_enter (ctf_decl_push fuel' cd fp (ctr_contents ar))
                       CTF_PREC_ARRAY (node (ctr_nelems ar)) false
      | CTF_K_FUNCTION, _ =>
        ctf_decl_enter (ctf_decl_push fuel' cd fp (ctt_type (td_data tp)))
                       CTF_PREC_FUNCTION (node 1) false
      | CTF_K_POINTER, _ =>
        ctf_decl_enter (ctf_decl_push fuel' cd fp (ctt_type (td_data tp)))
                       CTF_PREC_POINTER (node 1) false
      | CTF_K_VOLATILE, _ | CTF_K_CONST, _ | CTF_K_RESTRICT, _ =>
        let cd' := ctf_decl_push fuel' cd fp (ctt_type (td_data tp)) in
        ctf_decl_enter cd' (cd_qualp cd') (node 1) true
      | _, _ => ctf_decl_enter cd CTF_PREC_BASE (node 1) false
      end
    end
  end.

(** Modelled from the spec: the text of a node: the name of a base type,
    a star for a pointer, the bound in brackets for an array, an empty
    parameter list for a function. *)
Definition ctf_decl_node_text (fp : ctf_file) (cdp : ctf_decl_node_t) : string :=
  let name := match ctf_lookup_by_id fp (cd_type cdp) with
              | Ok tp => td_name tp
              | Err _ => EmptyString
              end in
  match cd_kind cdp with
  | CTF_K_POINTER => "*"
  | CTF_K_ARRAY => "[" +:+ pretty (cd_n cdp) +:+ "]"
  | CTF_K_FUNCTION => "()"
  | CTF_K_STRUCT | CTF_K_FORWARD => "struct " +:+ name
  | CTF_K_UNION => "union " +:+ name
  | CTF_K_ENUM => "enum " +:+ name
  | CTF_K_VOLATILE => "volatile"
  | CTF_K_CONST => "const"
  | CTF_K_RESTRICT => "restrict"
  | _ => name
  end.

(** The printing state between two pieces: the pieces so far, the kind of
    the last node printed and the level that still has to open a
    parenthesis. *)
Definition decl_pstate : Type :=
  (list string * ctf_kind * option ctf_decl_prec_t)%type.

(** Modelled from the spec: pieces are separated by a blank, except after
    a pointer or an array (and at the very beginning). *)
Definition decl_blank (k : ctf_kind) : list string :=
  match k with
  | CTF_K_POINTER | CTF_K_ARRAY => []
  | _ => [" "%string]
  end.

(** Modelled from the spec: printing a node of a level: the blank, the
    parenthesis that the level has to open, the text of the node. *)
Definition decl_print_node (fp : ctf_file) (prec : ctf_decl_prec_t)
    (st : decl_pstate) (cdp : ctf_decl_node_t) : decl_pstate :=
  let '(out, k, lp) := st in
  let open := bool_decide (lp = Some prec) in
  (out ++ decl_blank k ++ (if open then ["("%string] else [])
       ++ [ctf_decl_node_text fp cdp],
   cd_kind cdp,
   if open then None else lp).

(** Modelled from the spec: the identifier follows the prefix operators,
    inside the parenthesis that an array level has to open. *)
Definition decl_print_ident (ident : string) (st : decl_pstate) : decl_pstate :=
  let '(out, k, lp) := st in
  match ident with
  | EmptyString => st
  | _ =>
    let open := bool_decide (lp = Some CTF_PREC_ARRAY) in
    (out ++ decl_blank k ++ (if open then ["("%string] else []) ++ [ident],
     CTF_K_POINTER,
     if open then None else lp)
  end.

(** Modelled from the spec: printing a level: its nodes in stack order,
    the identifier after the pointer level, and the parenthesis that the
    level has to close. *)
Definition decl_print_level (fp : ctf_file) (cd : ctf_decl_t) (ident : string)
    (rp : option ctf_decl_prec_t) (st : decl_pstate) (prec : ctf_decl_prec_t)
    : decl_pstate :=
  let st1 := foldl (decl_print_node fp prec) st (cd_nodes cd prec) in
  let '(out, k, lp) :=
    if bool_decide (prec = CTF_PREC_POINTER) then decl_print_ident ident st1
    else st1 in
  (if bool_decide (rp = Some prec) then out ++ [")"%string] else out, k, lp).

(** Modelled from the spec: the pieces of the declaration, in the order in
    which they are printed: the levels from the base level up, so that the
    prefix operators come before the identifier and the suffix operators
    after it; when the order in which the levels were entered conflicts
    with their precedence, the pointer (and array) level is put in
    parentheses. *)
Definition ctf_decl_tokens (fp : ctf_file) (cd : ctf_decl_t) (ident : string)
    : list string :=
  let ptr := prec_val CTF_PREC_POINTER <? cd_order cd CTF_PREC_POINTER in
  let arr := prec_val CTF_PREC_ARRAY <? cd_order cd CTF_PREC_ARRAY in
  let rp := if arr then Some CTF_PREC_ARRAY
            else if ptr then Some CTF_PREC_POINTER else None in
  let lp := if ptr then Some CTF_PREC_POINTER
            else if arr then Some CTF_PREC_ARRAY else None in
  let '(out, _, _) :=
    foldl (decl_print_level fp cd ident rp) ([], CTF_K_POINTER, lp)
          [CTF_PREC_BASE; CTF_PREC_POINTER; CTF_PREC_ARRAY; CTF_PREC_FUNCTION] in
  out.

(** Modelled from the spec: [ctf_decl_sprintf] appends a piece to the
    output buffer.  The buffer has to grow for that; [heap n] tells
    whether the [n]-th request succeeds.  When it does not, the
    out-of-memory flag is set and the buffer is left as it is; the flag is
    sticky: nothing is printed once it is set. *)
Definition ctf_decl_sprintf (heap : nat -> bool) (st : ctf_decl_t * nat)
    (str : string) : ctf_decl_t * nat :=
  let (cd, n) := st in
  if cd_enomem cd then (cd, n)
  else if heap n then
    ({| cd_nodes := cd_nodes cd; cd_order := cd_order cd;
        cd_qualp := cd_qualp cd; cd_ordp := cd_ordp cd;
        cd_buf := Some (default EmptyString (cd_buf cd) +:+ str);
        cd_err := cd_err cd; cd_enomem := false |}, S n)
  else
    ({| cd_nodes := cd_nodes cd; cd_order := cd_order cd;
        cd_qualp := cd_qualp cd; cd_ordp := cd_ordp cd;
        cd_buf := cd_buf cd;
        cd_err := cd_err cd; cd_enomem := true |}, S n).

(** [extern char *ctf_decl_buf (ctf_decl_t *cd)] *)
Definition ctf_decl_buf (cd : ctf_decl_t) : option string := cd_buf cd.

(** The number of types that the container and its parent hold: a chain
    without a cycle is no longer. *)
Fixpoint ctf_type_count (fp : ctf_file) : nat :=
  length (ctf_dtdefs fp)
  + match ctf_base fp with Some buf => length (ctb_types buf) | None => 0 end
  + match ctf_parent fp with Some p => ctf_type_count p | None => 0 end.

(** Modelled from the spec: the nodes of a type, and the pieces of its
    declaration. *)
Definition ctf_decl_nodes (fp : ctf_file) (type : Z) : ctf_decl_t :=
  ctf_decl_push (S (ctf_type_count fp)) ctf_decl_init fp type.

Definition ctf_decl_pieces (fp : ctf_file) (type : Z) (ident : string)
    : list string :=
  ctf_decl_tokens fp (ctf_decl_nodes fp type) ident.

(** Modelled from the spec: the Declaration Renderer: the declaration of
    [ident] with the given type, as the output string and the
    out-of-memory flag; a type chain that does not resolve is an error. *)
Definition ctf_decl_render (heap : nat -> bool) (fp : ctf_file) (type : Z)
    (ident : string) : result (option string * bool) :=
  let cd := ctf_decl_nodes fp type in
  match cd_err cd with
  | Some e => Err e
  | None =>
    let cd' := fst (foldl (ctf_decl_sprintf heap) (cd, O)
                          (ctf_decl_pieces fp type ident)) in
    Ok (ctf_decl_buf cd', cd_enomem cd')
  end.

(** The concatenation of a list of pieces. *)
Definition string_concat (l : list string) : string :=
  foldr String.append EmptyString l.


(** The number of requests, among the [n] requests from number [k] on,
    that are served before the first one that fails. *)
Fixpoint heap_served (heap : nat -> bool) (k n : nat) : nat :=
  match n with
  | O => O
  | S n' => if heap k then S (heap_served heap (S k) n') else O
  end.

(** ** Example data

    A data model, a container without a parent (boundary 0), a container
    attached to a parent with boundary 7, and one with the largest
    boundary that [uint32_t] holds. *)

Definition dmodel_lp64 : ctf_dmodel_t :=
  {| ctd_code := 2; ctd_pointer := 8; ctd_char := 1; ctd_short := 2;
     ctd_int := 4; ctd_long := 8 |}.

Definition fp_boundary0 : ctf_file :=
  {| ctf_structs := ∅; ctf_unions := ∅; ctf_enums := ∅; ctf_names := ∅;
     ctf_base := None; ctf_txlate := []; ctf_typemax := 0;
     ctf_dmodel := dmodel_lp64; ctf_parent := None; ctf_parmax := 0;
     ctf_flags := LCTF_RDWR; ctf_version := 4;
     ctf_dthash := ∅; ctf_dtbyname := ∅; ctf_dtdefs := [];
     ctf_dvhash := ∅; ctf_dvdefs := [];
     ctf_dtnextid := 1; ctf_dtoldid := 0;
     ctf_snapshots := 0; ctf_snapshot_lu := 0 |}.

Definition fp_boundary7 : ctf_file :=
  ctf_set_parent fp_boundary0 7 (Z.lor LCTF_RDWR LCTF_CHILD) fp_boundary0.

Definition fp_boundary_top : ctf_file :=
  ctf_set_parent fp_boundary0 0xffffffff (Z.lor LCTF_RDWR LCTF_CHILD) fp_boundary0.

(** Three dynamic types and two variables, added at epochs 1, 2 and 3 to a
    container created empty: [int], a pointer to it, and an array of ten
    such pointers; with the snapshots that start the epochs. *)
Definition enc_int32 : ctf_encoding_t :=
  {| cte_format := 1; cte_offset := 0; cte_bits := 32 |}.

Definition fp_epoch1 : ctf_file :=
  let fp := fst (ctf_snapshot (ctf_create dmodel_lp64)) in
  let fp := fst (ctf_add_type fp CTF_K_INTEGER (Some "int"%string) 4
                   (dtu_enc enc_int32)) in
  fst (ctf_add_variable fp "counter" 1).

Definition snap_epoch2 : ctf_snapshot_id_t := snd (ctf_snapshot fp_epoch1).

Definition fp_epoch2 : ctf_file :=
  let fp := fst (ctf_snapshot fp_epoch1) in
  let fp := fst (ctf_add_type fp CTF_K_POINTER None 1 dtu_unused) in
  fst (ctf_add_variable fp "cursor" 2).

Definition snap_epoch3 : ctf_snapshot_id_t := snd (ctf_snapshot fp_epoch2).

Definition fp_three_epochs : ctf_file :=
  let fp := fst (ctf_snapshot fp_epoch2) in
  fst (ctf_add_type fp CTF_K_ARRAY None 0
         (dtu_arr {| ctr_contents := 2; ctr_index := 1; ctr_nelems := 10 |})).

(** A heap that never fails and one whose [k]-th allocation fails; the
    container of the three epochs after a commit, and a container whose
    only dynamic type points to a type that does not exist. *)
Definition heap_ok : nat -> bool := fun _ => true.
Definition heap_fail_at (k : nat) : nat -> bool := fun n => negb (n =? k)%nat.

Definition fp_committed : ctf_file := fst (ctf_update heap_ok fp_three_epochs).

Definition fp_dangling : ctf_file :=
  fst (ctf_add_type (ctf_create dmodel_lp64) CTF_K_POINTER None 99 dtu_unused).

(** [int], an array of ten [int], and a pointer to that array. *)
Definition fp_ptr_to_array : ctf_file :=
  let fp := ctf_create dmodel_lp64 in
  let fp := fst (ctf_add_type fp CTF_K_INTEGER (Some "int"%string) 4
                   (dtu_enc enc_int32)) in
  let fp := fst (ctf_add_type fp CTF_K_ARRAY None 0
                   (dtu_arr {| ctr_contents := 1; ctr_index := 1;
                               ctr_nelems := 10 |})) in
  fst (ctf_add_type fp CTF_K_POINTER None 2 dtu_unused).

(** A container with a static struct tag "foo": a struct of that name
    is added to a container created empty, and committed. *)
Definition fp_static_foo : ctf_file :=
  fst (ctf_update heap_ok
         (fst (ctf_add_type (ctf_create dmodel_lp64) CTF_K_STRUCT
                 (Some "foo"%string) 0 (dtu_members [])))).

(** * Properties *)

(** ** Bit-level facts about power-of-two masks *)

Section Masks.
Variables w k : Z.
Hypothesis Hk : 0 <= k < w.

Lemma pow2_pos_k : 0 < 2 ^ k.
Proof. apply Z.pow_pos_nonneg; lia. Qed.

Lemma pow2_lt_kw : 2 ^ k < 2 ^ w.
Proof. apply Z.pow_lt_mono_r; lia. Qed.

Lemma pow2_split_kw : 2 ^ w = 2 ^ k * 2 ^ (w - k).
Proof. rewrite <- Z.pow_add_r by lia. f_equal. lia. Qed.

Lemma negw_pow2 : negw w (2 ^ k) = 2 ^ w - 2 ^ k.
Proof.
  unfold negw, wrap.
  pose proof pow2_pos_k. pose proof pow2_lt_kw.
  symmetry. apply (Z.mod_unique_pos _ _ (-1)); lia.
Qed.

Lemma notw_pow2_pred : notw w (wrap w (2 ^ k - 1)) = 2 ^ w - 2 ^ k.
Proof.
  unfold notw, wrap.
  pose proof pow2_pos_k. pose proof pow2_lt_kw.
  rewrite (Z.mod_small (2 ^ k - 1)) by lia.
  replace (Z.lnot (2 ^ k - 1)) with (- 2 ^ k) by (unfold Z.lnot; lia).
  symmetry. apply (Z.mod_unique_pos _ _ (-1)); lia.
Qed.

(** Masking with [2^w - 2^k] clears the low [k] bits of a [w]-bit value. *)
Lemma land_high_mask (y : Z) :
  0 <= y < 2 ^ w -> Z.land y (2 ^ w - 2 ^ k) = y - y mod 2 ^ k.
Proof.
  intros Hy.
  assert (Hm : 2 ^ w - 2 ^ k = Z.ldiff (Z.ones w) (Z.ones k)).
  { rewrite <- Z.sub_nocarry_ldiff.
    - rewrite !Z.ones_equiv. lia.
    - apply Z.bits_inj'. intros n Hn.
      rewrite Z.ldiff_spec, Z.bits_0, !Z.testbit_ones_nonneg by lia.
      destruct (n <? k) eqn:E1, (n <? w) eqn:E2; simpl; try reflexivity; lia. }
  rewrite Hm.
  assert (Hd : y - y mod 2 ^ k = Z.ldiff y (Z.ones k)).
  { rewrite Z.ldiff_ones_r by lia.
    rewrite Z.shiftl_mul_pow2, Z.shiftr_div_pow2 by lia.
    pose proof pow2_pos_k.
    pose proof (Z.div_mod y (2 ^ k)). lia. }
  rewrite Hd.
  apply Z.bits_inj'. intros n Hn.
  rewrite Z.land_spec, !Z.ldiff_spec, !Z.testbit_ones_nonneg by lia.
  destruct (n <? w) eqn:E.
  - rewrite andb_true_l. reflexivity.
  - rewrite andb_false_l, andb_false_r.
    assert (Hb : Z.testbit y n = false).
    { destruct (Z.eq_dec y 0) as [->|Hne]; [apply Z.bits_0|].
      apply Z.bits_above_log2; [lia|].
      apply Z.log2_lt_pow2; [lia|].
      apply Z.lt_le_trans with (2 ^ w); [lia|].
      apply Z.pow_le_mono_r; lia. }
    rewrite Hb. reflexivity.
Qed.

(** Both macros compute [2^k * ((x + 2^k - 1) / 2^k)] modulo [2^w]. *)
Lemma P2ROUNDUP_closed (x : Z) :
  0 <= x < 2 ^ w ->
  P2ROUNDUP w x (2 ^ k) = (2 ^ k * ((x + 2 ^ k - 1) / 2 ^ k)) mod 2 ^ w.
Proof.
  intros Hx. unfold P2ROUNDUP.
  rewrite negw_pow2.
  pose proof pow2_pos_k as HA. pose proof pow2_lt_kw as HAM.
  pose proof pow2_split_kw as HS.
  assert (HN : 0 < 2 ^ (w - k)) by (apply Z.pow_pos_nonneg; lia).
  assert (Hy : 0 <= negw w x < 2 ^ w)
    by (unfold negw, wrap; apply Z.mod_pos_bound; lia).
  rewrite land_high_mask by exact Hy.
  pose proof (Z.div_mod (x + 2 ^ k - 1) (2 ^ k) ltac:(lia)) as Hqr.
  pose proof (Z.mod_pos_bound (x + 2 ^ k - 1) (2 ^ k) HA) as Hr.
  set (q := (x + 2 ^ k - 1) / 2 ^ k) in *.
  set (r := (x + 2 ^ k - 1) mod 2 ^ k) in *.
  assert (Hnx : negw w x mod 2 ^ k = 2 ^ k - 1 - r).
  { unfold negw, wrap.
    rewrite Z.mod_mod_divide by (exists (2 ^ (w - k)); lia).
    symmetry. apply (Z.mod_unique_pos _ _ (- q)); lia. }
  rewrite Hnx.
  destruct (Z.eq_dec x 0) as [->|Hx0].
  - assert (Hq0 : q = 0) by (subst q; apply Z.div_small; lia).
    assert (Hn0 : negw w 0 = 0) by (unfold negw, wrap; apply Z.mod_0_l; lia).
    rewrite Hn0, Hq0.
    replace (0 - (2 ^ k - 1 - r)) with 0 by lia.
    unfold negw, wrap. f_equal. lia.
  - assert (Hneg : negw w x = 2 ^ w - x).
    { unfold negw, wrap. symmetry. apply (Z.mod_unique_pos _ _ (-1)); lia. }
    rewrite Hneg. unfold negw, wrap.
    replace (- (2 ^ w - x - (2 ^ k - 1 - r))) with (2 ^ k * q + (-1) * 2 ^ w) by lia.
    apply Z.mod_add. lia.
Qed.

Lemma LCTF_ALIGN_OFFS_closed (x : Z) :
  0 <= x < 2 ^ w ->
  LCTF_ALIGN_OFFS w x (2 ^ k) = (2 ^ k * ((x + 2 ^ k - 1) / 2 ^ k)) mod 2 ^ w.
Proof.
  intros Hx. unfold LCTF_ALIGN_OFFS.
  rewrite notw_pow2_pred.
  pose proof pow2_pos_k as HA. pose proof pow2_lt_kw as HAM.
  pose proof pow2_split_kw as HS.
  assert (HN : 0 < 2 ^ (w - k)) by (apply Z.pow_pos_nonneg; lia).
  unfold wrap at 2. rewrite (Z.mod_small (2 ^ k - 1)) by lia.
  assert (Hz : 0 <= wrap w (x + (2 ^ k - 1)) < 2 ^ w)
    by (unfold wrap; apply Z.mod_pos_bound; lia).
  rewrite land_high_mask by exact Hz.
  unfold wrap.
  replace (x + (2 ^ k - 1)) with (x + 2 ^ k - 1) by lia.
  set (t := x + 2 ^ k - 1).
  assert (Hz1 : t mod 2 ^ w = t mod 2 ^ k + 2 ^ k * ((t / 2 ^ k) mod 2 ^ (w - k))).
  { rewrite HS. apply Z.rem_mul_r; lia. }
  pose proof (Z.mod_pos_bound t (2 ^ k) HA) as Hr.
  assert (Hz2 : (t mod 2 ^ w) mod 2 ^ k = t mod 2 ^ k).
  { apply Z.mod_mod_divide. exists (2 ^ (w - k)). lia. }
  rewrite Hz2, Hz1.
  rewrite HS at 1. rewrite Z.mul_mod_distr_l by lia. lia.
Qed.
End Masks.

(** C10.  On [w]-bit operands, for an alignment [a = 2^k] with [0 <= k < w]
    and every [x] in range, [P2ROUNDUP] and [LCTF_ALIGN_OFFS] return the same
    value; when [x + a - 1] does not overflow, that value is a multiple of
    [a], is at least [x], and is below every other multiple of [a] that is
    at least [x]. *)
Theorem align_macros_agree (w k x a : Z) :
  0 <= k < w -> a = 2 ^ k -> 0 <= x < 2 ^ w ->
  P2ROUNDUP w x a = LCTF_ALIGN_OFFS w x a /\
  (x + a - 1 < 2 ^ w ->
   (a | LCTF_ALIGN_OFFS w x a) /\ x <= LCTF_ALIGN_OFFS w x a /\
   forall m, (a | m) -> x <= m -> LCTF_ALIGN_OFFS w x a <= m).
Proof.
  intros Hk -> Hx. split.
  - rewrite P2ROUNDUP_closed, LCTF_ALIGN_OFFS_closed by assumption. reflexivity.
  - intros Hov. rewrite LCTF_ALIGN_OFFS_closed by assumption.
    pose proof (pow2_pos_k w k Hk) as HA.
    pose proof (Z.div_mod (x + 2 ^ k - 1) (2 ^ k) ltac:(lia)) as Hqr.
    pose proof (Z.mod_pos_bound (x + 2 ^ k - 1) (2 ^ k) HA) as Hr.
    set (q := (x + 2 ^ k - 1) / 2 ^ k) in *.
    assert (Hq : 0 <= q) by (apply Z.div_pos; lia).
    rewrite Z.mod_small by nia.
    split; [exists q; lia|]. split; [lia|].
    intros m [c ->] Hm.
    assert (q <= c); [|nia].
    destruct (Z_le_gt_dec q c); [assumption|]. exfalso. nia.
Qed.

Lemma align_macros_agree_witness :
  P2ROUNDUP 32 0x1234 0x100 = LCTF_ALIGN_OFFS 32 0x1234 0x100 /\
  LCTF_ALIGN_OFFS 32 0x1234 0x100 = 0x1300.
Proof.
  split.
  - apply (align_macros_agree 32 8 0x1234 0x100); [lia | reflexivity | lia].
  - reflexivity.
Defined.

(** The two examples of the header's comment on [P2ROUNDUP]. *)
Example P2ROUNDUP_header_examples :
  P2ROUNDUP 32 0x1234 0x100 = 0x1300 /\ P2ROUNDUP 32 0x5600 0x100 = 0x5600 /\
  P2ROUNDUP 64 0x1234 0x100 = 0x1300 /\ P2ROUNDUP 64 0x5600 0x100 = 0x5600.
Proof. repeat split; reflexivity. Qed.

(** ** The identifier namespace *)

Lemma parmax_succ_pow2 (fp : ctf_file) (k : Z) :
  0 <= k -> 0 <= ctf_parmax fp < 2 ^ 32 -> u32 (ctf_parmax fp + 1) = 2 ^ k ->
  ctf_parmax fp + 1 = 2 ^ k.
Proof.
  intros Hk Hb Hu. unfold u32, wrap in Hu.
  assert (0 < 2 ^ k) by (apply Z.pow_pos_nonneg; lia).
  destruct (Z.eq_dec (ctf_parmax fp + 1) (2 ^ 32)) as [E|E].
  - rewrite E, Z.mod_same in Hu by lia. lia.
  - rewrite Z.mod_small in Hu by lia. exact Hu.
Qed.

Lemma land_low_mask (x k : Z) :
  0 <= k -> 0 <= x < 2 ^ k -> Z.land x (2 ^ k - 1) = x.
Proof.
  intros Hk Hx.
  replace (2 ^ k - 1) with (Z.ones k) by (rewrite Z.ones_equiv; lia).
  rewrite Z.land_ones by lia. apply Z.mod_small. lia.
Qed.

Lemma lor_high_bit (r k : Z) :
  0 <= k -> 0 <= r < 2 ^ k -> Z.lor r (2 ^ k) = r + 2 ^ k.
Proof.
  intros Hk Hr.
  assert (Hl : Z.land r (2 ^ k) = 0).
  { apply Z.bits_inj'. intros n Hn.
    rewrite Z.land_spec, Z.bits_0, Z.pow2_bits_eqb by lia.
    destruct (k =? n) eqn:E; [|apply andb_false_r].
    apply Z.eqb_eq in E. subst n. rewrite andb_true_r.
    rewrite <- (Z.mod_small r (2 ^ k)) by lia.
    apply Z.mod_pow2_bits_high. lia. }
  pose proof (Z.add_lor_land r (2 ^ k)). lia.
Qed.

Lemma land_drop_high_bit (x k : Z) :
  0 <= k -> 2 ^ k <= x < 2 * 2 ^ k -> Z.land x (2 ^ k - 1) = x - 2 ^ k.
Proof.
  intros Hk Hx.
  replace (2 ^ k - 1) with (Z.ones k) by (rewrite Z.ones_equiv; lia).
  rewrite Z.land_ones by lia.
  symmetry. apply (Z.mod_unique_pos _ _ 1); lia.
Qed.

(** C1 (as amended).  In a container whose boundary [b] has [b+1] (as the
    macro computes it, in [uint32_t]) a power of two, every identifier [x]
    with [0 <= x <= 2*b+1] is recovered by decoding it to a local index and
    encoding the index again with the child flag of [x]. *)
Theorem type_index_roundtrip (fp : ctf_file) (k x : Z) :
  0 <= k -> 0 <= ctf_parmax fp < 2 ^ 32 ->
  u32 (ctf_parmax fp + 1) = 2 ^ k ->
  0 <= x <= 2 * ctf_parmax fp + 1 ->
  LCTF_INDEX_TO_TYPE fp (LCTF_TYPE_TO_INDEX fp x) (LCTF_TYPE_ISCHILD fp x) = x.
Proof.
  intros Hk Hb Hu Hx.
  pose proof (parmax_succ_pow2 fp k Hk Hb Hu) as Hp.
  unfold LCTF_INDEX_TO_TYPE, LCTF_TYPE_TO_INDEX, LCTF_TYPE_ISCHILD.
  rewrite Hu. replace (ctf_parmax fp) with (2 ^ k - 1) in * by lia.
  destruct (x >? 2 ^ k - 1) eqn:E.
  - apply Z.gtb_lt in E.
    rewrite land_drop_high_bit by lia.
    rewrite lor_high_bit by lia. lia.
  - assert (x <= 2 ^ k - 1) by (rewrite Z.gtb_ltb in E; apply Z.ltb_ge in E; lia).
    apply land_low_mask; lia.
Qed.

Lemma type_index_roundtrip_witness :
  LCTF_INDEX_TO_TYPE fp_boundary7 (LCTF_TYPE_TO_INDEX fp_boundary7 13)
    (LCTF_TYPE_ISCHILD fp_boundary7 13) = 13.
Proof.
  apply (type_index_roundtrip fp_boundary7 3 13);
    [lia | simpl; lia | reflexivity | simpl; lia].
Defined.

(** C1 (as stated) fails: with boundary 0 the identifier 2 decodes to index
    0 and is encoded back as 1; with boundary 7 the identifier 16 decodes
    to index 0 and is encoded back as 8. *)
Lemma type_index_roundtrip_fails :
  (u32 (ctf_parmax fp_boundary0 + 1) = 2 ^ 0 /\
   LCTF_TYPE_ISCHILD fp_boundary0 2 = true /\
   LCTF_INDEX_TO_TYPE fp_boundary0
     (LCTF_TYPE_TO_INDEX fp_boundary0 2)
     (LCTF_TYPE_ISCHILD fp_boundary0 2) <> 2) /\
  (u32 (ctf_parmax fp_boundary7 + 1) = 2 ^ 3 /\
   LCTF_TYPE_ISCHILD fp_boundary7 16 = true /\
   LCTF_INDEX_TO_TYPE fp_boundary7 (LCTF_TYPE_TO_INDEX fp_boundary7 16)
     (LCTF_TYPE_ISCHILD fp_boundary7 16) <> 16).
Proof. repeat split; discriminate. Qed.

(** C5 (as amended).  With boundary 0 every identifier from 1 on is on the
    child side of the boundary, none is a parent identifier; the mask
    decoding sends every identifier to index 0, and encoding that index
    again gives the identifier back only for identifier 1. *)
Theorem no_parent_ids_local (fp : ctf_file) (id : Z) :
  ctf_parmax fp = 0 -> 0 < id ->
  LCTF_TYPE_ISPARENT fp id = false /\
  LCTF_TYPE_ISCHILD fp id = true /\
  LCTF_TYPE_TO_INDEX fp id = 0 /\
  (LCTF_INDEX_TO_TYPE fp (LCTF_TYPE_TO_INDEX fp id) true = id <-> id = 1).
Proof.
  intros Hp Hid.
  unfold LCTF_TYPE_ISPARENT, LCTF_TYPE_ISCHILD, LCTF_TYPE_TO_INDEX,
    LCTF_INDEX_TO_TYPE.
  rewrite Hp, Z.land_0_r. repeat split.
  - apply Z.leb_gt. lia.
  - apply Z.gtb_lt. lia.
  - intros <-. reflexivity.
  - intros ->. reflexivity.
Qed.

Lemma no_parent_ids_local_witness :
  LCTF_TYPE_ISPARENT fp_boundary0 5 = false /\
  LCTF_TYPE_ISCHILD fp_boundary0 5 = true /\
  LCTF_TYPE_TO_INDEX fp_boundary0 5 = 0 /\
  (LCTF_INDEX_TO_TYPE fp_boundary0
     (LCTF_TYPE_TO_INDEX fp_boundary0 5) true = 5 <-> 5 = 1).
Proof.
  apply (no_parent_ids_local fp_boundary0 5); [reflexivity | lia].
Defined.

(** C5 (as stated) fails: with boundary 0 the identifiers 1 and 2 are both
    local and decode to the same index, so the decoding does not tell the
    two definitions apart. *)
Lemma no_parent_decode_collides :
  ctf_parmax fp_boundary0 = 0 /\
  LCTF_TYPE_ISPARENT fp_boundary0 1 = false /\
  LCTF_TYPE_ISPARENT fp_boundary0 2 = false /\
  LCTF_TYPE_TO_INDEX fp_boundary0 1 =
  LCTF_TYPE_TO_INDEX fp_boundary0 2 /\
  1 <> 2.
Proof. repeat split; discriminate. Qed.

(** C6 (as amended).  For a boundary [parmax] with [parmax+1] a power of
    two that [uint32_t] holds (the value the macro computes for it) and
    local indices [i], [j] between 0 and [parmax], the
    child encoding of [i] differs from the parent encoding of [j]: the
    former lies above the boundary and is classified as a child identifier,
    the latter lies at or below it and is classified as a parent
    identifier. *)
Theorem parent_child_disjoint (fp : ctf_file) (k i j : Z) :
  0 <= k -> 0 <= ctf_parmax fp < 2 ^ 32 ->
  u32 (ctf_parmax fp + 1) = 2 ^ k ->
  0 <= i <= ctf_parmax fp -> 0 <= j <= ctf_parmax fp ->
  LCTF_INDEX_TO_TYPE fp i true <> LCTF_INDEX_TO_TYPE fp j false /\
  LCTF_INDEX_TO_TYPE fp i true = Z.lor i (ctf_parmax fp + 1) /\
  ctf_parmax fp < LCTF_INDEX_TO_TYPE fp i true /\
  LCTF_TYPE_ISCHILD fp (LCTF_INDEX_TO_TYPE fp i true) = true /\
  LCTF_INDEX_TO_TYPE fp j false <= ctf_parmax fp /\
  LCTF_TYPE_ISPARENT fp (LCTF_INDEX_TO_TYPE fp j false) = true.
Proof.
  intros Hk Hb Hu Hi Hj.
  pose proof (parmax_succ_pow2 fp k Hk Hb Hu) as Hp.
  unfold LCTF_INDEX_TO_TYPE, LCTF_TYPE_ISCHILD, LCTF_TYPE_ISPARENT.
  rewrite Hu, Hp, lor_high_bit by lia.
  assert (0 < 2 ^ k) by (apply Z.pow_pos_nonneg; lia).
  repeat split; lia.
Qed.

Lemma parent_child_disjoint_witness :
  LCTF_INDEX_TO_TYPE fp_boundary7 5 true <> LCTF_INDEX_TO_TYPE fp_boundary7 5 false /\
  LCTF_INDEX_TO_TYPE fp_boundary7 5 true = 13.
Proof.
  split.
  - apply (parent_child_disjoint fp_boundary7 3 5 5);
      [lia | simpl; lia | reflexivity | simpl; lia | simpl; lia].
  - reflexivity.
Defined.

(** C6 (as stated) fails at the largest boundary: [0xffffffff + 1] is the
    power of two [2^32], which [uint32_t] does not hold.  The macro
    computes 0 for it, so the child encoding of an index is the index
    itself: it equals the parent encoding of the same index and is
    classified as a parent identifier. *)
Lemma parent_child_disjoint_fails :
  ctf_parmax fp_boundary_top + 1 = 2 ^ 32 /\
  0 <= 5 <= ctf_parmax fp_boundary_top /\
  LCTF_INDEX_TO_TYPE fp_boundary_top 5 true =
  LCTF_INDEX_TO_TYPE fp_boundary_top 5 false /\
  LCTF_INDEX_TO_TYPE fp_boundary_top 5 true = 5 /\
  LCTF_TYPE_ISCHILD fp_boundary_top (LCTF_INDEX_TO_TYPE fp_boundary_top 5 true)
    = false.
Proof. repeat split; vm_compute; congruence. Qed.

(** ** Indices derived from a list *)

Section IndexFacts.
Context {A K : Type} `{Countable K}.
Variable key : A -> option K.

Lemma index_of_snoc (l : list A) (x : A) :
  index_of key (l ++ [x]) = index_insert key (index_of key l) x.
Proof. unfold index_of. apply foldl_snoc. Qed.

Lemma newest_snoc (l : list A) (x : A) (k : K) :
  newest key k (l ++ [x]) =
  if decide (key x = Some k) then Some x else newest key k l.
Proof.
  unfold newest. rewrite filter_app, filter_cons, filter_nil.
  case_decide.
  - apply last_snoc.
  - rewrite app_nil_r. reflexivity.
Qed.

(** Looking a key up in the index gives the newest record entered under it. *)
Lemma index_of_lookup (l : list A) (k : K) :
  index_of key l !! k = newest key k l.
Proof.
  induction l as [|x l IH] using rev_ind.
  - reflexivity.
  - rewrite index_of_snoc, newest_snoc. unfold index_insert.
    destruct (key x) as [k'|] eqn:E.
    + case_decide as Hk.
      * inversion Hk. subst k'. apply lookup_insert_eq.
      * rewrite lookup_insert_ne by congruence. exact IH.
    + case_decide; [congruence|exact IH].
Qed.

Lemma newest_Some (l : list A) (k : K) (x : A) :
  newest key k l = Some x -> x ∈ l /\ key x = Some k.
Proof.
  unfold newest. intros Hl. apply last_Some_elem_of in Hl.
  apply list_elem_of_filter in Hl. tauto.
Qed.

Lemma newest_None (l : list A) (k : K) :
  newest key k l = None <-> forall x, x ∈ l -> key x <> Some k.
Proof.
  unfold newest. rewrite last_None. split.
  - intros Hf x Hx Hk.
    apply (filter_nil_not_elem_of (fun x => key x = Some k) l x Hf Hk Hx).
  - intros Hn. induction l as [|y l IH]; [reflexivity|].
    rewrite filter_cons. case_decide as Hy.
    + exfalso. apply (Hn y); [left|exact Hy].
    + apply IH. intros x Hx. apply Hn. right. exact Hx.
Qed.

(** The record found is the last one of the list with that key. *)
Lemma newest_split (l1 l2 : list A) (x : A) (k : K) :
  key x = Some k -> (forall y, y ∈ l2 -> key y <> Some k) ->
  newest key k (l1 ++ x :: l2) = Some x.
Proof.
  intros Hx Hl2. unfold newest.
  rewrite filter_app, filter_cons. case_decide; [|contradiction].
  apply newest_None in Hl2. unfold newest in Hl2. apply last_None in Hl2.
  rewrite Hl2. apply last_snoc.
Qed.

Lemma index_of_values (l : list A) (k : K) (x : A) :
  index_of key l !! k = Some x -> x ∈ l /\ key x = Some k.
Proof. rewrite index_of_lookup. apply newest_Some. Qed.
End IndexFacts.

(** With distinct identifiers, the id index finds every definition of the
    list under its own identifier. *)
Lemma dthash_lookup_elem (l : list ctf_dtdef_t) (d : ctf_dtdef_t) :
  NoDup (dtd_type <$> l) -> d ∈ l ->
  index_of dtd_hkey l !! dtd_type d = Some d.
Proof.
  intros Hnd Hd. rewrite index_of_lookup.
  apply list_elem_of_split in Hd as (l1 & l2 & ->).
  apply newest_split; [reflexivity|].
  intros y Hy Hk. inversion Hk as [Hty].
  rewrite fmap_app, fmap_cons in Hnd.
  apply NoDup_app in Hnd as (_ & _ & Hnd).
  apply NoDup_cons in Hnd as [Hnotin _].
  apply Hnotin. rewrite <- Hty. apply list_elem_of_fmap_2. exact Hy.
Qed.

Lemma dthash_lookup_absent (l : list ctf_dtdef_t) (id : Z) :
  id ∉ (dtd_type <$> l) -> index_of dtd_hkey l !! id = None.
Proof.
  intros Hn. rewrite index_of_lookup. apply newest_None.
  intros x Hx Hk. inversion Hk. subst id.
  apply Hn. apply list_elem_of_fmap_2. exact Hx.
Qed.


(** The value of an encoded index when the child bit is a power of two. *)
Lemma index_to_type_value (fp : ctf_file) (k i : Z) (child : bool) :
  0 <= k -> 0 <= ctf_parmax fp < 2 ^ 32 ->
  u32 (ctf_parmax fp + 1) = 2 ^ k ->
  0 <= i <= ctf_parmax fp ->
  LCTF_INDEX_TO_TYPE fp i child = if child then i + 2 ^ k else i.
Proof.
  intros Hk Hb Hu Hi.
  pose proof (parmax_succ_pow2 fp k Hk Hb Hu) as Hp.
  unfold LCTF_INDEX_TO_TYPE. rewrite Hu.
  destruct child; [|reflexivity]. apply lor_high_bit; lia.
Qed.

(** [x & p] lies between 0 and [p] for every [x] when [p] is not negative. *)
Lemma land_le_r (x p : Z) : 0 <= p -> 0 <= Z.land x p <= p.
Proof.
  intros Hp. split; [apply Z.land_nonneg; right; exact Hp|].
  pose proof (Z.add_lor_land (Z.ldiff p x) (Z.land p x)) as Hs.
  rewrite Z.lor_ldiff_and in Hs.
  assert (Hz : Z.land (Z.ldiff p x) (Z.land p x) = 0).
  { apply Z.bits_inj'. intros n Hn.
    rewrite !Z.land_spec, Z.ldiff_spec, Z.bits_0.
    destruct (Z.testbit p n), (Z.testbit x n); reflexivity. }
  assert (Hd : 0 <= Z.ldiff p x) by (apply Z.ldiff_nonneg; left; exact Hp).
  rewrite (Z.land_comm x p). lia.
Qed.


Section ListUnlink.
Context {A : Type} `{EqDecision A}.

(** Filtering on the elements of a list only. *)
Lemma filter_ext_elem (P Q : A -> Prop) `{forall x, Decision (P x)}
    `{forall x, Decision (Q x)} (l : list A) :
  (forall x, x ∈ l -> (P x <-> Q x)) -> filter P l = filter Q l.
Proof.
  induction l as [|y l IH]; intros Hpq; [reflexivity|].
  rewrite !filter_cons.
  assert (Hy : P y <-> Q y) by (apply Hpq; left).
  assert (Hl : filter P l = filter Q l)
    by (apply IH; intros x Hx; apply Hpq; right; exact Hx).
  rewrite Hl. destruct (decide (P y)), (decide (Q y)); tauto.
Qed.

(** Unlinking, one after the other, the records of [todo] that are not
    to be kept leaves the records that are kept or are not in [todo]. *)
Lemma unlink_step (keep : A -> bool) (l todo : list A) (d : A) :
  filter (fun x => keep x = true \/ x ∉ todo)
         (if keep d then l else filter (fun y => y <> d) l) =
  filter (fun x => keep x = true \/ x ∉ d :: todo) l.
Proof.
  destruct (keep d) eqn:Hd.
  - apply list_filter_iff. intros x. rewrite not_elem_of_cons.
    destruct (decide (x = d)) as [->|Hx]; tauto.
  - rewrite list_filter_filter. apply list_filter_iff. intros x.
    rewrite not_elem_of_cons.
    destruct (decide (x = d)) as [->|Hx]; [|tauto].
    split; [tauto|]. intros [Hk|[Hk _]]; [congruence|contradiction].
Qed.

Lemma filter_keep_or_absent (keep : A -> bool) (l : list A) :
  filter (fun x => keep x = true \/ x ∉ l) l = filter (fun x => keep x = true) l.
Proof. apply filter_ext_elem. intros x Hx. tauto. Qed.

Lemma filter_keep_or_nil (keep : A -> bool) (l : list A) :
  filter (fun x => keep x = true \/ x ∉ []) l = l.
Proof.
  induction l as [|y l IH]; [reflexivity|].
  rewrite filter_cons. destruct (decide _) as [_|Hn].
  - rewrite IH. reflexivity.
  - exfalso. apply Hn. right. apply not_elem_of_nil.
Qed.
Lemma filter_all_elem (P : A -> Prop) `{forall x, Decision (P x)} (l : list A) :
  Forall P l -> filter P l = l.
Proof.
  induction 1 as [|x l Hx _ IH]; [reflexivity|].
  rewrite filter_cons, IH. destruct (decide (P x)); [reflexivity|contradiction].
Qed.

Lemma filter_none_elem (P : A -> Prop) `{forall x, Decision (P x)} (l : list A) :
  Forall (fun x => ~ P x) l -> filter P l = [].
Proof.
  induction 1 as [|x l Hx _ IH]; [reflexivity|].
  rewrite filter_cons, IH. destruct (decide (P x)); [contradiction|reflexivity].
Qed.
End ListUnlink.

Section IndexRemoval.
Context {A K : Type} `{Countable K} `{EqDecision A}.
Variable key : A -> option K.

(** Unlinking a record does not change which record is the newest under
    the keys that are not its own. *)
Lemma newest_unlink_ne (l : list A) (x : A) (k : K) :
  key x <> Some k ->
  newest key k (filter (fun y => y <> x) l) = newest key k l.
Proof.
  intros Hk. unfold newest. rewrite list_filter_filter. f_equal.
  apply list_filter_iff. intros y. split; [tauto|].
  intros Hy. split; [exact Hy|]. intros ->. contradiction.
Qed.

(** Taking a record out of the index of a list gives the index of the
    list without the record. *)
Lemma index_remove_unlink (l : list A) (x : A) :
  index_remove key (filter (fun y => y <> x) l) (index_of key l) x =
  index_of key (filter (fun y => y <> x) l).
Proof.
  apply map_eq. intros k. rewrite index_of_lookup. unfold index_remove.
  destruct (key x) as [kx|] eqn:Ex.
  - destruct (decide (k = kx)) as [->|Hne].
    + destruct (newest key kx (filter (fun y => y <> x) l)) as [y|] eqn:En.
      * apply lookup_insert_eq.
      * apply lookup_delete_eq.
    + assert (Hk : key x <> Some k) by congruence.
      rewrite (newest_unlink_ne l x k Hk).
      destruct (newest key kx (filter (fun y => y <> x) l)).
      * rewrite lookup_insert_ne by congruence. apply index_of_lookup.
      * rewrite lookup_delete_ne by congruence. apply index_of_lookup.
  - rewrite newest_unlink_ne by congruence. apply index_of_lookup.
Qed.

End IndexRemoval.

(** ** The views of the overlay *)

(** Writing the overlay fields twice keeps the last values; writing back
    the values read changes nothing. *)
Lemma ctf_set_dtdefs_twice h n l h' n' l' (fp : ctf_file) :
  ctf_set_dtdefs h n l (ctf_set_dtdefs h' n' l' fp) = ctf_set_dtdefs h n l fp.
Proof. destruct fp. reflexivity. Qed.

Lemma ctf_set_dvdefs_twice h l h' l' (fp : ctf_file) :
  ctf_set_dvdefs h l (ctf_set_dvdefs h' l' fp) = ctf_set_dvdefs h l fp.
Proof. destruct fp. reflexivity. Qed.

Lemma ctf_set_dtdefs_same (fp : ctf_file) :
  ctf_set_dtdefs (ctf_dthash fp) (ctf_dtbyname fp) (ctf_dtdefs fp) fp = fp.
Proof. destruct fp. reflexivity. Qed.

Lemma ctf_set_dvdefs_same (fp : ctf_file) :
  ctf_set_dvdefs (ctf_dvhash fp) (ctf_dvdefs fp) fp = fp.
Proof. destruct fp. reflexivity. Qed.

Lemma ctf_set_dtdefs_fields h n l (fp : ctf_file) :
  ctf_dthash (ctf_set_dtdefs h n l fp) = h /\
  ctf_dtbyname (ctf_set_dtdefs h n l fp) = n /\
  ctf_dtdefs (ctf_set_dtdefs h n l fp) = l /\
  ctf_dvhash (ctf_set_dtdefs h n l fp) = ctf_dvhash fp /\
  ctf_dvdefs (ctf_set_dtdefs h n l fp) = ctf_dvdefs fp.
Proof. destruct fp. repeat split. Qed.

Lemma ctf_set_dvdefs_fields h l (fp : ctf_file) :
  ctf_dvhash (ctf_set_dvdefs h l fp) = h /\
  ctf_dvdefs (ctf_set_dvdefs h l fp) = l /\
  ctf_dthash (ctf_set_dvdefs h l fp) = ctf_dthash fp /\
  ctf_dtbyname (ctf_set_dvdefs h l fp) = ctf_dtbyname fp /\
  ctf_dtdefs (ctf_set_dvdefs h l fp) = ctf_dtdefs fp.
Proof. destruct fp. repeat split. Qed.

(** Distinct identifiers tell the definitions of a list apart. *)
Lemma dtd_type_inj_elem (l : list ctf_dtdef_t) (x y : ctf_dtdef_t) :
  NoDup (dtd_type <$> l) -> x ∈ l -> y ∈ l -> dtd_type x = dtd_type y -> x = y.
Proof.
  intros Hnd Hx Hy E.
  apply list_elem_of_split in Hx as (l1 & l2 & ->).
  rewrite fmap_app, fmap_cons in Hnd.
  apply NoDup_app in Hnd as (_ & H1 & Hnd).
  apply NoDup_cons in Hnd as [H2 _].
  apply elem_of_app in Hy as [Hy|Hy].
  - exfalso. apply (H1 (dtd_type x)).
    + rewrite E. apply list_elem_of_fmap_2. exact Hy.
    + left.
  - apply elem_of_cons in Hy as [->|Hy]; [reflexivity|].
    exfalso. apply H2. rewrite E. apply list_elem_of_fmap_2. exact Hy.
Qed.

(** The id index after an identifier has left it. *)
Lemma dthash_unlink (l0 l : list ctf_dtdef_t) (d : ctf_dtdef_t) :
  NoDup (dtd_type <$> l0) -> d ∈ l0 -> (forall x, x ∈ l -> x ∈ l0) ->
  delete (dtd_type d) (index_of dtd_hkey l) =
  index_of dtd_hkey (filter (fun y => y <> d) l).
Proof.
  intros Hnd Hd Hsub. apply map_eq. intros k. rewrite index_of_lookup.
  destruct (decide (k = dtd_type d)) as [->|Hne].
  - rewrite lookup_delete_eq. symmetry. apply newest_None.
    intros x Hx Hk. apply list_elem_of_filter in Hx as [Hxd Hx].
    apply Hxd. inversion Hk as [E].
    apply (dtd_type_inj_elem l0); auto.
  - rewrite lookup_delete_ne by congruence. rewrite index_of_lookup.
    symmetry. apply newest_unlink_ne. unfold dtd_hkey. congruence.
Qed.

(** Deleting, in list order, the definitions of [todo] that are not kept:
    the list keeps the others and the two indices are those of the list
    that remains. *)
Lemma ctf_dtd_delete_fold (keep : ctf_dtdef_t -> bool)
    (l0 todo : list ctf_dtdef_t) (fp : ctf_file) :
  NoDup (dtd_type <$> l0) ->
  (forall d, d ∈ todo -> d ∈ l0) ->
  (forall d, d ∈ ctf_dtdefs fp -> d ∈ l0) ->
  ctf_dthash fp = index_of dtd_hkey (ctf_dtdefs fp) ->
  ctf_dtbyname fp = index_of dtd_key (ctf_dtdefs fp) ->
  foldl (fun fp' d => if keep d then fp' else ctf_dtd_delete fp' d) fp todo =
  let rest := filter (fun x => keep x = true \/ x ∉ todo) (ctf_dtdefs fp) in
  ctf_set_dtdefs (index_of dtd_hkey rest) (index_of dtd_key rest) rest fp.
Proof.
  intros Hnd. revert fp.
  induction todo as [|d todo IH]; intros fp Htodo Hsub Hh Hn; cbn [foldl]; cbv zeta.
  - rewrite filter_keep_or_nil, <- Hh, <- Hn. symmetry.
    apply ctf_set_dtdefs_same.
  - assert (Ht : forall x, x ∈ todo -> x ∈ l0)
      by (intros x Hx; apply Htodo; right; exact Hx).
    rewrite <- (unlink_step keep (ctf_dtdefs fp) todo d).
    destruct (keep d) eqn:Hd.
    + apply IH; assumption.
    + destruct (ctf_set_dtdefs_fields
                  (delete (dtd_type d) (ctf_dthash fp))
                  (index_remove dtd_key (filter (fun y => y <> d) (ctf_dtdefs fp))
                     (ctf_dtbyname fp) d)
                  (filter (fun y => y <> d) (ctf_dtdefs fp)) fp)
        as (F1 & F2 & F3 & _).
      fold (ctf_dtd_delete fp d) in F1, F2, F3.
      rewrite IH.
      * cbv zeta. rewrite F3. unfold ctf_dtd_delete.
        apply ctf_set_dtdefs_twice.
      * exact Ht.
      * rewrite F3. intros x Hx. apply list_elem_of_filter in Hx as [_ Hx].
        apply Hsub. exact Hx.
      * rewrite F1, F3, Hh. apply (dthash_unlink l0); auto.
        apply Htodo. left.
      * rewrite F2, F3, Hn. apply index_remove_unlink.
Qed.

(** The same for the variables. *)
Lemma ctf_dvd_delete_fold (keep : ctf_dvdef_t -> bool)
    (todo : list ctf_dvdef_t) (fp : ctf_file) :
  ctf_dvhash fp = index_of dvd_key (ctf_dvdefs fp) ->
  foldl (fun fp' d => if keep d then fp' else ctf_dvd_delete fp' d) fp todo =
  let rest := filter (fun x => keep x = true \/ x ∉ todo) (ctf_dvdefs fp) in
  ctf_set_dvdefs (index_of dvd_key rest) rest fp.
Proof.
  revert fp. induction todo as [|d todo IH]; intros fp Hh; cbn [foldl]; cbv zeta.
  - rewrite filter_keep_or_nil, <- Hh. symmetry. apply ctf_set_dvdefs_same.
  - rewrite <- (unlink_step keep (ctf_dvdefs fp) todo d).
    destruct (keep d) eqn:Hd.
    + apply IH; assumption.
    + destruct (ctf_set_dvdefs_fields
                  (index_remove dvd_key (filter (fun y => y <> d) (ctf_dvdefs fp))
                     (ctf_dvhash fp) d)
                  (filter (fun y => y <> d) (ctf_dvdefs fp)) fp)
        as (F1 & F2 & _).
      fold (ctf_dvd_delete fp d) in F1, F2.
      rewrite IH.
      * cbv zeta. rewrite F2. unfold ctf_dvd_delete.
        apply ctf_set_dvdefs_twice.
      * rewrite F1, F2, Hh. apply index_remove_unlink.
Qed.

(** ** Identifiers of the container's own side *)

(** Outside a child the identifier is the index; in a well-bounded child
    it is the index plus the child bit. *)
Lemma ctf_index_to_type_value (fp : ctf_file) (i : Z) :
  boundary_ok fp -> 0 <= i -> (ctf_is_child fp = true -> i <= ctf_parmax fp) ->
  exists c, 0 <= c /\ ctf_index_to_type fp i = i + c /\
            forall j, 0 <= j -> (ctf_is_child fp = true -> j <= ctf_parmax fp) ->
                      ctf_index_to_type fp j = j + c.
Proof.
  intros Hb Hi Hc. unfold ctf_index_to_type.
  destruct (ctf_is_child fp) eqn:E.
  - destruct (Hb E) as (k & Hk & Hp & Hu & _).
    specialize (Hc eq_refl).
    exists (2 ^ k). split; [apply Z.pow_nonneg; lia|]. split.
    + apply (index_to_type_value fp k i true); auto with zarith.
    + intros j Hj Hjc. specialize (Hjc eq_refl).
      apply (index_to_type_value fp k j true); auto with zarith.
  - exists 0. simpl. split; [lia|]. split; [lia|]. intros j _ _. lia.
Qed.

(** The encoding is increasing on the indices that the container can
    assign. *)
Lemma ctf_index_to_type_mono (fp : ctf_file) (i j : Z) :
  boundary_ok fp -> 0 <= i -> i <= j ->
  (ctf_is_child fp = true -> j <= ctf_parmax fp) ->
  ctf_index_to_type fp j - ctf_index_to_type fp i = j - i.
Proof.
  intros Hb Hi Hij Hc.
  destruct (ctf_index_to_type_value fp j Hb) as (c & _ & Ej & Ec); [lia|exact Hc|].
  rewrite Ej, (Ec i); [lia|lia|]. intros E. specialize (Hc E). lia.
Qed.

(** ** The frame of a container

    The fields that the overlay operations leave alone. *)

Lemma ctf_with_overlay_fields (fp fp' : ctf_file) :
  ctf_with_overlay fp fp' = fp ->
  ctf_parmax fp = ctf_parmax fp' /\ ctf_flags fp = ctf_flags fp' /\
  ctf_dtoldid fp = ctf_dtoldid fp' /\ ctf_snapshot_lu fp = ctf_snapshot_lu fp' /\
  ctf_parent fp = ctf_parent fp' /\
  ctf_structs fp = ctf_structs fp' /\ ctf_unions fp = ctf_unions fp' /\
  ctf_enums fp = ctf_enums fp' /\ ctf_names fp = ctf_names fp'.
Proof.
  destruct fp, fp'. unfold ctf_with_overlay. simpl.
  intros [=]. subst. repeat split.
Qed.

Lemma ctf_with_overlay_trans (a b c : ctf_file) :
  ctf_with_overlay b a = b -> ctf_with_overlay c b = c ->
  ctf_with_overlay c a = c.
Proof.
  destruct a, b, c. unfold ctf_with_overlay. simpl.
  intros [=] [=]. subst. reflexivity.
Qed.

Lemma ctf_with_overlay_back (a b : ctf_file) :
  ctf_with_overlay b a = b -> ctf_with_overlay a b = a.
Proof.
  destruct a, b. unfold ctf_with_overlay. simpl.
  intros [=]. subst. reflexivity.
Qed.

Lemma ctf_with_overlay_refl (a : ctf_file) : ctf_with_overlay a a = a.
Proof. destruct a. reflexivity. Qed.

(** The encoding and the boundary depend on the frame only. *)
Lemma ctf_index_to_type_frame (fp fp' : ctf_file) (i : Z) :
  ctf_parmax fp = ctf_parmax fp' -> ctf_flags fp = ctf_flags fp' ->
  ctf_index_to_type fp i = ctf_index_to_type fp' i.
Proof.
  intros Hp Hf.
  unfold ctf_index_to_type, LCTF_INDEX_TO_TYPE, ctf_is_child.
  rewrite Hp, Hf. reflexivity.
Qed.

Lemma ctf_is_child_frame (fp fp' : ctf_file) :
  ctf_flags fp = ctf_flags fp' -> ctf_is_child fp = ctf_is_child fp'.
Proof. intros Hf. unfold ctf_is_child. rewrite Hf. reflexivity. Qed.

(** ** What the mutations write *)

Lemma ctf_add_type_ok (fp : ctf_file) kind name ref u (fp' : ctf_file) (id : Z) :
  ctf_add_type fp kind name ref u = (fp', Ok id) ->
  payload_ok kind u = true /\
  (ctf_is_child fp = true -> ctf_dtnextid fp <= ctf_parmax fp) /\
  id = ctf_index_to_type fp (ctf_dtnextid fp) /\
  exists dtd,
    dtd_name dtd = name /\ dtd_type dtd = id /\ ctt_kind (dtd_data dtd) = kind /\
    ctf_dtdefs fp' = ctf_dtdefs fp ++ [dtd] /\
    ctf_dthash fp' = <[id := dtd]> (ctf_dthash fp) /\
    ctf_dtbyname fp' = index_insert dtd_key (ctf_dtbyname fp) dtd /\
    ctf_dvdefs fp' = ctf_dvdefs fp /\ ctf_dvhash fp' = ctf_dvhash fp /\
    ctf_dtnextid fp' = ctf_dtnextid fp + 1 /\
    ctf_snapshots fp' = ctf_snapshots fp /\
    ctf_with_overlay fp' fp = fp'.
Proof.
  unfold ctf_add_type.
  destruct (payload_ok kind u) eqn:Hp; simpl; [|discriminate].
  destruct (ctf_is_child fp && (ctf_parmax fp <? ctf_dtnextid fp)) eqn:Hc;
    [discriminate|].
  intros [= <- <-]. split; [reflexivity|]. split.
  { intros E. rewrite E in Hc. simpl in Hc. apply Z.ltb_ge in Hc. exact Hc. }
  split; [reflexivity|].
  exists {| dtd_name := name;
            dtd_type := ctf_index_to_type fp (ctf_dtnextid fp);
            dtd_data := {| ctt_name := 0; ctt_kind := kind; ctt_isroot := true;
                           ctt_vlen := payload_vlen u; ctt_type := ref |};
            dtd_u := u |}.
  split; [reflexivity|]. split; [reflexivity|]. split; [reflexivity|].
  destruct fp. repeat split.
Qed.

Lemma ctf_add_variable_ok (fp : ctf_file) name type (fp' : ctf_file) :
  ctf_add_variable fp name type = (fp', Ok tt) ->
  ctf_dvd_lookup fp name = None /\
  exists dvd,
    dvd_name dvd = name /\ dvd_type dvd = type /\
    dvd_snapshots dvd = ctf_snapshots fp /\
    ctf_dvdefs fp' = ctf_dvdefs fp ++ [dvd] /\
    ctf_dvhash fp' = index_insert dvd_key (ctf_dvhash fp) dvd /\
    ctf_dtdefs fp' = ctf_dtdefs fp /\ ctf_dthash fp' = ctf_dthash fp /\
    ctf_dtbyname fp' = ctf_dtbyname fp /\
    ctf_dtnextid fp' = ctf_dtnextid fp /\
    ctf_snapshots fp' = ctf_snapshots fp /\
    ctf_with_overlay fp' fp = fp'.
Proof.
  unfold ctf_add_variable.
  destruct (ctf_dvd_lookup fp name) eqn:Hl; [discriminate|].
  intros [= <-]. split; [reflexivity|].
  exists {| dvd_name := name; dvd_type := type;
            dvd_snapshots := ctf_snapshots fp |}.
  split; [reflexivity|]. split; [reflexivity|]. split; [reflexivity|].
  destruct fp. repeat split.
Qed.

Lemma ctf_snapshot_ok (fp : ctf_file) :
  ctf_dtdefs (fst (ctf_snapshot fp)) = ctf_dtdefs fp /\
  ctf_dthash (fst (ctf_snapshot fp)) = ctf_dthash fp /\
  ctf_dtbyname (fst (ctf_snapshot fp)) = ctf_dtbyname fp /\
  ctf_dvdefs (fst (ctf_snapshot fp)) = ctf_dvdefs fp /\
  ctf_dvhash (fst (ctf_snapshot fp)) = ctf_dvhash fp /\
  ctf_dtnextid (fst (ctf_snapshot fp)) = ctf_dtnextid fp /\
  ctf_snapshots (fst (ctf_snapshot fp)) = ctf_snapshots fp + 1 /\
  ctf_with_overlay (fst (ctf_snapshot fp)) fp = fst (ctf_snapshot fp).
Proof. destruct fp. repeat split. Qed.

(** ** Well-formed containers are kept well formed *)

Lemma ctf_wf_create (model : ctf_dmodel_t) : ctf_wf (ctf_create model).
Proof.
  unfold ctf_wf, overlay_ok, boundary_ok. simpl.
  repeat split; try constructor; try lia. discriminate.
Qed.

Lemma ctf_wf_snapshot (fp : ctf_file) : ctf_wf fp -> ctf_wf (fst (ctf_snapshot fp)).
Proof.
  intros ((Hh & Hn & Hv & Hnd) & Hid & Hty & Hb & Hlu & Hdv).
  destruct (ctf_snapshot_ok fp) as (E1 & E2 & E3 & E4 & E5 & E6 & E7 & Hfr).
  destruct (ctf_with_overlay_fields _ _ Hfr) as (Fp & Ff & Fo & Fl & _).
  unfold ctf_wf, overlay_ok, boundary_ok.
  rewrite E1, E2, E3, E4, E5, E6, E7, Fo, Fl, Fp, (ctf_is_child_frame _ _ Ff).
  split_and!; try assumption; try lia.
  - eapply Forall_impl; [exact Hty|]. simpl. intros d (i & Hi & Hd).
    exists i. split; [exact Hi|].
    rewrite Hd. symmetry. apply ctf_index_to_type_frame; assumption.
  - eapply Forall_impl; [exact Hdv|]. simpl. intros d Hd. lia.
Qed.

Lemma ctf_wf_add_variable (fp : ctf_file) name type (fp' : ctf_file) :
  ctf_wf fp -> ctf_add_variable fp name type = (fp', Ok tt) -> ctf_wf fp'.
Proof.
  intros ((Hh & Hn & Hv & Hnd) & Hid & Hty & Hb & Hlu & Hdv) Hadd.
  destruct (ctf_add_variable_ok _ _ _ _ Hadd)
    as (_ & dvd & _ & _ & Hs & E1 & E2 & E3 & E4 & E5 & E6 & E7 & Hfr).
  destruct (ctf_with_overlay_fields _ _ Hfr) as (Fp & Ff & Fo & Fl & _).
  unfold ctf_wf, overlay_ok, boundary_ok.
  rewrite E1, E2, E3, E4, E5, E6, E7, Fo, Fl, Fp, (ctf_is_child_frame _ _ Ff).
  split_and!; try assumption; try lia.
  - rewrite index_of_snoc, Hv. reflexivity.
  - eapply Forall_impl; [exact Hty|]. simpl. intros d (i & Hi & Hd).
    exists i. split; [exact Hi|].
    rewrite Hd. symmetry. apply ctf_index_to_type_frame; assumption.
  - apply Forall_app. split; [exact Hdv|].
    constructor; [lia|constructor].
Qed.

Lemma ctf_wf_add_type (fp : ctf_file) kind name ref u (fp' : ctf_file) (id : Z) :
  ctf_wf fp -> ctf_add_type fp kind name ref u = (fp', Ok id) -> ctf_wf fp'.
Proof.
  intros ((Hh & Hn & Hv & Hnd) & Hid & Hty & Hb & Hlu & Hdv) Hadd.
  destruct (ctf_add_type_ok _ _ _ _ _ _ _ Hadd)
    as (_ & Hc & Hidv & dtd & _ & Hdt & _ & E1 & E2 & E3 & E4 & E5 & E6 & E7 & Hfr).
  destruct (ctf_with_overlay_fields _ _ Hfr) as (Fp & Ff & Fo & Fl & _).
  assert (Hix : forall i, ctf_index_to_type fp' i = ctf_index_to_type fp i)
    by (intros i; apply ctf_index_to_type_frame; assumption).
  unfold ctf_wf, overlay_ok, boundary_ok.
  rewrite E1, E2, E3, E4, E5, E6, E7, Fo, Fl, Fp, (ctf_is_child_frame _ _ Ff).
  split_and!; try assumption; try lia.
  - rewrite index_of_snoc, Hh, <- Hdt. reflexivity.
  - rewrite index_of_snoc, Hn. reflexivity.
  - rewrite fmap_app. apply NoDup_app. split; [exact Hnd|].
    split; [|apply NoDup_singleton].
    intros x Hx Hx'. apply list_elem_of_singleton in Hx'. subst x.
    apply list_elem_of_fmap in Hx as (d & Hd & Hin).
    rewrite Forall_forall in Hty. destruct (Hty d Hin) as (i & Hi & Hdi).
    pose proof (ctf_index_to_type_mono fp i (ctf_dtnextid fp) Hb
                  ltac:(lia) ltac:(lia) Hc) as Hm.
    rewrite Hdt, Hidv, Hdi in Hd. lia.
  - apply Forall_app. split.
    + eapply Forall_impl; [exact Hty|]. simpl. intros d (i & Hi & Hd).
      exists i. split; [lia|]. rewrite Hix. exact Hd.
    + constructor; [|constructor].
      exists (ctf_dtnextid fp). split; [lia|]. rewrite Hix, Hdt. exact Hidv.
  - intros E. destruct (Hb E) as (k & Hk & Hp & Hu & _).
    exists k. specialize (Hc E). repeat split; try assumption; lia.
Qed.

Lemma ctf_wf_mutation (fp fp' : ctf_file) :
  ctf_mutation fp fp' -> ctf_wf fp -> ctf_wf fp'.
Proof.
  intros [fp0 kind name ref u fp1 id H|fp0 name type fp1 H|fp0] Hwf.
  - eapply ctf_wf_add_type; eassumption.
  - eapply ctf_wf_add_variable; eassumption.
  - apply ctf_wf_snapshot. exact Hwf.
Qed.

(** ** Rollback *)

(** A rollback that is not refused leaves the definitions older than the
    target, with their indices, and resets the counters. *)
Lemma ctf_rollback_eq (fp : ctf_file) (id : ctf_snapshot_id_t) :
  overlay_ok fp ->
  ctf_snapshot_lu fp < snapshot_id id -> ctf_dtoldid fp <= dtd_id id ->
  snapshot_id id <= ctf_snapshots fp -> dtd_id id < ctf_dtnextid fp ->
  ctf_rollback fp id =
  (let tl := filter (fun d => (dtd_type d <=? ctf_index_to_type fp (dtd_id id)) = true)
                    (ctf_dtdefs fp) in
   let vl := filter (fun d => (dvd_snapshots d <? snapshot_id id) = true)
                    (ctf_dvdefs fp) in
   ctf_set_snapshots (snapshot_id id)
     (ctf_set_dtnextid (dtd_id id + 1)
        (ctf_set_dvdefs (index_of dvd_key vl) vl
           (ctf_set_dtdefs (index_of dtd_hkey tl) (index_of dtd_key tl) tl fp))),
   Ok tt).
Proof.
  intros (Hh & Hn & Hv & Hnd) H1 H2 H3 H4. unfold ctf_rollback.
  assert (G1 : (snapshot_id id <=? ctf_snapshot_lu fp) = false) by (apply Z.leb_gt; lia).
  assert (G2 : (dtd_id id <? ctf_dtoldid fp) = false) by (apply Z.ltb_ge; lia).
  assert (G3 : (ctf_snapshots fp <? snapshot_id id) = false) by (apply Z.ltb_ge; lia).
  assert (G4 : (ctf_dtnextid fp <=? dtd_id id) = false) by (apply Z.leb_gt; lia).
  rewrite G1, G2, G3, G4. cbn [orb]. cbv zeta.
  rewrite (ctf_dtd_delete_fold
             (fun d => dtd_type d <=? ctf_index_to_type fp (dtd_id id))
             (ctf_dtdefs fp) (ctf_dtdefs fp) fp Hnd) by auto.
  cbv zeta. rewrite filter_keep_or_absent.
  match goal with |- context [ctf_set_dtdefs ?h ?n ?l fp] =>
    destruct (ctf_set_dtdefs_fields h n l fp) as (_ & _ & _ & F4 & F5)
  end.
  rewrite <- F5 at 1.
  rewrite ctf_dvd_delete_fold by (rewrite F4, F5; exact Hv).
  cbv zeta. rewrite filter_keep_or_absent, F5. reflexivity.
Qed.

(** What mutations that follow a state leave of it: the frame, the
    definitions present, in front of the lists, and counters that have not
    gone back; the definitions added have identifiers above the last one
    assigned before, and epochs from the current one on. *)
Lemma ctf_mutations_since (fp1 fp2 : ctf_file) :
  ctf_wf fp1 -> rtc ctf_mutation fp1 fp2 ->
  ctf_wf fp2 /\ ctf_with_overlay fp2 fp1 = fp2 /\
  ctf_dtnextid fp1 <= ctf_dtnextid fp2 /\ ctf_snapshots fp1 <= ctf_snapshots fp2 /\
  exists dts dvs,
    ctf_dtdefs fp2 = ctf_dtdefs fp1 ++ dts /\
    ctf_dvdefs fp2 = ctf_dvdefs fp1 ++ dvs /\
    Forall (fun d => ctf_index_to_type fp1 (ctf_dtnextid fp1 - 1) < dtd_type d) dts /\
    Forall (fun d => ctf_snapshots fp1 <= dvd_snapshots d) dvs.
Proof.
  intros Hwf1. revert fp2. apply rtc_ind_r; [|intros fp fp' Hfp Hm IH].
  - split; [exact Hwf1|]. split; [apply ctf_with_overlay_refl|].
    split; [lia|]. split; [lia|].
    exists [], []. rewrite !app_nil_r. repeat split; constructor.
  - destruct IH as (Hwf & Hfr & Hn & Hs & dts & dvs & Ht & Hv & Hdts & Hdvs).
    split; [eapply ctf_wf_mutation; eassumption|].
    destruct (ctf_with_overlay_fields _ _ Hfr) as (Fp & Ff & Fo & Fl & _).
    destruct Hwf1 as (_ & Hid1 & _ & Hb1 & _).
    destruct Hm as [fp0 kind name ref u fp3 id H|fp0 name type fp3 H|fp0].
    + destruct (ctf_add_type_ok _ _ _ _ _ _ _ H)
        as (_ & Hc & Hidv & dtd & _ & Hdt & _ & E1 & _ & _ & E4 & _ & E6 & E7 & Hfr').
      split; [eapply ctf_with_overlay_trans; eassumption|].
      split; [lia|]. split; [lia|].
      exists (dts ++ [dtd]), dvs. rewrite E1, E4, Ht, Hv, <- app_assoc.
      split_and!; try reflexivity; try assumption.
      apply Forall_app. split; [exact Hdts|]. constructor; [|constructor].
      rewrite Hdt, Hidv.
      rewrite (ctf_index_to_type_frame fp0 fp1 _ Fp Ff).
      assert (Hc1 : ctf_is_child fp1 = true -> ctf_dtnextid fp0 <= ctf_parmax fp1).
      { intros E. rewrite <- Fp. apply Hc.
        rewrite (ctf_is_child_frame _ _ Ff). exact E. }
      pose proof (ctf_index_to_type_mono fp1 (ctf_dtnextid fp1 - 1)
                    (ctf_dtnextid fp0) Hb1 ltac:(lia) ltac:(lia) Hc1). lia.
    + destruct (ctf_add_variable_ok _ _ _ _ H)
        as (_ & dvd & _ & _ & Hsn & E1 & _ & E3 & _ & _ & E6 & E7 & Hfr').
      split; [eapply ctf_with_overlay_trans; eassumption|].
      split; [lia|]. split; [lia|].
      exists dts, (dvs ++ [dvd]). rewrite E1, E3, Ht, Hv, <- app_assoc.
      split_and!; try reflexivity; try assumption.
      apply Forall_app. split; [exact Hdvs|]. constructor; [lia|constructor].
    + destruct (ctf_snapshot_ok fp0) as (E1 & _ & _ & E4 & _ & E6 & E7 & Hfr').
      split; [eapply ctf_with_overlay_trans; eassumption|].
      split; [lia|]. split; [lia|].
      exists dts, dvs. rewrite E1, E4. split_and!; assumption.
Qed.

(** Rolling back to a snapshot undoes the mutations made since: the
    container is the one that the snapshot left. *)
Lemma ctf_rollback_restores (fp0 fp2 : ctf_file) :
  ctf_wf fp0 -> rtc ctf_mutation (fst (ctf_snapshot fp0)) fp2 ->
  ctf_rollback fp2 (snd (ctf_snapshot fp0)) = (fst (ctf_snapshot fp0), Ok tt).
Proof.
  intros Hwf0 Hrtc.
  pose proof (ctf_wf_snapshot fp0 Hwf0) as Hwf1.
  destruct (ctf_mutations_since _ _ Hwf1 Hrtc)
    as (Hwf2 & Hfr & Hn & Hs & dts & dvs & Ht & Hv & Hdts & Hdvs).
  destruct (ctf_snapshot_ok fp0) as (_ & _ & _ & _ & _ & E6 & E7 & _).
  set (fp1 := fst (ctf_snapshot fp0)) in *.
  assert (Hid : snd (ctf_snapshot fp0) =
                {| dtd_id := ctf_dtnextid fp1 - 1; snapshot_id := ctf_snapshots fp1 |}).
  { unfold ctf_snapshot. simpl. rewrite E6, E7. reflexivity. }
  rewrite Hid.
  destruct (ctf_with_overlay_fields _ _ Hfr) as (Fp & Ff & Fo & Fl & _).
  destruct Hwf1 as ((Hh1 & Hn1 & Hv1 & Hnd1) & Hid1 & Hty1 & Hb1 & Hlu1 & Hdv1).
  assert (Hlu0 : ctf_snapshot_lu fp1 < ctf_snapshots fp1).
  { destruct Hwf0 as (_ & _ & _ & _ & Hlu0 & _).
    destruct (ctf_snapshot_ok fp0) as (_ & _ & _ & _ & _ & _ & _ & Hfr0).
    destruct (ctf_with_overlay_fields _ _ Hfr0) as (_ & _ & _ & Fl0 & _).
    fold fp1 in Fl0. lia. }
  rewrite ctf_rollback_eq; simpl; try lia; [|apply Hwf2].
  rewrite (ctf_index_to_type_frame fp2 fp1 _ Fp Ff).
  assert (Htl : filter (fun d => (dtd_type d <=?
                                  ctf_index_to_type fp1 (ctf_dtnextid fp1 - 1)) = true)
                       (ctf_dtdefs fp2) = ctf_dtdefs fp1).
  { rewrite Ht, filter_app, filter_all_elem, filter_none_elem.
    - apply app_nil_r.
    - eapply Forall_impl; [exact Hdts|]. simpl. intros d Hd Hle.
      apply Z.leb_le in Hle. lia.
    - eapply Forall_impl; [exact Hty1|]. simpl. intros d (i & Hi & Hd).
      apply Z.leb_le. rewrite Hd.
      assert (Hc1 : ctf_is_child fp1 = true -> ctf_dtnextid fp1 - 1 <= ctf_parmax fp1).
      { intros E. destruct (Hb1 E) as (k & _ & _ & _ & Hle). lia. }
      pose proof (ctf_index_to_type_mono fp1 i (ctf_dtnextid fp1 - 1) Hb1
                    ltac:(lia) ltac:(lia) Hc1). lia. }
  assert (Hvl : filter (fun d => (dvd_snapshots d <? ctf_snapshots fp1) = true)
                       (ctf_dvdefs fp2) = ctf_dvdefs fp1).
  { rewrite Hv, filter_app, filter_all_elem, filter_none_elem.
    - apply app_nil_r.
    - eapply Forall_impl; [exact Hdvs|]. simpl. intros d Hd Hlt.
      apply Z.ltb_lt in Hlt. lia.
    - destruct (ctf_snapshot_ok fp0) as (_ & _ & _ & E4 & _).
      fold fp1 in E4. rewrite E4.
      destruct Hwf0 as (_ & _ & _ & _ & _ & Hdv0).
      eapply Forall_impl; [exact Hdv0|]. simpl. intros d Hd.
      apply Z.ltb_lt. lia. }
  rewrite Htl, Hvl, <- Hh1, <- Hn1, <- Hv1.
  replace (ctf_dtnextid fp1 - 1 + 1) with (ctf_dtnextid fp1) by lia.
  f_equal. apply (ctf_with_overlay_back fp1 fp2). exact Hfr.
Qed.

Lemma ctf_overlay_written s n vh vl h nm tl (fp : ctf_file) :
  let fp' := ctf_set_snapshots s (ctf_set_dtnextid n
               (ctf_set_dvdefs vh vl (ctf_set_dtdefs h nm tl fp))) in
  ctf_dtdefs fp' = tl /\ ctf_dthash fp' = h /\ ctf_dtbyname fp' = nm /\
  ctf_dvdefs fp' = vl /\ ctf_dvhash fp' = vh /\
  ctf_dtnextid fp' = n /\ ctf_snapshots fp' = s /\
  ctf_with_overlay fp' fp = fp'.
Proof. destruct fp. repeat split. Qed.

Lemma Forall_filter_elem {A : Type} (P Q : A -> Prop) `{forall x, Decision (P x)}
    (l : list A) :
  Forall Q l -> Forall (fun x => P x /\ Q x) (filter P l).
Proof.
  intros HQ. apply Forall_forall. intros x Hx.
  apply list_elem_of_filter in Hx as [HP Hx].
  rewrite Forall_forall in HQ. auto.
Qed.

Lemma ctf_wf_rollback (fp : ctf_file) (id : ctf_snapshot_id_t) :
  ctf_wf fp -> ctf_wf (fst (ctf_rollback fp id)).
Proof.
  intros Hwf.
  destruct ((snapshot_id id <=? ctf_snapshot_lu fp) || (dtd_id id <? ctf_dtoldid fp)
            || (ctf_snapshots fp <? snapshot_id id)
            || (ctf_dtnextid fp <=? dtd_id id)) eqn:G.
  { unfold ctf_rollback. rewrite G. exact Hwf. }
  apply orb_false_elim in G as [G G4]. apply orb_false_elim in G as [G G3].
  apply orb_false_elim in G as [G1 G2].
  apply Z.leb_gt in G1, G4. apply Z.ltb_ge in G2, G3.
  destruct Hwf as ((Hh & Hn & Hv & Hnd) & Hid & Hty & Hb & Hlu & Hdv).
  rewrite ctf_rollback_eq by (try lia; repeat split; assumption).
  cbv zeta. cbn [fst].
  match goal with |- ctf_wf (ctf_set_snapshots ?s (ctf_set_dtnextid ?n
                     (ctf_set_dvdefs ?vh ?vl (ctf_set_dtdefs ?h ?nm ?tl fp)))) =>
    destruct (ctf_overlay_written s n vh vl h nm tl fp)
      as (E1 & E2 & E3 & E4 & E5 & E6 & E7 & Hfr)
  end.
  destruct (ctf_with_overlay_fields _ _ Hfr) as (Fp & Ff & Fo & Fl & _).
  unfold ctf_wf, overlay_ok, boundary_ok.
  rewrite E1, E2, E3, E4, E5, E6, E7, Fo, Fl, Fp, (ctf_is_child_frame _ _ Ff).
  split_and!; try reflexivity; try lia.
  - eapply sublist_NoDup; [exact Hnd|].
    apply fmap_sublist. apply sublist_filter.
  - eapply Forall_impl;
      [apply (Forall_filter_elem _ _ _ Hty)|].
    simpl. intros d (Hle & i & Hi & Hd). apply Z.leb_le in Hle.
    exists i. split.
    + split; [lia|].
      destruct (Z_lt_le_dec i (dtd_id id + 1)) as [Hlt|Hge]; [exact Hlt|exfalso].
      assert (Hc : ctf_is_child fp = true -> i <= ctf_parmax fp).
      { intros E. destruct (Hb E) as (k & _ & _ & _ & Hk). lia. }
      pose proof (ctf_index_to_type_mono fp (dtd_id id) i Hb
                    ltac:(lia) ltac:(lia) Hc). lia.
    + rewrite Hd. symmetry. apply ctf_index_to_type_frame; assumption.
  - intros E. destruct (Hb E) as (k & Hk & Hp & Hu & Hle).
    exists k. split_and!; try assumption; lia.
  - eapply Forall_impl;
      [apply (Forall_filter_elem _ (fun _ => True) (ctf_dvdefs fp))|].
    + apply Forall_forall. intros; exact I.
    + simpl. intros d [Hlt _]. apply Z.ltb_lt in Hlt. lia.
Qed.

(** ** What a commit writes *)

Lemma ctf_update_ok (heap : nat -> bool) (fp fp' : ctf_file) (buf : ctf_buffer) :
  ctf_update heap fp = (fp', Ok buf) ->
  ctf_refs_ok fp = true /\ buf = ctf_serialize fp /\ ctf_buffer_fits buf = true /\
  heap 0%nat = true /\ heap 1%nat = true /\ heap 2%nat = true /\
  fp' = ctf_advance_epoch (ctf_clear_overlay (ctf_install buf fp)) /\
  ctf_dtdefs fp' = [] /\ ctf_dthash fp' = ∅ /\ ctf_dtbyname fp' = ∅ /\
  ctf_dvdefs fp' = [] /\ ctf_dvhash fp' = ∅ /\
  ctf_dtnextid fp' = ctf_dtnextid fp /\ ctf_dtoldid fp' = ctf_dtnextid fp - 1 /\
  ctf_snapshots fp' = ctf_snapshots fp + 1 /\
  ctf_snapshot_lu fp' = ctf_snapshots fp + 1 /\
  ctf_parmax fp' = ctf_parmax fp /\ ctf_flags fp' = ctf_flags fp /\
  ctf_parent fp' = ctf_parent fp /\ ctf_base fp' = Some buf.
Proof.
  unfold ctf_update, op_bind, op_read, op_guard, op_write, op_ret.
  destruct (ctf_refs_ok fp); [|discriminate].
  destruct (ctf_buffer_fits (ctf_serialize fp)) eqn:Hf; [|discriminate].
  destruct (heap 0%nat); [|discriminate].
  destruct (heap 1%nat); [|discriminate].
  destruct (heap 2%nat); [|discriminate].
  intros [= <- <-]. rewrite Hf.
  destruct fp. repeat split.
Qed.

Lemma ctf_wf_update (heap : nat -> bool) (fp : ctf_file) :
  ctf_wf fp -> ctf_wf (fst (ctf_update heap fp)).
Proof.
  intros Hwf.
  destruct (ctf_update heap fp) as [fp' [buf|e]] eqn:Hu.
  - destruct (ctf_update_ok _ _ _ _ Hu)
      as (_ & _ & _ & _ & _ & _ & _ & E1 & E2 & E3 & E4 & E5 & E6 & E7 & E8 & E9
          & Fp & Ff & _).
    destruct Hwf as (_ & Hid & _ & Hb & Hlu & _).
    unfold ctf_wf, overlay_ok, boundary_ok. simpl.
    rewrite E1, E2, E3, E4, E5, E6, E7, E8, E9, Fp, (ctf_is_child_frame _ _ Ff).
    split_and!; try reflexivity; try constructor; try lia.
    exact Hb.
  - revert Hu.
    unfold ctf_update, op_bind, op_read, op_guard, op_write, op_ret.
    destruct (ctf_refs_ok fp); [|intros [= <- _]; exact Hwf].
    destruct (ctf_buffer_fits (ctf_serialize fp)); [|intros [= <- _]; exact Hwf].
    destruct (heap 0%nat); [|intros [= <- _]; exact Hwf].
    destruct (heap 1%nat); [|intros [= <- _]; exact Hwf].
    destruct (heap 2%nat); [|intros [= <- _]; exact Hwf].
    discriminate.
Qed.

(** A snapshot taken before a commit is refused after it, whatever is
    added in between and afterwards, and the refusal leaves the container
    as it is. *)
Lemma ctf_rollback_committed (heap : nat -> bool) (fp0 fp2 fp3 fp4 : ctf_file)
    (buf : ctf_buffer) :
  ctf_wf fp0 -> rtc ctf_mutation (fst (ctf_snapshot fp0)) fp2 ->
  ctf_update heap fp2 = (fp3, Ok buf) -> rtc ctf_mutation fp3 fp4 ->
  ctf_rollback fp4 (snd (ctf_snapshot fp0)) = (fp4, Err InvalidEpoch).
Proof.
  intros Hwf0 H12 Hu H34.
  pose proof (ctf_wf_snapshot fp0 Hwf0) as Hwf1.
  destruct (ctf_mutations_since _ _ Hwf1 H12) as (Hwf2 & _ & _ & Hs & _).
  destruct (ctf_snapshot_ok fp0) as (_ & _ & _ & _ & _ & _ & E7 & _).
  destruct (ctf_update_ok _ _ _ _ Hu)
    as (_ & _ & _ & _ & _ & _ & _ & _ & _ & _ & _ & _ & _ & _ & _ & E9 & _).
  assert (Hwf3 : ctf_wf fp3).
  { pose proof (ctf_wf_update heap fp2 Hwf2) as H. rewrite Hu in H. exact H. }
  destruct (ctf_mutations_since _ _ Hwf3 H34) as (_ & Hfr & _).
  destruct (ctf_with_overlay_fields _ _ Hfr) as (_ & _ & _ & Fl & _).
  unfold ctf_rollback.
  assert (G : (snapshot_id (snd (ctf_snapshot fp0)) <=? ctf_snapshot_lu fp4) = true).
  { apply Z.leb_le. simpl. lia. }
  rewrite G. reflexivity.
Qed.

(** The identifiers of the dynamic types present are at most the last one
    assigned, and the epochs of the variables at most the current one. *)
Lemma ctf_wf_ids_below (fp : ctf_file) :
  ctf_wf fp ->
  Forall (fun d => dtd_type d <= ctf_index_to_type fp (ctf_dtnextid fp - 1))
         (ctf_dtdefs fp).
Proof.
  intros (_ & Hid & Hty & Hb & _).
  eapply Forall_impl; [exact Hty|]. simpl. intros d (i & Hi & Hd). rewrite Hd.
  assert (Hc : ctf_is_child fp = true -> ctf_dtnextid fp - 1 <= ctf_parmax fp).
  { intros E. destruct (Hb E) as (k & _ & _ & _ & Hle). lia. }
  pose proof (ctf_index_to_type_mono fp i (ctf_dtnextid fp - 1) Hb
                ltac:(lia) ltac:(lia) Hc). lia.
Qed.

(** In a well-formed overlay a definition of the list is found under its
    identifier, and a name of the list resolves to the last definition of
    the list with that name. *)
Lemma overlay_ok_views (fp : ctf_file) (d : ctf_dtdef_t) :
  overlay_ok fp -> d ∈ ctf_dtdefs fp ->
  ctf_dtd_lookup fp (dtd_type d) = Some d /\
  forall n, dtd_name d = Some n ->
    exists d' l1 l2,
      ctf_dtbyname fp !! (kind_nspace (ctt_kind (dtd_data d)), n) = Some d' /\
      ctf_dtdefs fp = l1 ++ d' :: l2 /\
      dtd_name d' = Some n /\
      kind_nspace (ctt_kind (dtd_data d')) = kind_nspace (ctt_kind (dtd_data d)) /\
      forall y, y ∈ l2 ->
        ~ (dtd_name y = Some n /\
           kind_nspace (ctt_kind (dtd_data y)) = kind_nspace (ctt_kind (dtd_data d))).
Proof.
  intros (Hh & Hn & _ & Hnd) Hd. split.
  - unfold ctf_dtd_lookup. rewrite Hh. apply dthash_lookup_elem; assumption.
  - intros n Hname. rewrite Hn, index_of_lookup. unfold newest.
    set (k := (kind_nspace (ctt_kind (dtd_data d)), n)).
    assert (Hk : dtd_key d = Some k) by (unfold dtd_key; rewrite Hname; reflexivity).
    destruct (last (filter (fun x => dtd_key x = Some k) (ctf_dtdefs fp)))
      as [d'|] eqn:El.
    + pose proof (last_Some_elem_of _ _ El) as Hin.
      apply list_elem_of_filter in Hin as [Hk' _].
      apply last_filter_Some in El as (l1 & l2 & Hl & Hl2).
      exists d', l1, l2. split; [reflexivity|]. split; [exact Hl|].
      unfold dtd_key in Hk'. destruct (dtd_name d') as [n'|] eqn:En; [|discriminate].
      inversion Hk' as [[Hns Hnn]]. subst n'.
      split; [reflexivity|]. split; [reflexivity|].
      intros y Hy [Hyn Hyk]. rewrite Forall_forall in Hl2.
      apply (Hl2 y Hy). unfold dtd_key. rewrite Hyn, Hyk. exact Hk'.
    + exfalso. apply last_None in El.
      apply (filter_nil_not_elem_of (fun x => dtd_key x = Some k)
               (ctf_dtdefs fp) d El Hk Hd).
Qed.

Lemma overlay_ok_dv_views (fp : ctf_file) (v : ctf_dvdef_t) :
  overlay_ok fp -> v ∈ ctf_dvdefs fp ->
  exists v', ctf_dvd_lookup fp (dvd_name v) = Some v' /\
             v' ∈ ctf_dvdefs fp /\ dvd_name v' = dvd_name v.
Proof.
  intros (_ & _ & Hv & _) Hin. unfold ctf_dvd_lookup.
  rewrite Hv, index_of_lookup.
  destruct (newest dvd_key (dvd_name v) (ctf_dvdefs fp)) as [v'|] eqn:En.
  - apply newest_Some in En as [Hv' Hk]. exists v'.
    split; [reflexivity|]. split; [exact Hv'|]. inversion Hk. reflexivity.
  - exfalso. rewrite newest_None in En. apply (En v Hin). reflexivity.
Qed.


(** The example container of the first epoch is well formed, and the one
    of the three epochs is reached from the snapshot that starts the
    second epoch. *)
Ltac ctf_wf_eval :=
  unfold ctf_wf, overlay_ok, boundary_ok;
  split_and!;
  first [ vm_compute; reflexivity
        | apply (bool_decide_unpack _); vm_compute; exact I
        | vm_compute; discriminate
        | repeat constructor; eexists; split; [|vm_compute; reflexivity];
          vm_compute; split; reflexivity
        | repeat constructor; vm_compute; discriminate
        | vm_compute; intros; discriminate ].



(** ** Name lookup *)

Lemma ctf_lookup_by_name_unfold (fp : ctf_file) (ns : ctf_nspace) (name : string) :
  ctf_lookup_by_name fp ns name =
  match ctf_dtbyname fp !! (ns, name) with
  | Some dtd => Some (dtd_type dtd)
  | None =>
    match ctf_lookup_table fp ns !! name with
    | Some id => Some id
    | None =>
      match ctf_parent fp with
      | Some p =>
        match ctf_lookup_by_name p ns name with
        | Some id => Some (LCTF_INDEX_TO_TYPE fp id false)
        | None => None
        end
      | None => None
      end
    end
  end.
Proof. destruct fp. reflexivity. Qed.

(** The table of a name space is the table of the kinds that go to it. *)
Lemma ctf_lookup_table_kind (fp : ctf_file) (kind : ctf_kind) :
  ctf_lookup_table fp (kind_nspace kind) =
  match kind with
  | CTF_K_STRUCT => ctf_structs fp
  | CTF_K_UNION => ctf_unions fp
  | CTF_K_ENUM => ctf_enums fp
  | _ => ctf_names fp
  end.
Proof. destruct kind; reflexivity. Qed.

(** The answer depends on the entry of the name index and on the frame. *)
Lemma ctf_lookup_by_name_frame (fp fp' : ctf_file) (ns : ctf_nspace) (name : string) :
  ctf_with_overlay fp' fp = fp' ->
  ctf_dtbyname fp' !! (ns, name) = ctf_dtbyname fp !! (ns, name) ->
  ctf_lookup_by_name fp' ns name = ctf_lookup_by_name fp ns name.
Proof.
  intros Hfr Hk.
  destruct (ctf_with_overlay_fields _ _ Hfr)
    as (Fp & Ff & _ & _ & Fpa & Fs & Fu & Fe & Fn).
  rewrite !ctf_lookup_by_name_unfold, Hk, Fpa.
  assert (Ht : ctf_lookup_table fp' ns = ctf_lookup_table fp ns)
    by (destruct ns; simpl; assumption).
  rewrite Ht. unfold LCTF_INDEX_TO_TYPE. reflexivity.
Qed.

(** Without an entry in the name index the answer is the entry of the
    static table, or else the parent's answer, which is an identifier of
    the parent's side in the child as it is. *)
Lemma ctf_lookup_by_name_static (fp : ctf_file) (ns : ctf_nspace) (name : string) :
  ctf_dtbyname fp !! (ns, name) = None ->
  ctf_lookup_by_name fp ns name =
  match ctf_lookup_table fp ns !! name with
  | Some sid => Some sid
  | None => match ctf_parent fp with
            | Some p => ctf_lookup_by_name p ns name
            | None => None
            end
  end.
Proof.
  intros Hk. rewrite ctf_lookup_by_name_unfold, Hk.
  destruct (ctf_lookup_table fp ns !! name); [reflexivity|].
  destruct (ctf_parent fp) as [p|]; [|reflexivity].
  destruct (ctf_lookup_by_name p ns name); reflexivity.
Qed.

(** No definition of the list under a name: no entry in the name index. *)
Lemma dtbyname_absent (fp : ctf_file) (ns : ctf_nspace) (name : string) :
  overlay_ok fp ->
  (forall d, d ∈ ctf_dtdefs fp ->
     ~ (dtd_name d = Some name /\ kind_nspace (ctt_kind (dtd_data d)) = ns)) ->
  ctf_dtbyname fp !! (ns, name) = None.
Proof.
  intros (_ & Hn & _) Hno. rewrite Hn, index_of_lookup. apply newest_None.
  intros d Hd Hk. apply (Hno d Hd). unfold dtd_key in Hk.
  destruct (dtd_name d); [|discriminate]. inversion Hk. split; reflexivity.
Qed.

(** After an addition under a name, the name resolves to the new
    identifier; the other names resolve as before. *)
Lemma ctf_lookup_after_add (fp : ctf_file) kind name ref u (fp' : ctf_file) (id : Z) :
  ctf_add_type fp kind (Some name) ref u = (fp', Ok id) ->
  ctf_lookup_by_name fp' (kind_nspace kind) name = Some id /\
  forall ns' name', (ns', name') <> (kind_nspace kind, name) ->
    ctf_lookup_by_name fp' ns' name' = ctf_lookup_by_name fp ns' name'.
Proof.
  intros Hadd.
  destruct (ctf_add_type_ok _ _ _ _ _ _ _ Hadd)
    as (_ & _ & _ & dtd & Hnm & Hdt & Hkd & _ & _ & E3 & _ & _ & _ & _ & Hfr).
  assert (Hkey : dtd_key dtd = Some (kind_nspace kind, name))
    by (unfold dtd_key; rewrite Hnm, Hkd; reflexivity).
  unfold index_insert in E3. rewrite Hkey in E3. split.
  - rewrite ctf_lookup_by_name_unfold, E3, lookup_insert_eq, Hdt. reflexivity.
  - intros ns' name' Hne. apply ctf_lookup_by_name_frame; [exact Hfr|].
    rewrite E3. apply lookup_insert_ne. congruence.
Qed.

(** C4.  [lookup_by_name] answers from the dynamic overlay first, newest
    first: a type added under a name is what the name resolves to from
    then on, whatever dynamic, static or parent definition had the name
    (the other names resolve as before), and among the dynamic definitions
    of the list the last one with the name is the answer.  Without a
    dynamic definition of the name, the answer is the entry of the static
    table of the kind (struct tags, union tags, enum tags, or the other
    names), and without one the parent's answer, whose identifier is valid
    in the child as it is.  In particular, over a static definition of
    the name, a dynamic one added after a snapshot is found, and the
    rollback to that snapshot makes the name resolve to the static one
    again. *)
Theorem lookup_by_name_shadowing (fp : ctf_file) (kind : ctf_kind) (name : string) :
  ctf_wf fp ->
  (forall ref u fp' id,
     ctf_add_type fp kind (Some name) ref u = (fp', Ok id) ->
     ctf_lookup_by_name fp' (kind_nspace kind) name = Some id /\
     forall ns' name', (ns', name') <> (kind_nspace kind, name) ->
       ctf_lookup_by_name fp' ns' name' = ctf_lookup_by_name fp ns' name') /\
  (forall l1 d l2,
     ctf_dtdefs fp = l1 ++ d :: l2 ->
     dtd_name d = Some name ->
     kind_nspace (ctt_kind (dtd_data d)) = kind_nspace kind ->
     (forall y, y ∈ l2 ->
        ~ (dtd_name y = Some name /\
           kind_nspace (ctt_kind (dtd_data y)) = kind_nspace kind)) ->
     ctf_lookup_by_name fp (kind_nspace kind) name = Some (dtd_type d)) /\
  ((forall d, d ∈ ctf_dtdefs fp ->
      ~ (dtd_name d = Some name /\
         kind_nspace (ctt_kind (dtd_data d)) = kind_nspace kind)) ->
   ctf_lookup_by_name fp (kind_nspace kind) name =
     match match kind with
           | CTF_K_STRUCT => ctf_structs fp
           | CTF_K_UNION => ctf_unions fp
           | CTF_K_ENUM => ctf_enums fp
           | _ => ctf_names fp
           end !! name with
     | Some sid => Some sid
     | None => match ctf_parent fp with
               | Some p => ctf_lookup_by_name p (kind_nspace kind) name
               | None => None
               end
     end /\
   forall sid ref u fp2 id,
     match kind with
     | CTF_K_STRUCT => ctf_structs fp
     | CTF_K_UNION => ctf_unions fp
     | CTF_K_ENUM => ctf_enums fp
     | _ => ctf_names fp
     end !! name = Some sid ->
     ctf_add_type (fst (ctf_snapshot fp)) kind (Some name) ref u = (fp2, Ok id) ->
     ctf_lookup_by_name fp (kind_nspace kind) name = Some sid /\
     ctf_lookup_by_name fp2 (kind_nspace kind) name = Some id /\
     (exists d, ctf_dtd_lookup fp2 id = Some d /\ dtd_name d = Some name /\
                ctt_kind (dtd_data d) = kind) /\
     ctf_lookup_by_name (fst (ctf_rollback fp2 (snd (ctf_snapshot fp))))
       (kind_nspace kind) name = Some sid).
Proof.
  intros Hwf. split; [|split].
  - intros ref u fp' id Hadd. eapply ctf_lookup_after_add. exact Hadd.
  - intros l1 d l2 Hl Hname Hns Hl2.
    destruct Hwf as ((_ & Hn & _) & _).
    rewrite ctf_lookup_by_name_unfold, Hn, index_of_lookup, Hl.
    rewrite (newest_split dtd_key l1 l2 d (kind_nspace kind, name)).
    + reflexivity.
    + unfold dtd_key. rewrite Hname, Hns. reflexivity.
    + intros y Hy Hk. apply (Hl2 y Hy). unfold dtd_key in Hk.
      destruct (dtd_name y); [|discriminate]. inversion Hk. split; reflexivity.
  - intros Hno.
    assert (Habs : ctf_dtbyname fp !! (kind_nspace kind, name) = None)
      by (apply dtbyname_absent; [apply Hwf|exact Hno]).
    assert (Hst : ctf_lookup_by_name fp (kind_nspace kind) name =
                  match match kind with
                        | CTF_K_STRUCT => ctf_structs fp
                        | CTF_K_UNION => ctf_unions fp
                        | CTF_K_ENUM => ctf_enums fp
                        | _ => ctf_names fp
                        end !! name with
                  | Some sid => Some sid
                  | None => match ctf_parent fp with
                            | Some p => ctf_lookup_by_name p (kind_nspace kind) name
                            | None => None
                            end
                  end).
    { rewrite <- ctf_lookup_table_kind. apply ctf_lookup_by_name_static. exact Habs. }
    split; [exact Hst|].
    intros sid ref u fp2 id Hsid Hadd.
    split; [rewrite Hst, Hsid; reflexivity|].
    destruct (ctf_lookup_after_add _ _ _ _ _ _ _ Hadd) as [Hnew _].
    split; [exact Hnew|]. split.
    + destruct (ctf_add_type_ok _ _ _ _ _ _ _ Hadd)
        as (_ & _ & _ & dtd & Hnm & Hdt & Hkd & _ & E2 & _).
      exists dtd. unfold ctf_dtd_lookup. rewrite E2, lookup_insert_eq.
      repeat split; assumption.
    + rewrite (ctf_rollback_restores fp fp2 Hwf).
      * cbn [fst].
        destruct (ctf_snapshot_ok fp) as (_ & _ & E3 & _ & _ & _ & _ & Hfr).
        rewrite (ctf_lookup_by_name_frame fp _ _ _ Hfr) by (rewrite E3; reflexivity).
        rewrite Hst, Hsid. reflexivity.
      * apply rtc_once. eapply mut_add_type. exact Hadd.
Qed.

Lemma lookup_by_name_shadowing_witness :
  ctf_lookup_by_name fp_static_foo NS_STRUCTS "foo" = Some 1 /\
  ctf_lookup_by_name
    (fst (ctf_add_type (fst (ctf_snapshot fp_static_foo)) CTF_K_STRUCT
            (Some "foo"%string) 0 (dtu_members [])))
    NS_STRUCTS "foo" = Some 2 /\
  ctf_lookup_by_name
    (fst (ctf_rollback
            (fst (ctf_add_type (fst (ctf_snapshot fp_static_foo)) CTF_K_STRUCT
                    (Some "foo"%string) 0 (dtu_members [])))
            (snd (ctf_snapshot fp_static_foo))))
    NS_STRUCTS "foo" = Some 1.
Proof.
  assert (Hwf : ctf_wf fp_static_foo) by ctf_wf_eval.
  destruct (lookup_by_name_shadowing fp_static_foo CTF_K_STRUCT "foo" Hwf)
    as (_ & _ & H).
  assert (Hno : forall d, d ∈ ctf_dtdefs fp_static_foo ->
                  ~ (dtd_name d = Some "foo"%string /\
                     kind_nspace (ctt_kind (dtd_data d)) = kind_nspace CTF_K_STRUCT)).
  { intros d Hd. vm_compute in Hd. inversion Hd. }
  destruct (H Hno) as [_ Hsc].
  assert (Hsid : ctf_structs fp_static_foo !! "foo"%string = Some 1)
    by (vm_compute; reflexivity).
  destruct (Hsc 1 0 (dtu_members [])
              (fst (ctf_add_type (fst (ctf_snapshot fp_static_foo)) CTF_K_STRUCT
                      (Some "foo"%string) 0 (dtu_members []))) 2 Hsid eq_refl)
    as (H1 & H2 & _ & H4).
  split; [exact H1|]. split; [exact H2|exact H4].
Defined.


(** ** Commit *)

(** The structural references of the overlay resolve exactly when each
    reference of each pending definition does. *)
Lemma ctf_refs_ok_spec (fp : ctf_file) :
  ctf_refs_ok fp = true <->
  (forall d r, d ∈ ctf_dtdefs fp -> r ∈ dtd_refs d ->
               is_ok (ctf_lookup_by_id fp r) = true) /\
  (forall v, v ∈ ctf_dvdefs fp -> is_ok (ctf_lookup_by_id fp (dvd_type v)) = true).
Proof.
  unfold ctf_refs_ok. rewrite forallb_forall. split.
  - intros H. split.
    + intros d r Hd Hr. apply H. apply list_elem_of_In.
      apply elem_of_app. left. apply list_elem_of_join.
      exists (dtd_refs d). split; [exact Hr|].
      apply list_elem_of_fmap_2. exact Hd.
    + intros v Hv. apply H. apply list_elem_of_In.
      apply elem_of_app. right. apply list_elem_of_fmap_2. exact Hv.
  - intros [H1 H2] x Hx. apply list_elem_of_In in Hx.
    apply elem_of_app in Hx as [Hx|Hx].
    + apply list_elem_of_join in Hx as (l & Hx & Hl).
      apply list_elem_of_fmap in Hl as (d & -> & Hd). eapply H1; eassumption.
    + apply list_elem_of_fmap in Hx as (v & -> & Hv). apply H2. exact Hv.
Qed.

Lemma forallb_false_elem {A : Type} (f : A -> bool) (l : list A) :
  forallb f l = false -> exists x, x ∈ l /\ f x = false.
Proof.
  induction l as [|y l IH]; simpl; [discriminate|].
  destruct (f y) eqn:E; simpl.
  - intros H. destruct (IH H) as (x & Hx & Hb). exists x. split; [right|]; assumption.
  - intros _. exists y. split; [left|exact E].
Qed.

(** The outcome of a commit, step by step. *)
Lemma ctf_update_cases (heap : nat -> bool) (fp : ctf_file) :
  (ctf_refs_ok fp = false /\ ctf_update heap fp = (fp, Err InvalidId)) \/
  (ctf_refs_ok fp = true /\ ctf_buffer_fits (ctf_serialize fp) = false /\
   ctf_update heap fp = (fp, Err OutOfSpace)) \/
  (ctf_refs_ok fp = true /\ ctf_buffer_fits (ctf_serialize fp) = true /\
   (heap 0%nat = false \/ heap 1%nat = false \/ heap 2%nat = false) /\
   ctf_update heap fp = (fp, Err OutOfMemory)) \/
  (ctf_refs_ok fp = true /\ ctf_buffer_fits (ctf_serialize fp) = true /\
   heap 0%nat = true /\ heap 1%nat = true /\ heap 2%nat = true /\
   ctf_update heap fp =
     (ctf_advance_epoch (ctf_clear_overlay (ctf_install (ctf_serialize fp) fp)),
      Ok (ctf_serialize fp))).
Proof.
  unfold ctf_update, op_bind, op_read, op_guard, op_write, op_ret.
  destruct (ctf_refs_ok fp); [|left; split; reflexivity].
  right.
  destruct (ctf_buffer_fits (ctf_serialize fp));
    [|left; repeat split; reflexivity].
  right.
  destruct (heap 0%nat); [|left; repeat split; tauto].
  destruct (heap 1%nat); [|left; repeat split; tauto].
  destruct (heap 2%nat); [|left; repeat split; tauto].
  right. repeat split.
Qed.




(** ** Declaration rendering *)

Lemma append_nil_r (s : string) : s +:+ EmptyString = s.
Proof.
  induction s as [|c s IH]; [reflexivity|].
  change (String c (s +:+ EmptyString) = String c s). rewrite IH. reflexivity.
Qed.

Lemma append_assoc (a b c : string) : (a +:+ b) +:+ c = a +:+ (b +:+ c).
Proof.
  induction a as [|x a IH]; [reflexivity|].
  change (String x ((a +:+ b) +:+ c) = String x (a +:+ (b +:+ c))).
  rewrite IH. reflexivity.
Qed.

Lemma string_concat_app (l k : list string) :
  string_concat (l ++ k) = string_concat l +:+ string_concat k.
Proof.
  induction l as [|x l IH]; [reflexivity|].
  change (x +:+ string_concat (l ++ k) = (x +:+ string_concat l) +:+ string_concat k).
  rewrite IH, append_assoc. reflexivity.
Qed.

(** Once the flag is set, printing changes nothing. *)
Lemma ctf_decl_sprintf_sticky (heap : nat -> bool) (toks : list string)
    (cd : ctf_decl_t) (n : nat) :
  cd_enomem cd = true -> foldl (ctf_decl_sprintf heap) (cd, n) toks = (cd, n).
Proof.
  intros He. induction toks as [|t toks IH]; simpl; [reflexivity|].
  rewrite He. exact IH.
Qed.

Lemma ctf_decl_enter_buf (cd : ctf_decl_t) prec node q :
  cd_buf (ctf_decl_enter cd prec node q) = cd_buf cd /\
  cd_enomem (ctf_decl_enter cd prec node q) = cd_enomem cd.
Proof. split; reflexivity. Qed.

(** Pushing nodes leaves the output buffer and the flag alone. *)
Lemma ctf_decl_push_buf (fuel : nat) (cd : ctf_decl_t) (fp : ctf_file) (type : Z) :
  cd_buf (ctf_decl_push fuel cd fp type) = cd_buf cd /\
  cd_enomem (ctf_decl_push fuel cd fp type) = cd_enomem cd.
Proof.
  revert cd type. induction fuel as [|fuel IH]; intros cd type; simpl.
  - split; reflexivity.
  - destruct (ctf_lookup_by_id fp type) as [tp|e]; [|split; reflexivity].
    destruct (ctt_kind (td_data tp)), (td_u tp); simpl;
      try (split; reflexivity); apply IH.
Qed.

Lemma ctf_decl_nodes_buf (fp : ctf_file) (type : Z) :
  cd_buf (ctf_decl_nodes fp type) = Some EmptyString /\
  cd_enomem (ctf_decl_nodes fp type) = false.
Proof.
  unfold ctf_decl_nodes.
  destruct (ctf_decl_push_buf (S (ctf_type_count fp)) ctf_decl_init fp type) as [H1 H2].
  rewrite H1, H2. split; reflexivity.
Qed.

(** The requests served are the leading ones that succeed. *)
Lemma heap_served_spec (heap : nat -> bool) (k n : nat) :
  (heap_served heap k n <= n)%nat /\
  (forall i, (i < heap_served heap k n)%nat -> heap (k + i)%nat = true) /\
  ((heap_served heap k n < n)%nat -> heap (k + heap_served heap k n)%nat = false).
Proof.
  revert k. induction n as [|n IH]; intros k; simpl.
  - repeat split; [lia|intros; lia|lia].
  - destruct (heap k) eqn:Hk.
    + destruct (IH (S k)) as (H1 & H2 & H3). split; [lia|]. split.
      * intros [|i] Hi; [rewrite Nat.add_0_r; exact Hk|].
        replace (k + S i)%nat with (S k + i)%nat by lia. apply H2. lia.
      * intros Hlt. replace (k + S (heap_served heap (S k) n))%nat
          with (S k + heap_served heap (S k) n)%nat by lia.
        apply H3. lia.
    + repeat split; [lia|intros; lia|]. intros _. rewrite Nat.add_0_r. exact Hk.
Qed.

(** A heap that never fails serves every request. *)
Lemma heap_served_ok (k n : nat) : heap_served heap_ok k n = n.
Proof.
  revert k. induction n as [|n IH]; intros k; simpl; [reflexivity|].
  rewrite IH. reflexivity.
Qed.

(** Printing a list of pieces appends exactly the pieces served, and sets
    the flag exactly when a piece was not served. *)
Lemma ctf_decl_sprintf_served (heap : nat -> bool) (toks : list string)
    (cd : ctf_decl_t) (n : nat) (b : string) :
  cd_enomem cd = false -> cd_buf cd = Some b ->
  cd_buf (fst (foldl (ctf_decl_sprintf heap) (cd, n) toks)) =
    Some (b +:+ string_concat (take (heap_served heap n (length toks)) toks)) /\
  cd_enomem (fst (foldl (ctf_decl_sprintf heap) (cd, n) toks)) =
    bool_decide (heap_served heap n (length toks) < length toks)%nat.
Proof.
  revert cd n b. induction toks as [|t toks IH]; intros cd n b He Hb.
  - simpl. change (string_concat []) with EmptyString. rewrite append_nil_r.
    split; [exact Hb|]. rewrite He. reflexivity.
  - simpl. rewrite He. destruct (heap n) eqn:Hn.
    + match goal with |- context [foldl _ (?cd1, S n) toks] =>
        destruct (IH cd1 (S n) (b +:+ t) eq_refl) as (Hbuf & Hfl)
      end.
      { simpl. rewrite Hb. reflexivity. }
      split.
      * rewrite Hbuf. simpl.
        change (string_concat (t :: take (heap_served heap (S n) (length toks)) toks))
          with (t +:+ string_concat (take (heap_served heap (S n) (length toks)) toks)).
        rewrite append_assoc. reflexivity.
      * rewrite Hfl. apply bool_decide_ext. lia.
    + rewrite ctf_decl_sprintf_sticky by reflexivity. simpl.
      change (string_concat []) with EmptyString. rewrite append_nil_r.
      split; [exact Hb|]. reflexivity.
Qed.




(** A request that fails in the middle: the fourth piece of the declaration
    of a pointer to an array of ten [int] is lost, with all that follows. *)
Example render_partial_ptr_to_array :
  ctf_decl_pieces fp_ptr_to_array 3 "arr" =
    ["int"; " "; "("; "*"; "arr"; ")"; "[10]"]%string /\
  heap_served (heap_fail_at 3) 0 7 = 3%nat.
Proof. repeat split; vm_compute; reflexivity. Qed.

(** One step of [ctf_decl_push], by the kind of the type. *)
Lemma ctf_decl_push_base (fuel : nat) (cd : ctf_decl_t) (fp : ctf_file)
    (type : Z) (tp : ctf_tdesc) :
  ctf_lookup_by_id fp type = Ok tp -> ctt_kind (td_data tp) = CTF_K_INTEGER ->
  ctf_decl_push (S fuel) cd fp type =
  ctf_decl_enter cd CTF_PREC_BASE
    {| cd_type := type; cd_kind := CTF_K_INTEGER; cd_n := 1 |} false.
Proof. intros Hl Hk. simpl. rewrite Hl, Hk. reflexivity. Qed.

Lemma ctf_decl_push_pointer (fuel : nat) (cd : ctf_decl_t) (fp : ctf_file)
    (type : Z) (tp : ctf_tdesc) :
  ctf_lookup_by_id fp type = Ok tp -> ctt_kind (td_data tp) = CTF_K_POINTER ->
  ctf_decl_push (S fuel) cd fp type =
  ctf_decl_enter (ctf_decl_push fuel cd fp (ctt_type (td_data tp)))
    CTF_PREC_POINTER
    {| cd_type := type; cd_kind := CTF_K_POINTER; cd_n := 1 |} false.
Proof. intros Hl Hk. simpl. rewrite Hl, Hk. reflexivity. Qed.

Lemma ctf_decl_push_array (fuel : nat) (cd : ctf_decl_t) (fp : ctf_file)
    (type : Z) (tp : ctf_tdesc) (ar : ctf_arinfo_t) :
  ctf_lookup_by_id fp type = Ok tp -> ctt_kind (td_data tp) = CTF_K_ARRAY ->
  td_u tp = dtu_arr ar ->
  ctf_decl_push (S fuel) cd fp type =
  ctf_decl_enter (ctf_decl_push fuel cd fp (ctr_contents ar))
    CTF_PREC_ARRAY
    {| cd_type := type; cd_kind := CTF_K_ARRAY; cd_n := ctr_nelems ar |} false.
Proof. intros Hl Hk Hu. simpl. rewrite Hl, Hk, Hu. reflexivity. Qed.

Lemma ctf_decl_node_text_base (fp : ctf_file) (type : Z) (tp : ctf_tdesc) :
  ctf_lookup_by_id fp type = Ok tp ->
  ctf_decl_node_text fp {| cd_type := type; cd_kind := CTF_K_INTEGER; cd_n := 1 |}
  = td_name tp.
Proof. intros Hl. unfold ctf_decl_node_text. simpl. rewrite Hl. reflexivity. Qed.

(** Printing all the pieces with a heap that never fails gives their
    concatenation. *)
Lemma ctf_decl_render_ok (fp : ctf_file) (type : Z) (ident : string) :
  cd_err (ctf_decl_nodes fp type) = None ->
  ctf_decl_render heap_ok fp type ident =
  Ok (Some (string_concat (ctf_decl_pieces fp type ident)), false).
Proof.
  intros Herr. unfold ctf_decl_render. rewrite Herr.
  destruct (ctf_decl_nodes_buf fp type) as [Hb He].
  destruct (ctf_decl_sprintf_served heap_ok (ctf_decl_pieces fp type ident)
              _ 0%nat _ He Hb) as [Hbuf Hfl].
  rewrite heap_served_ok, firstn_all in Hbuf. rewrite heap_served_ok in Hfl.
  unfold ctf_decl_buf. rewrite Hbuf, Hfl. f_equal. f_equal.
  apply bool_decide_eq_false. lia.
Qed.

(** The pieces of a declaration whose nodes are known, by evaluation with
    the text of the nodes left abstract. *)
Ltac decl_pieces_eval fp ident :=
  unfold ctf_decl_tokens, decl_print_level, decl_print_node;
  generalize (ctf_decl_node_text fp); intros text;
  destruct ident as [|c s]; [congruence|];
  vm_compute; reflexivity.

(** C7.  In any container, for an integer type named [int], an array type
    with [n] elements and a pointer type: when the array is an array of the
    pointer and the pointer points to [int], the declaration of [ident]
    with the array type is [int *ident[n]]; when the pointer points to the
    array and the array is an array of [int], the declaration of [ident]
    with the pointer type has the star and the identifier in parentheses
    before the bound.  In both cases one node is
    pushed at each of the base, pointer and array levels, whose ranks
    increase from base to pointer to array to function, and the pieces are
    printed with the pointer before the identifier and the array bound
    after it. *)
Theorem declarator_precedence (fp : ctf_file) (base ptr arr n : Z)
    (ident : string) (tb tp ta : ctf_tdesc) (ar : ctf_arinfo_t) :
  ident <> EmptyString -> (2 <= ctf_type_count fp)%nat ->
  ctf_lookup_by_id fp base = Ok tb ->
  ctt_kind (td_data tb) = CTF_K_INTEGER -> td_name tb = "int"%string ->
  ctf_lookup_by_id fp ptr = Ok tp -> ctt_kind (td_data tp) = CTF_K_POINTER ->
  ctf_lookup_by_id fp arr = Ok ta -> ctt_kind (td_data ta) = CTF_K_ARRAY ->
  td_u ta = dtu_arr ar -> ctr_nelems ar = n ->
  (ctr_contents ar = ptr -> ctt_type (td_data tp) = base ->
   (cd_nodes (ctf_decl_nodes fp arr) CTF_PREC_BASE =
      [{| cd_type := base; cd_kind := CTF_K_INTEGER; cd_n := 1 |}] /\
    cd_nodes (ctf_decl_nodes fp arr) CTF_PREC_POINTER =
      [{| cd_type := ptr; cd_kind := CTF_K_POINTER; cd_n := 1 |}] /\
    cd_nodes (ctf_decl_nodes fp arr) CTF_PREC_ARRAY =
      [{| cd_type := arr; cd_kind := CTF_K_ARRAY; cd_n := n |}] /\
    cd_nodes (ctf_decl_nodes fp arr) CTF_PREC_FUNCTION = []) /\
   ctf_decl_pieces fp arr ident =
     ["int"; " "; "*"; ident; "[" +:+ pretty n +:+ "]"]%string /\
   ctf_decl_render heap_ok fp arr ident =
     Ok (Some ("int *" +:+ ident +:+ "[" +:+ pretty n +:+ "]"), false)) /\
  (ctt_type (td_data tp) = arr -> ctr_contents ar = base ->
   (cd_nodes (ctf_decl_nodes fp ptr) CTF_PREC_BASE =
      [{| cd_type := base; cd_kind := CTF_K_INTEGER; cd_n := 1 |}] /\
    cd_nodes (ctf_decl_nodes fp ptr) CTF_PREC_POINTER =
      [{| cd_type := ptr; cd_kind := CTF_K_POINTER; cd_n := 1 |}] /\
    cd_nodes (ctf_decl_nodes fp ptr) CTF_PREC_ARRAY =
      [{| cd_type := arr; cd_kind := CTF_K_ARRAY; cd_n := n |}] /\
    cd_nodes (ctf_decl_nodes fp ptr) CTF_PREC_FUNCTION = []) /\
   ctf_decl_pieces fp ptr ident =
     ["int"; " "; "("; "*"; ident; ")"; "[" +:+ pretty n +:+ "]"]%string /\
   ctf_decl_render heap_ok fp ptr ident =
     Ok (Some ("int (*" +:+ ident +:+ ")[" +:+ pretty n +:+ "]"), false)) /\
  prec_val CTF_PREC_BASE < prec_val CTF_PREC_POINTER /\
  prec_val CTF_PREC_POINTER < prec_val CTF_PREC_ARRAY /\
  prec_val CTF_PREC_ARRAY < prec_val CTF_PREC_FUNCTION.
Proof.
  intros Hid Hcnt Hb Hbk Hbn Hp Hpk Ha Hak Hau Han.
  split; [|split; [|repeat split]].
  - intros Hc Hr.
    assert (Hn : ctf_decl_nodes fp arr =
      ctf_decl_enter
        (ctf_decl_enter
           (ctf_decl_enter ctf_decl_init CTF_PREC_BASE
              {| cd_type := base; cd_kind := CTF_K_INTEGER; cd_n := 1 |} false)
           CTF_PREC_POINTER
           {| cd_type := ptr; cd_kind := CTF_K_POINTER; cd_n := 1 |} false)
        CTF_PREC_ARRAY
        {| cd_type := arr; cd_kind := CTF_K_ARRAY; cd_n := n |} false).
    { unfold ctf_decl_nodes.
      destruct (ctf_type_count fp) as [|[|k]]; [lia|lia|].
      rewrite (ctf_decl_push_array _ _ _ _ _ _ Ha Hak Hau), Hc, Han.
      rewrite (ctf_decl_push_pointer _ _ _ _ _ Hp Hpk), Hr.
      rewrite (ctf_decl_push_base _ _ _ _ _ Hb Hbk). reflexivity. }
    assert (Hpieces : ctf_decl_pieces fp arr ident =
              ["int"; " "; "*"; ident; "[" +:+ pretty n +:+ "]"]%string).
    { unfold ctf_decl_pieces. rewrite Hn.
      transitivity
        [ctf_decl_node_text fp {| cd_type := base; cd_kind := CTF_K_INTEGER; cd_n := 1 |};
         " "%string;
         ctf_decl_node_text fp {| cd_type := ptr; cd_kind := CTF_K_POINTER; cd_n := 1 |};
         ident;
         ctf_decl_node_text fp {| cd_type := arr; cd_kind := CTF_K_ARRAY; cd_n := n |}].
      - decl_pieces_eval fp ident.
      - rewrite (ctf_decl_node_text_base _ _ _ Hb), Hbn. reflexivity. }
    split; [rewrite Hn; repeat split|]. split; [exact Hpieces|].
    rewrite ctf_decl_render_ok by (rewrite Hn; reflexivity).
    rewrite Hpieces. unfold string_concat. simpl foldr.
    rewrite append_nil_r. reflexivity.
  - intros Hr Hc.
    assert (Hn : ctf_decl_nodes fp ptr =
      ctf_decl_enter
        (ctf_decl_enter
           (ctf_decl_enter ctf_decl_init CTF_PREC_BASE
              {| cd_type := base; cd_kind := CTF_K_INTEGER; cd_n := 1 |} false)
           CTF_PREC_ARRAY
           {| cd_type := arr; cd_kind := CTF_K_ARRAY; cd_n := n |} false)
        CTF_PREC_POINTER
        {| cd_type := ptr; cd_kind := CTF_K_POINTER; cd_n := 1 |} false).
    { unfold ctf_decl_nodes.
      destruct (ctf_type_count fp) as [|[|k]]; [lia|lia|].
      rewrite (ctf_decl_push_pointer _ _ _ _ _ Hp Hpk), Hr.
      rewrite (ctf_decl_push_array _ _ _ _ _ _ Ha Hak Hau), Hc, Han.
      rewrite (ctf_decl_push_base _ _ _ _ _ Hb Hbk). reflexivity. }
    assert (Hpieces : ctf_decl_pieces fp ptr ident =
              ["int"; " "; "("; "*"; ident; ")"; "[" +:+ pretty n +:+ "]"]%string).
    { unfold ctf_decl_pieces. rewrite Hn.
      transitivity
        [ctf_decl_node_text fp {| cd_type := base; cd_kind := CTF_K_INTEGER; cd_n := 1 |};
         " "%string; "("%string;
         ctf_decl_node_text fp {| cd_type := ptr; cd_kind := CTF_K_POINTER; cd_n := 1 |};
         ident; ")"%string;
         ctf_decl_node_text fp {| cd_type := arr; cd_kind := CTF_K_ARRAY; cd_n := n |}].
      - decl_pieces_eval fp ident.
      - rewrite (ctf_decl_node_text_base _ _ _ Hb), Hbn. reflexivity. }
    split; [rewrite Hn; repeat split|]. split; [exact Hpieces|].
    rewrite ctf_decl_render_ok by (rewrite Hn; reflexivity).
    rewrite Hpieces. unfold string_concat. simpl foldr.
    rewrite append_nil_r. reflexivity.
Qed.

Lemma declarator_precedence_witness :
  ctf_decl_render heap_ok fp_three_epochs 3 "arr" =
    Ok (Some "int *arr[10]"%string, false) /\
  ctf_decl_render heap_ok fp_ptr_to_array 3 "arr" =
    Ok (Some "int (*arr)[10]"%string, false).
Proof.
  split.
  - assert (Hb : exists tb, ctf_lookup_by_id fp_three_epochs 1 = Ok tb)
      by (eexists; vm_compute; reflexivity).
    assert (Hp : exists tp, ctf_lookup_by_id fp_three_epochs 2 = Ok tp)
      by (eexists; vm_compute; reflexivity).
    assert (Ha : exists ta, ctf_lookup_by_id fp_three_epochs 3 = Ok ta)
      by (eexists; vm_compute; reflexivity).
    destruct Hb as [tb Hb], Hp as [tp Hp], Ha as [ta Ha].
    pose proof Hb as Hb'. pose proof Hp as Hp'. pose proof Ha as Ha'.
    vm_compute in Hb', Hp', Ha'.
    injection Hb' as <-. injection Hp' as <-. injection Ha' as <-.
    refine (proj2 (proj2 (proj1
      (declarator_precedence fp_three_epochs 1 2 3 10 "arr" _ _ _
         {| ctr_contents := 2; ctr_index := 1; ctr_nelems := 10 |}
         _ _ Hb _ _ Hp _ Ha _ _ _) _ _)));
      first [discriminate | reflexivity | (vm_compute; lia)].
  - assert (Hb : exists tb, ctf_lookup_by_id fp_ptr_to_array 1 = Ok tb)
      by (eexists; vm_compute; reflexivity).
    assert (Hp : exists tp, ctf_lookup_by_id fp_ptr_to_array 3 = Ok tp)
      by (eexists; vm_compute; reflexivity).
    assert (Ha : exists ta, ctf_lookup_by_id fp_ptr_to_array 2 = Ok ta)
      by (eexists; vm_compute; reflexivity).
    destruct Hb as [tb Hb], Hp as [tp Hp], Ha as [ta Ha].
    pose proof Hb as Hb'. pose proof Hp as Hp'. pose proof Ha as Ha'.
    vm_compute in Hb', Hp', Ha'.
    injection Hb' as <-. injection Hp' as <-. injection Ha' as <-.
    refine (proj2 (proj2 (proj1 (proj2
      (declarator_precedence fp_ptr_to_array 1 3 2 10 "arr" _ _ _
         {| ctr_contents := 1; ctr_index := 1; ctr_nelems := 10 |}
         _ _ Hb _ _ Hp _ Ha _ _ _)) _ _)));
      first [discriminate | reflexivity | (vm_compute; lia)].
Defined.


(** ** Attaching a parent *)

(** The boundary set by [ctf_import] is one less than a power of two and
    covers the parent's identifiers. *)
Lemma ctf_import_boundary (fp parent fp' : ctf_file) :
  ctf_import fp parent = Some fp' ->
  0 <= ctf_dtnextid parent - 1 < 2 ^ 31 ->
  exists k, 0 <= k /\ u32 (ctf_parmax fp' + 1) = 2 ^ k /\
            0 <= ctf_parmax fp' < 2 ^ 32 /\
            ctf_dtnextid parent - 1 <= ctf_parmax fp'.
Proof.
  unfold ctf_import. intros Hi Hn.
  destruct (ctf_parent parent); [discriminate|].
  destruct (negb _); [discriminate|]. inversion Hi as [Hfp]. clear Hi Hfp.
  set (n := ctf_dtnextid parent - 1) in *.
  assert (Hpm : ctf_parmax (ctf_set_parent parent (u32 (ctf_parmax_round n))
                  (Z.lor (ctf_flags fp) LCTF_CHILD) fp) = u32 (ctf_parmax_round n))
    by (destruct fp; reflexivity).
  rewrite Hpm. unfold ctf_parmax_round.
  set (k := Z.log2_up (n + 1)).
  assert (Hk0 : 0 <= k) by apply Z.log2_up_nonneg.
  assert (Hk31 : k <= 31) by (apply Z.log2_up_le_pow2; lia).
  assert (Hle : n + 1 <= 2 ^ k).
  { apply Z.log2_up_le_pow2; [lia|]. subst k. lia. }
  assert (Hpos : 0 < 2 ^ k) by (apply Z.pow_pos_nonneg; lia).
  assert (Hlt : 2 ^ k <= 2 ^ 31) by (apply Z.pow_le_mono_r; lia).
  assert (Hu : u32 (2 ^ k - 1) = 2 ^ k - 1).
  { unfold u32, wrap. apply Z.mod_small. lia. }
  rewrite Hu. exists k.
  replace (2 ^ k - 1 + 1) with (2 ^ k) by lia.
  repeat split; try lia.
  unfold u32, wrap. apply Z.mod_small. lia.
Qed.

(** A well-formed container that holds no dynamic type yet stays well
    formed when a parent is attached to it. *)
Lemma ctf_wf_import (fp parent fp' : ctf_file) :
  ctf_wf fp -> ctf_dtdefs fp = [] -> ctf_dtnextid fp = 1 ->
  0 <= ctf_dtnextid parent - 1 < 2 ^ 31 ->
  ctf_import fp parent = Some fp' -> ctf_wf fp'.
Proof.
  intros (Hov & Hid & Hty & Hbd & Hlu & Hdv) Hnil Hnext Hn Hi.
  destruct (ctf_import_boundary fp parent fp' Hi Hn) as (k & Hk & Hu & Hb & Hcov).
  assert (Hc : ctf_is_child fp' = true -> ctf_dtnextid fp' <= ctf_parmax fp' + 1).
  { intros _. unfold ctf_import in Hi.
    destruct (ctf_parent parent); [discriminate|].
    destruct (negb _); [discriminate|]. injection Hi as Hfp.
    assert (Hni : ctf_dtnextid fp' = ctf_dtnextid fp)
      by (rewrite <- Hfp; destruct fp; reflexivity).
    lia. }
  assert (Hf : ctf_dtdefs fp' = ctf_dtdefs fp /\ ctf_dthash fp' = ctf_dthash fp /\
               ctf_dtbyname fp' = ctf_dtbyname fp /\ ctf_dvdefs fp' = ctf_dvdefs fp /\
               ctf_dvhash fp' = ctf_dvhash fp /\ ctf_dtnextid fp' = ctf_dtnextid fp /\
               ctf_dtoldid fp' = ctf_dtoldid fp /\ ctf_snapshots fp' = ctf_snapshots fp /\
               ctf_snapshot_lu fp' = ctf_snapshot_lu fp).
  { unfold ctf_import in Hi.
    destruct (ctf_parent parent); [discriminate|].
    destruct (negb _); [discriminate|]. injection Hi as Hfp.
    rewrite <- Hfp. destruct fp. repeat split. }
  destruct Hf as (Hl & Hh & Hbn & Hvl & Hvh & Hni & Hoi & Hsn & Hsl).
  destruct Hov as (H1 & H2 & H3 & H4).
  unfold ctf_wf, overlay_ok, boundary_ok.
  rewrite Hl, Hh, Hbn, Hvl, Hvh, Hni, Hoi, Hsn, Hsl.
  split_and!; try assumption; try lia.
  { rewrite Hnil. constructor. }
  intros Hch. exists k. specialize (Hc Hch). rewrite Hni in Hc.
  split_and!; try assumption; try lia.
Qed.

(** ** Further properties of the alignment macros

    What the two rounding macros do on every [w]-bit operand, including the
    operands whose rounding leaves the [w] bits. *)

Section Rounding.
Variables w k : Z.
Hypothesis Hk : 0 <= k < w.

(** The rounded value without wrap-around is [x] plus the padding
    [(-x) mod 2^k]. *)
Lemma roundup_pad (x : Z) :
  2 ^ k * ((x + 2 ^ k - 1) / 2 ^ k) = x + (- x) mod 2 ^ k.
Proof.
  pose proof (pow2_pos_k w k Hk) as HA.
  pose proof (Z.div_mod (x + 2 ^ k - 1) (2 ^ k) ltac:(lia)) as Hqr.
  pose proof (Z.mod_pos_bound (x + 2 ^ k - 1) (2 ^ k) HA) as Hr.
  set (q := (x + 2 ^ k - 1) / 2 ^ k) in *.
  set (r := (x + 2 ^ k - 1) mod 2 ^ k) in *.
  assert (Hm : (- x) mod 2 ^ k = 2 ^ k - 1 - r).
  { symmetry. apply (Z.mod_unique_pos _ _ (- q)); lia. }
  lia.
Qed.

(** Without overflow of [x + 2^k - 1] the macros return that value. *)
Lemma roundup_small (x : Z) :
  0 <= x -> x + 2 ^ k - 1 < 2 ^ w ->
  (2 ^ k * ((x + 2 ^ k - 1) / 2 ^ k)) mod 2 ^ w = x + (- x) mod 2 ^ k.
Proof.
  intros Hx Hov.
  pose proof (pow2_pos_k w k Hk) as HA.
  pose proof (Z.div_mod (x + 2 ^ k - 1) (2 ^ k) ltac:(lia)) as Hqr.
  pose proof (Z.mod_pos_bound (x + 2 ^ k - 1) (2 ^ k) HA) as Hr.
  rewrite <- roundup_pad.
  assert (0 <= (x + 2 ^ k - 1) / 2 ^ k) by (apply Z.div_pos; lia).
  apply Z.mod_small. nia.
Qed.

(** With overflow the quotient is [2^(w-k)] and the result wraps to 0. *)
Lemma roundup_wraps (x : Z) :
  x < 2 ^ w -> 2 ^ w <= x + 2 ^ k - 1 ->
  (2 ^ k * ((x + 2 ^ k - 1) / 2 ^ k)) mod 2 ^ w = 0.
Proof.
  intros Hx Hov.
  pose proof (pow2_pos_k w k Hk) as HA.
  pose proof (pow2_split_kw w k Hk) as HS.
  assert (HN : 0 < 2 ^ (w - k)) by (apply Z.pow_pos_nonneg; lia).
  assert (Hq : (x + 2 ^ k - 1) / 2 ^ k = 2 ^ (w - k)).
  { symmetry. apply (Z.div_unique_pos _ _ _ (x + 2 ^ k - 1 - 2 ^ w)); lia. }
  rewrite Hq, <- HS. apply Z.mod_same. lia.
Qed.

(** The result is a multiple of [2^k] that fits [w] bits with room for
    [2^k - 1] more. *)
Lemma roundup_range (x : Z) :
  0 <= x < 2 ^ w ->
  exists c, (2 ^ k * ((x + 2 ^ k - 1) / 2 ^ k)) mod 2 ^ w = 2 ^ k * c /\
            0 <= c < 2 ^ (w - k).
Proof.
  intros Hx.
  pose proof (pow2_pos_k w k Hk) as HA.
  pose proof (pow2_split_kw w k Hk) as HS.
  assert (HN : 0 < 2 ^ (w - k)) by (apply Z.pow_pos_nonneg; lia).
  exists (((x + 2 ^ k - 1) / 2 ^ k) mod 2 ^ (w - k)). split.
  - rewrite HS at 1. apply Z.mul_mod_distr_l; lia.
  - apply Z.mod_pos_bound. lia.
Qed.

(** A multiple of [2^k] in range is returned unchanged. *)
Lemma roundup_aligned (c : Z) :
  0 <= c < 2 ^ (w - k) ->
  (2 ^ k * ((2 ^ k * c + 2 ^ k - 1) / 2 ^ k)) mod 2 ^ w = 2 ^ k * c.
Proof.
  intros Hc.
  pose proof (pow2_pos_k w k Hk) as HA.
  pose proof (pow2_split_kw w k Hk) as HS.
  assert (Hq : (2 ^ k * c + 2 ^ k - 1) / 2 ^ k = c).
  { symmetry. apply (Z.div_unique_pos _ _ _ (2 ^ k - 1)); lia. }
  rewrite Hq. apply Z.mod_small. nia.
Qed.
End Rounding.

(** X1.  Rounding is idempotent: for an alignment [2^k] with [0 <= k < w]
    and every [w]-bit [x], applying either macro to its own result returns
    that result, also when the first rounding wrapped around. *)
Theorem align_idempotent (w k x : Z) :
  0 <= k < w -> 0 <= x < 2 ^ w ->
  P2ROUNDUP w (P2ROUNDUP w x (2 ^ k)) (2 ^ k) = P2ROUNDUP w x (2 ^ k) /\
  LCTF_ALIGN_OFFS w (LCTF_ALIGN_OFFS w x (2 ^ k)) (2 ^ k) =
    LCTF_ALIGN_OFFS w x (2 ^ k).
Proof.
  intros Hk Hx.
  assert (HN : 0 < 2 ^ (w - k)) by (apply Z.pow_pos_nonneg; lia).
  pose proof (pow2_pos_k w k Hk) as HA.
  pose proof (pow2_split_kw w k Hk) as HS.
  destruct (roundup_range w k Hk x Hx) as (c & Hc & Hcb).
  assert (Hr : 0 <= 2 ^ k * c < 2 ^ w) by nia.
  rewrite (P2ROUNDUP_closed w k Hk x Hx), (LCTF_ALIGN_OFFS_closed w k Hk x Hx).
  rewrite Hc.
  rewrite (P2ROUNDUP_closed w k Hk _ Hr), (LCTF_ALIGN_OFFS_closed w k Hk _ Hr).
  rewrite (roundup_aligned w k Hk c Hcb). split; reflexivity.
Qed.

Lemma align_idempotent_witness :
  P2ROUNDUP 32 (P2ROUNDUP 32 0x1234 (2 ^ 8)) (2 ^ 8) = P2ROUNDUP 32 0x1234 (2 ^ 8) /\
  LCTF_ALIGN_OFFS 32 (LCTF_ALIGN_OFFS 32 0x1234 (2 ^ 8)) (2 ^ 8) =
    LCTF_ALIGN_OFFS 32 0x1234 (2 ^ 8).
Proof. apply (align_idempotent 32 8 0x1234); lia. Defined.

(** X2.  The operands that the macros leave unchanged are exactly the
    multiples of the alignment: for an alignment [2^k] with [0 <= k < w]
    and a [w]-bit [x], each macro returns [x] if and only if [2^k]
    divides [x]. *)
Theorem align_fixed_points (w k x : Z) :
  0 <= k < w -> 0 <= x < 2 ^ w ->
  (P2ROUNDUP w x (2 ^ k) = x <-> (2 ^ k | x)) /\
  (LCTF_ALIGN_OFFS w x (2 ^ k) = x <-> (2 ^ k | x)).
Proof.
  intros Hk Hx.
  assert (HN : 0 < 2 ^ (w - k)) by (apply Z.pow_pos_nonneg; lia).
  pose proof (pow2_pos_k w k Hk) as HA.
  pose proof (pow2_split_kw w k Hk) as HS.
  rewrite (P2ROUNDUP_closed w k Hk x Hx), (LCTF_ALIGN_OFFS_closed w k Hk x Hx).
  assert (H : (2 ^ k * ((x + 2 ^ k - 1) / 2 ^ k)) mod 2 ^ w = x <-> (2 ^ k | x)).
  { split.
    - intros E. destruct (roundup_range w k Hk x Hx) as (c & Hc & _).
      exists c. lia.
    - intros [c ->].
      replace (c * 2 ^ k) with (2 ^ k * c) in * by lia.
      apply roundup_aligned; [exact Hk|]. nia. }
  split; exact H.
Qed.

Lemma align_fixed_points_witness :
  (P2ROUNDUP 32 0x5600 (2 ^ 8) = 0x5600 <-> (2 ^ 8 | 0x5600)) /\
  (LCTF_ALIGN_OFFS 32 0x5600 (2 ^ 8) = 0x5600 <-> (2 ^ 8 | 0x5600)).
Proof. apply (align_fixed_points 32 8 0x5600); lia. Defined.

(** X3.  On operands of an unsigned type of [w] bits that is at least as
    wide as [int] (32 bits, so that the macros are evaluated at the width
    of the operands), the result of either macro is always a multiple of
    the alignment that fits [w] bits; when [x] lies above the last multiple
    of [2^k] below [2^w], the rounding leaves the [w] bits and the result
    is 0, which is below [x]. *)
Theorem align_wraps_to_zero (w k x : Z) :
  32 <= w -> 0 <= k < w -> 0 <= x < 2 ^ w ->
  (2 ^ k | P2ROUNDUP w x (2 ^ k)) /\ 0 <= P2ROUNDUP w x (2 ^ k) < 2 ^ w /\
  (2 ^ k | LCTF_ALIGN_OFFS w x (2 ^ k)) /\
  0 <= LCTF_ALIGN_OFFS w x (2 ^ k) < 2 ^ w /\
  (2 ^ w - 2 ^ k < x ->
   P2ROUNDUP w x (2 ^ k) = 0 /\ LCTF_ALIGN_OFFS w x (2 ^ k) = 0).
Proof.
  intros _ Hk Hx.
  assert (HN : 0 < 2 ^ (w - k)) by (apply Z.pow_pos_nonneg; lia).
  pose proof (pow2_pos_k w k Hk) as HA.
  pose proof (pow2_split_kw w k Hk) as HS.
  rewrite (P2ROUNDUP_closed w k Hk x Hx), (LCTF_ALIGN_OFFS_closed w k Hk x Hx).
  destruct (roundup_range w k Hk x Hx) as (c & Hc & Hcb).
  assert (Hd : (2 ^ k | 2 ^ k * c)) by (exists c; lia).
  assert (Hr : 0 <= 2 ^ k * c < 2 ^ w) by nia.
  rewrite Hc.
  repeat split; try assumption; try lia;
    rewrite <- Hc; apply roundup_wraps; lia.
Qed.

Lemma align_wraps_to_zero_witness :
  P2ROUNDUP 32 0xffffff01 (2 ^ 8) = 0 /\
  LCTF_ALIGN_OFFS 32 0xffffff01 (2 ^ 8) = 0.
Proof.
  apply (align_wraps_to_zero 32 8 0xffffff01); lia.
Defined.

(** X4.  Without overflow the macros add the padding [(-x) mod 2^k], which
    is less than the alignment: for [x + 2^k - 1 < 2^w] each returns
    [x + (-x) mod 2^k]. *)
Theorem align_padding (w k x : Z) :
  0 <= k < w -> 0 <= x -> x + 2 ^ k - 1 < 2 ^ w ->
  P2ROUNDUP w x (2 ^ k) = x + (- x) mod 2 ^ k /\
  LCTF_ALIGN_OFFS w x (2 ^ k) = x + (- x) mod 2 ^ k /\
  0 <= (- x) mod 2 ^ k < 2 ^ k.
Proof.
  intros Hk Hx Hov.
  pose proof (pow2_pos_k w k Hk) as HA.
  assert (Hxw : 0 <= x < 2 ^ w) by lia.
  rewrite (P2ROUNDUP_closed w k Hk x Hxw), (LCTF_ALIGN_OFFS_closed w k Hk x Hxw).
  rewrite (roundup_small w k Hk x Hx Hov).
  repeat split; try reflexivity; apply Z.mod_pos_bound; lia.
Qed.

Lemma align_padding_witness :
  P2ROUNDUP 32 0x1234 (2 ^ 8) = 0x1234 + (- 0x1234) mod 2 ^ 8 /\
  LCTF_ALIGN_OFFS 32 0x1234 (2 ^ 8) = 0x1234 + (- 0x1234) mod 2 ^ 8 /\
  0 <= (- 0x1234) mod 2 ^ 8 < 2 ^ 8.
Proof. apply (align_padding 32 8 0x1234); lia. Defined.

(** X5.  Rounding is monotone as long as it does not overflow: for
    [x <= y] with [y + 2^k - 1 < 2^w] the rounded [x] is at most the
    rounded [y]. *)
Theorem align_monotone (w k x y : Z) :
  0 <= k < w -> 0 <= x -> x <= y -> y + 2 ^ k - 1 < 2 ^ w ->
  P2ROUNDUP w x (2 ^ k) <= P2ROUNDUP w y (2 ^ k) /\
  LCTF_ALIGN_OFFS w x (2 ^ k) <= LCTF_ALIGN_OFFS w y (2 ^ k).
Proof.
  intros Hk Hx Hxy Hov.
  pose proof (pow2_pos_k w k Hk) as HA.
  assert (Hxw : 0 <= x < 2 ^ w) by lia.
  assert (Hyw : 0 <= y < 2 ^ w) by lia.
  rewrite (P2ROUNDUP_closed w k Hk x Hxw), (LCTF_ALIGN_OFFS_closed w k Hk x Hxw).
  rewrite (P2ROUNDUP_closed w k Hk y Hyw), (LCTF_ALIGN_OFFS_closed w k Hk y Hyw).
  rewrite (roundup_small w k Hk x) by lia.
  rewrite (roundup_small w k Hk y) by lia.
  rewrite <- !(roundup_pad w k Hk).
  assert ((x + 2 ^ k - 1) / 2 ^ k <= (y + 2 ^ k - 1) / 2 ^ k)
    by (apply Z.div_le_mono; lia).
  split; nia.
Qed.

Lemma align_monotone_witness :
  P2ROUNDUP 32 0x1234 (2 ^ 8) <= P2ROUNDUP 32 0x1301 (2 ^ 8) /\
  LCTF_ALIGN_OFFS 32 0x1234 (2 ^ 8) <= LCTF_ALIGN_OFFS 32 0x1301 (2 ^ 8).
Proof. apply (align_monotone 32 8 0x1234 0x1301); lia. Defined.

(** X6.  Rounding to a finer alignment first does not change the result
    of rounding to a coarser one: for [0 <= j <= k < w] and every [w]-bit
    [x], rounding to [2^j] and then to [2^k] equals rounding to [2^k]. *)
Theorem align_nested (w j k x : Z) :
  0 <= j <= k -> k < w -> 0 <= x < 2 ^ w ->
  P2ROUNDUP w (P2ROUNDUP w x (2 ^ j)) (2 ^ k) = P2ROUNDUP w x (2 ^ k) /\
  LCTF_ALIGN_OFFS w (LCTF_ALIGN_OFFS w x (2 ^ j)) (2 ^ k) =
    LCTF_ALIGN_OFFS w x (2 ^ k).
Proof.
  intros Hjk Hkw Hx.
  assert (Hj : 0 <= j < w) by lia.
  assert (Hk : 0 <= k < w) by lia.
  pose proof (pow2_pos_k w j Hj) as HJ.
  pose proof (pow2_pos_k w k Hk) as HK.
  assert (HD : 2 ^ k = 2 ^ j * 2 ^ (k - j))
    by (rewrite <- Z.pow_add_r by lia; f_equal; lia).
  assert (HDp : 0 < 2 ^ (k - j)) by (apply Z.pow_pos_nonneg; lia).
  destruct (roundup_range w j Hj x Hx) as (c & Hc & Hcb).
  pose proof (pow2_split_kw w j Hj) as HSj.
  assert (Hr : 0 <= 2 ^ j * c < 2 ^ w) by nia.
  rewrite (P2ROUNDUP_closed w j Hj x Hx), (LCTF_ALIGN_OFFS_closed w j Hj x Hx).
  rewrite Hc.
  rewrite (P2ROUNDUP_closed w k Hk _ Hr), (LCTF_ALIGN_OFFS_closed w k Hk _ Hr).
  rewrite (P2ROUNDUP_closed w k Hk x Hx), (LCTF_ALIGN_OFFS_closed w k Hk x Hx).
  assert (H : (2 ^ k * ((2 ^ j * c + 2 ^ k - 1) / 2 ^ k)) mod 2 ^ w =
              (2 ^ k * ((x + 2 ^ k - 1) / 2 ^ k)) mod 2 ^ w).
  { destruct (Z_lt_le_dec (x + 2 ^ j - 1) (2 ^ w)) as [Hs|Hw].
    - rewrite (roundup_small w j Hj x) in Hc by lia.
      rewrite <- (roundup_pad w j Hj) in Hc.
      f_equal. f_equal.
      pose proof (Z.div_mod (x + 2 ^ k - 1) (2 ^ k) ltac:(lia)) as Hqr.
      pose proof (Z.mod_pos_bound (x + 2 ^ k - 1) (2 ^ k) HK) as Hrk.
      pose proof (Z.div_mod (x + 2 ^ j - 1) (2 ^ j) ltac:(lia)) as Hqj.
      pose proof (Z.mod_pos_bound (x + 2 ^ j - 1) (2 ^ j) HJ) as Hrj.
      set (q := (x + 2 ^ k - 1) / 2 ^ k) in *.
      set (cj := (x + 2 ^ j - 1) / 2 ^ j) in *.
      assert (Hcc : c = cj) by nia.
      assert (Hle : cj <= 2 ^ (k - j) * q).
      { destruct (Z_le_gt_dec cj (2 ^ (k - j) * q)); [assumption|].
        exfalso. nia. }
      symmetry.
      apply (Z.div_unique_pos _ _ _ (2 ^ j * c + 2 ^ k - 1 - 2 ^ k * q)).
      + nia.
      + lia.
    - rewrite (roundup_wraps w j Hj x) in Hc by lia.
      assert (c = 0) by nia. subst c.
      rewrite (roundup_wraps w k Hk x).
      + rewrite Z.mul_0_r, Z.add_0_l.
        rewrite Z.div_small by lia. rewrite Z.mul_0_r. apply Z.mod_0_l. lia.
      + lia.
      + assert (2 ^ j <= 2 ^ k) by nia. lia. }
  split; exact H.
Qed.

Lemma align_nested_witness :
  P2ROUNDUP 32 (P2ROUNDUP 32 0x1234 (2 ^ 4)) (2 ^ 8) = P2ROUNDUP 32 0x1234 (2 ^ 8) /\
  LCTF_ALIGN_OFFS 32 (LCTF_ALIGN_OFFS 32 0x1234 (2 ^ 4)) (2 ^ 8) =
    LCTF_ALIGN_OFFS 32 0x1234 (2 ^ 8).
Proof. apply (align_nested 32 4 8 0x1234); lia. Defined.

(** ** Further properties of the identifier macros

    Encoding followed by decoding, the range and the period of the
    decoding, the boundaries for which the decoding is exact, and the
    boundary at which the child bit leaves [uint32_t]. *)

(** X7.  Encoding a local index and decoding the identifier gives the
    index back, and the identifier is classified as a child identifier
    exactly when it was encoded with the child flag: for a boundary with
    [parmax+1] (as the macro computes it) a power of two and
    [0 <= i <= parmax]. *)
Theorem index_type_roundtrip (fp : ctf_file) (k i : Z) (child : bool) :
  0 <= k -> 0 <= ctf_parmax fp < 2 ^ 32 ->
  u32 (ctf_parmax fp + 1) = 2 ^ k ->
  0 <= i <= ctf_parmax fp ->
  LCTF_TYPE_TO_INDEX fp (LCTF_INDEX_TO_TYPE fp i child) = i /\
  LCTF_TYPE_ISCHILD fp (LCTF_INDEX_TO_TYPE fp i child) = child /\
  LCTF_TYPE_ISPARENT fp (LCTF_INDEX_TO_TYPE fp i child) = negb child.
Proof.
  intros Hk Hb Hu Hi.
  pose proof (parmax_succ_pow2 fp k Hk Hb Hu) as Hp.
  rewrite (index_to_type_value fp k i child Hk Hb Hu Hi).
  unfold LCTF_TYPE_TO_INDEX, LCTF_TYPE_ISCHILD, LCTF_TYPE_ISPARENT.
  replace (ctf_parmax fp) with (2 ^ k - 1) in * by lia.
  destruct child; simpl.
  - rewrite land_drop_high_bit by lia.
    repeat split; [lia | apply Z.gtb_lt; lia | apply Z.leb_gt; lia].
  - rewrite land_low_mask by lia.
    repeat split; [rewrite Z.gtb_ltb; apply Z.ltb_ge; lia | apply Z.leb_le; lia].
Qed.

Lemma index_type_roundtrip_witness :
  LCTF_TYPE_TO_INDEX fp_boundary7 (LCTF_INDEX_TO_TYPE fp_boundary7 5 true) = 5 /\
  LCTF_TYPE_ISCHILD fp_boundary7 (LCTF_INDEX_TO_TYPE fp_boundary7 5 true) = true /\
  LCTF_TYPE_ISPARENT fp_boundary7 (LCTF_INDEX_TO_TYPE fp_boundary7 5 true) = false.
Proof.
  apply (index_type_roundtrip fp_boundary7 3 5 true);
    [lia | simpl; lia | reflexivity | simpl; lia].
Defined.

(** X8.  The encoding is injective: two local indices between 0 and
    [parmax], each with its child flag, that are encoded as the same
    identifier are the same index with the same flag. *)
Theorem index_to_type_injective (fp : ctf_file) (k i j : Z) (c d : bool) :
  0 <= k -> 0 <= ctf_parmax fp < 2 ^ 32 ->
  u32 (ctf_parmax fp + 1) = 2 ^ k ->
  0 <= i <= ctf_parmax fp -> 0 <= j <= ctf_parmax fp ->
  LCTF_INDEX_TO_TYPE fp i c = LCTF_INDEX_TO_TYPE fp j d ->
  i = j /\ c = d.
Proof.
  intros Hk Hb Hu Hi Hj.
  pose proof (parmax_succ_pow2 fp k Hk Hb Hu) as Hp.
  rewrite (index_to_type_value fp k i c Hk Hb Hu Hi).
  rewrite (index_to_type_value fp k j d Hk Hb Hu Hj).
  destruct c, d; intros E; split; try reflexivity; lia.
Qed.

Lemma index_to_type_injective_witness : 5 = 5 /\ true = true.
Proof.
  apply (index_to_type_injective fp_boundary7 3 5 5 true true);
    [lia | simpl; lia | reflexivity | simpl; lia | simpl; lia | reflexivity].
Defined.

(** X9.  A decoded index never leaves the table of the boundary: for a
    boundary that is not negative, whether or not [parmax+1] is a power
    of two, and for every identifier, the index lies between 0 and
    [parmax]. *)
Theorem type_to_index_bounded (fp : ctf_file) (id : Z) :
  0 <= ctf_parmax fp ->
  0 <= LCTF_TYPE_TO_INDEX fp id <= ctf_parmax fp.
Proof. intros Hp. unfold LCTF_TYPE_TO_INDEX. apply land_le_r. exact Hp. Qed.

Lemma type_to_index_bounded_witness :
  0 <= LCTF_TYPE_TO_INDEX fp_boundary7 1000 <= ctf_parmax fp_boundary7.
Proof. apply (type_to_index_bounded fp_boundary7 1000). simpl. lia. Defined.

(** X10.  With [parmax+1] a power of two the decoding is the remainder
    modulo [parmax+1]; identifiers that differ by a multiple of
    [parmax+1] decode to the same index. *)
Theorem type_to_index_mod (fp : ctf_file) (k id : Z) :
  0 <= k -> 0 <= ctf_parmax fp < 2 ^ 32 ->
  u32 (ctf_parmax fp + 1) = 2 ^ k ->
  LCTF_TYPE_TO_INDEX fp id = id mod (ctf_parmax fp + 1) /\
  forall m, LCTF_TYPE_TO_INDEX fp (id + m * (ctf_parmax fp + 1)) =
            LCTF_TYPE_TO_INDEX fp id.
Proof.
  intros Hk Hb Hu.
  pose proof (parmax_succ_pow2 fp k Hk Hb Hu) as Hp.
  assert (HA : 0 < 2 ^ k) by (apply Z.pow_pos_nonneg; lia).
  assert (H : forall x, LCTF_TYPE_TO_INDEX fp x = x mod (ctf_parmax fp + 1)).
  { intros x. unfold LCTF_TYPE_TO_INDEX. rewrite Hp.
    replace (ctf_parmax fp) with (Z.ones k) by (rewrite Z.ones_equiv; lia).
    apply Z.land_ones. exact Hk. }
  split; [apply H|]. intros m. rewrite !H. apply Z.mod_add. lia.
Qed.

Lemma type_to_index_mod_witness :
  LCTF_TYPE_TO_INDEX fp_boundary7 13 = 13 mod (ctf_parmax fp_boundary7 + 1) /\
  LCTF_TYPE_TO_INDEX fp_boundary7 (13 + 2 * (ctf_parmax fp_boundary7 + 1)) =
    LCTF_TYPE_TO_INDEX fp_boundary7 13.
Proof.
  destruct (type_to_index_mod fp_boundary7 3 13) as [H1 H2];
    [lia | simpl; lia | reflexivity |].
  split; [exact H1 | exact (H2 2)].
Defined.

(** X11.  The decoding returns every identifier between 0 and [parmax]
    unchanged if and only if [parmax+1] is a power of two. *)
Theorem parent_decode_exact_iff (fp : ctf_file) :
  0 <= ctf_parmax fp ->
  (forall id, 0 <= id <= ctf_parmax fp -> LCTF_TYPE_TO_INDEX fp id = id) <->
  (exists k, 0 <= k /\ ctf_parmax fp + 1 = 2 ^ k).
Proof.
  intros Hp. unfold LCTF_TYPE_TO_INDEX. set (p := ctf_parmax fp) in *.
  split.
  - intros Hid.
    destruct (Z.eq_dec p 0) as [E|E]; [exists 0; rewrite E; split; [lia|reflexivity]|].
    assert (Hpos : 0 < p) by lia.
    pose proof (Z.log2_spec p Hpos) as [Hlo Hhi].
    pose proof (Z.log2_nonneg p) as Hl.
    exists (Z.succ (Z.log2 p)). split; [lia|].
    assert (Hones : p = Z.ones (Z.succ (Z.log2 p))).
    { apply Z.bits_inj'. intros n Hn.
      rewrite Z.testbit_ones_nonneg by lia.
      destruct (n <? Z.succ (Z.log2 p)) eqn:En.
      - apply Z.ltb_lt in En.
        assert (H2 : 0 <= 2 ^ n <= p).
        { split; [apply Z.pow_nonneg; lia|].
          apply Z.le_trans with (2 ^ Z.log2 p); [|exact Hlo].
          apply Z.pow_le_mono_r; lia. }
        specialize (Hid (2 ^ n) H2).
        assert (Hb : Z.testbit (Z.land (2 ^ n) p) n = true)
          by (rewrite Hid; apply Z.pow2_bits_true; lia).
        rewrite Z.land_spec, Z.pow2_bits_true in Hb by lia. exact Hb.
      - apply Z.ltb_ge in En. apply Z.bits_above_log2; lia. }
    rewrite Z.ones_equiv in Hones. lia.
  - intros (k & Hk & Hpk) id Hid.
    replace p with (2 ^ k - 1) in * by lia.
    apply land_low_mask; lia.
Qed.

Lemma parent_decode_exact_iff_witness : LCTF_TYPE_TO_INDEX fp_boundary7 5 = 5.
Proof.
  assert (Hp : 0 <= ctf_parmax fp_boundary7) by (simpl; lia).
  apply (proj2 (parent_decode_exact_iff fp_boundary7 Hp)).
  - exists 3. split; [lia | reflexivity].
  - simpl. lia.
Defined.

(** X12.  Every identifier is on exactly one side of the boundary, the
    parent side is closed downwards and the child side upwards. *)
Theorem parent_child_partition (fp : ctf_file) (id : Z) :
  LCTF_TYPE_ISCHILD fp id = negb (LCTF_TYPE_ISPARENT fp id) /\
  (forall id', id' <= id -> LCTF_TYPE_ISPARENT fp id = true ->
               LCTF_TYPE_ISPARENT fp id' = true) /\
  (forall id', id <= id' -> LCTF_TYPE_ISCHILD fp id = true ->
               LCTF_TYPE_ISCHILD fp id' = true).
Proof.
  unfold LCTF_TYPE_ISCHILD, LCTF_TYPE_ISPARENT. repeat split.
  - rewrite Z.gtb_ltb, Z.leb_antisym, negb_involutive. reflexivity.
  - intros id' Hle H. apply Z.leb_le in H. apply Z.leb_le. lia.
  - intros id' Hle H. apply Z.gtb_lt in H. apply Z.gtb_lt. lia.
Qed.

Lemma parent_child_partition_witness :
  LCTF_TYPE_ISCHILD fp_boundary7 13 = negb (LCTF_TYPE_ISPARENT fp_boundary7 13) /\
  LCTF_TYPE_ISCHILD fp_boundary7 20 = true /\
  LCTF_TYPE_ISPARENT fp_boundary7 3 = true.
Proof.
  destruct (parent_child_partition fp_boundary7 13) as (H1 & _ & H3).
  destruct (parent_child_partition fp_boundary7 5) as (_ & H2 & _).
  split; [exact H1|]. split.
  - apply (H3 20); [lia | reflexivity].
  - apply (H2 3); [lia | reflexivity].
Defined.

(** X13.  At the boundary [0xffffffff] the child bit [parmax+1] wraps to 0
    in [uint32_t]: the encoding ignores the child flag, and an index that
    fits 32 bits encoded with the child flag is classified as a parent
    identifier. *)
Theorem child_bit_wraps (fp : ctf_file) (i : Z) :
  ctf_parmax fp = 2 ^ 32 - 1 ->
  LCTF_INDEX_TO_TYPE fp i true = LCTF_INDEX_TO_TYPE fp i false /\
  (i < 2 ^ 32 ->
   LCTF_TYPE_ISCHILD fp (LCTF_INDEX_TO_TYPE fp i true) = false /\
   LCTF_TYPE_ISPARENT fp (LCTF_INDEX_TO_TYPE fp i true) = true).
Proof.
  intros Hp.
  assert (E : LCTF_INDEX_TO_TYPE fp i true = i).
  { unfold LCTF_INDEX_TO_TYPE. rewrite Hp.
    replace (u32 (2 ^ 32 - 1 + 1)) with 0 by reflexivity. apply Z.lor_0_r. }
  rewrite E. split; [reflexivity|]. intros Hi.
  unfold LCTF_TYPE_ISCHILD, LCTF_TYPE_ISPARENT. rewrite Hp. split.
  - rewrite Z.gtb_ltb. apply Z.ltb_ge. lia.
  - apply Z.leb_le. lia.
Qed.

Lemma child_bit_wraps_witness :
  LCTF_INDEX_TO_TYPE
    (ctf_set_parent fp_boundary0 0xffffffff (Z.lor LCTF_RDWR LCTF_CHILD) fp_boundary0)
    5 true =
  LCTF_INDEX_TO_TYPE
    (ctf_set_parent fp_boundary0 0xffffffff (Z.lor LCTF_RDWR LCTF_CHILD) fp_boundary0)
    5 false.
Proof.
  apply (child_bit_wraps
           (ctf_set_parent fp_boundary0 0xffffffff (Z.lor LCTF_RDWR LCTF_CHILD)
              fp_boundary0) 5).
  reflexivity.
Defined.

(** X14.  The identifiers that survive decoding followed by encoding with
    their own child flag are exactly those between 0 and [2*parmax+1]:
    a negative identifier and an identifier above [2*parmax+1] are encoded
    back as a different identifier. *)
Theorem type_roundtrip_range_exact (fp : ctf_file) (k x : Z) :
  0 <= k -> 0 <= ctf_parmax fp < 2 ^ 32 ->
  u32 (ctf_parmax fp + 1) = 2 ^ k ->
  LCTF_INDEX_TO_TYPE fp (LCTF_TYPE_TO_INDEX fp x) (LCTF_TYPE_ISCHILD fp x) = x <->
  0 <= x <= 2 * ctf_parmax fp + 1.
Proof.
  intros Hk Hb Hu.
  pose proof (parmax_succ_pow2 fp k Hk Hb Hu) as Hp.
  assert (HA : 0 < 2 ^ k) by (apply Z.pow_pos_nonneg; lia).
  pose proof (land_le_r x (ctf_parmax fp) ltac:(lia)) as Hr.
  assert (Hv := index_to_type_value fp k (Z.land x (ctf_parmax fp))
                  (LCTF_TYPE_ISCHILD fp x) Hk Hb Hu Hr).
  unfold LCTF_TYPE_TO_INDEX at 1. rewrite Hv. clear Hv.
  unfold LCTF_TYPE_ISCHILD.
  destruct (x >? ctf_parmax fp) eqn:E.
  - apply Z.gtb_lt in E. split.
    + intros Hx. lia.
    + intros Hx. replace (ctf_parmax fp) with (2 ^ k - 1) by lia.
      rewrite land_drop_high_bit by lia. lia.
  - assert (x <= ctf_parmax fp)
      by (rewrite Z.gtb_ltb in E; apply Z.ltb_ge in E; lia).
    split.
    + intros Hx. lia.
    + intros Hx. replace (ctf_parmax fp) with (2 ^ k - 1) by lia.
      apply land_low_mask; lia.
Qed.

Lemma type_roundtrip_range_exact_witness :
  LCTF_INDEX_TO_TYPE fp_boundary7 (LCTF_TYPE_TO_INDEX fp_boundary7 16)
    (LCTF_TYPE_ISCHILD fp_boundary7 16) <> 16.
Proof.
  intros H.
  apply (type_roundtrip_range_exact fp_boundary7 3 16) in H;
    [simpl in H; lia | lia | simpl; lia | reflexivity].
Defined.

(** ** Alignments that are not powers of two *)

(** A positive number that shares no bit with its predecessor is a power
    of two. *)
Lemma land_pred_0_pow2 (a : Z) :
  0 < a -> Z.land a (a - 1) = 0 -> a = 2 ^ Z.log2 a.
Proof.
  intros Ha Hl.
  pose proof (Z.log2_spec a Ha) as [Hlo Hhi].
  pose proof (Z.log2_nonneg a) as Hk.
  rewrite Z.pow_succ_r in Hhi by exact Hk.
  destruct (Z.eq_dec a (2 ^ Z.log2 a)) as [E|E]; [exact E|exfalso].
  assert (Hb : Z.testbit (Z.land a (a - 1)) (Z.log2 a) = true).
  { rewrite Z.land_spec, Z.bit_log2 by exact Ha. simpl.
    rewrite Z.testbit_true by exact Hk.
    assert (Hq : (a - 1) / 2 ^ Z.log2 a = 1).
    { symmetry. apply (Z.div_unique_pos _ _ _ (a - 1 - 2 ^ Z.log2 a)); lia. }
    rewrite Hq. reflexivity. }
  rewrite Hl, Z.bits_0 in Hb. discriminate.
Qed.

(** On the operand 1, [P2ROUNDUP] returns the alignment and
    [LCTF_ALIGN_OFFS] returns the bits that the alignment shares with its
    negation. *)
Lemma P2ROUNDUP_one (w a : Z) :
  0 < w -> 0 < a < 2 ^ w -> P2ROUNDUP w 1 a = a.
Proof.
  intros Hw Ha.
  assert (H1 : negw w 1 = Z.ones w).
  { unfold negw, wrap. rewrite Z.ones_equiv. symmetry.
    apply (Z.mod_unique_pos _ _ (-1)); lia. }
  unfold P2ROUNDUP. rewrite H1. unfold negw, wrap.
  rewrite Z.land_comm, Z.land_ones by lia.
  rewrite Z.mod_mod by lia.
  assert (H2 : (- a) mod 2 ^ w = 2 ^ w - a).
  { symmetry. apply (Z.mod_unique_pos _ _ (-1)); lia. }
  rewrite H2. symmetry. apply (Z.mod_unique_pos _ _ (-1)); lia.
Qed.

Lemma LCTF_ALIGN_OFFS_one (w a : Z) :
  0 < w -> 0 < a < 2 ^ w -> LCTF_ALIGN_OFFS w 1 a = Z.ldiff a (a - 1).
Proof.
  intros Hw Ha. unfold LCTF_ALIGN_OFFS, notw, wrap.
  rewrite (Z.mod_small (a - 1)) by lia.
  replace (1 + (a - 1)) with a by lia.
  rewrite (Z.mod_small a) by lia.
  rewrite <- Z.land_ones by lia.
  rewrite Z.land_assoc, <- Z.ldiff_land.
  rewrite Z.land_ones by lia.
  apply Z.mod_small.
  pose proof (land_le_r (Z.lnot (a - 1)) a ltac:(lia)) as Hb.
  rewrite Z.land_comm, <- Z.ldiff_land in Hb. lia.
Qed.

(** X15.  The two macros agree on every [w]-bit operand only for
    alignments that are powers of two: for [0 < a < 2^w] they return the
    same value for every [x] if and only if [a = 2^k] for some
    [0 <= k < w]; for any other alignment they differ on the operand 1. *)
Theorem align_agree_iff_pow2 (w a : Z) :
  0 < w -> 0 < a < 2 ^ w ->
  (forall x, 0 <= x < 2 ^ w -> P2ROUNDUP w x a = LCTF_ALIGN_OFFS w x a) <->
  (exists k, 0 <= k < w /\ a = 2 ^ k).
Proof.
  intros Hw Ha. split.
  - intros Hall.
    assert (H1 : 0 <= 1 < 2 ^ w).
    { split; [lia|]. apply Z.le_lt_trans with a; lia. }
    specialize (Hall 1 H1).
    rewrite P2ROUNDUP_one, LCTF_ALIGN_OFFS_one in Hall by assumption.
    assert (Hl : Z.land a (a - 1) = 0).
    { apply Z.bits_inj'. intros n Hn. rewrite Z.land_spec, Z.bits_0.
      assert (Hb : Z.testbit a n = Z.testbit (Z.ldiff a (a - 1)) n)
        by (rewrite <- Hall; reflexivity).
      rewrite Z.ldiff_spec in Hb.
      destruct (Z.testbit a n), (Z.testbit (a - 1) n);
        simpl in *; congruence. }
    pose proof (land_pred_0_pow2 a ltac:(lia) Hl) as Hp.
    exists (Z.log2 a). split; [|exact Hp].
    split; [apply Z.log2_nonneg|].
    apply Z.log2_lt_pow2; lia.
  - intros (k & Hk & ->) x Hx.
    rewrite (P2ROUNDUP_closed w k Hk x Hx), (LCTF_ALIGN_OFFS_closed w k Hk x Hx).
    reflexivity.
Qed.

Lemma align_agree_iff_pow2_witness :
  P2ROUNDUP 32 0x1234 0x100 = LCTF_ALIGN_OFFS 32 0x1234 0x100.
Proof.
  assert (Hw : 0 < 32) by lia.
  assert (Ha : 0 < 0x100 < 2 ^ 32) by lia.
  apply (proj2 (align_agree_iff_pow2 32 0x100 Hw Ha)).
  - exists 8. split; [lia | reflexivity].
  - lia.
Defined.
